(** * PlainSpec: the deterministic rule engine, its validator and coverage

    A shallow embedding of the TypeScript sources of the PlainSpec rule
    engine ([executor.ts], [coverage.ts] and the hand-written validator) and
    the properties its specification states about them.

    Modelling conventions, used throughout:
    - JavaScript values are [value]s; objects and arrays are mutable cells
      of a [heap] and are referred to by address ([VRef]), so that aliasing
      and in-place mutation are those of the source.
    - JavaScript numbers are modelled by [Z]: the development covers facts,
      priorities and counters that are integers and stay exact; floating
      point rounding, [NaN] and the infinities are outside it.
    - Strings are sequences of code units ([string]).
    - A property bag is a [gmap string value]: enumeration order of keys is
      not represented.  Members inherited from the built-in prototypes
      ([constructor], [toString], ...) are not represented either: reading a
      key that is not an own property yields [undefined].
    - An exception is an explicit outcome, [Throw]; the only unbounded loop
      of the engine takes a [fuel] argument.
    - The regular expression engine and [String.prototype.localeCompare]
      belong to the JavaScript host and are operations of the class
      [JsHost]. *)

From Stdlib Require Import ZArith Lia Ascii Sorting.Sorted.
From Stdlib Require String OrdersEx.
From stdpp Require Import base option list gmap strings pretty.

Set Warnings "-register-all".

Local Open Scope string_scope.
Local Open Scope list_scope.
Local Open Scope Z_scope.

(** ** JavaScript values and the heap *)

Inductive value :=
| VUndef
| VNull
| VBool (b : bool)
| VNum (n : Z)
| VStr (s : string)
| VRef (a : nat).

Global Instance value_eq_dec : EqDecision value.
Proof. solve_decision. Defined.

(** [===] on two values: primitives by content, objects and arrays by
    identity.  Without [NaN] it coincides with the [SameValueZero] of
    [Array.prototype.includes]. *)
Definition strict_eq (x y : value) : bool := bool_decide (x = y).

Definition includes_value (l : list value) (x : value) : bool :=
  existsb (strict_eq x) l.

Inductive cell :=
| CObj (props : gmap string value)
| CArr (elems : list value) (props : gmap string value).

Abbreviation heap := (list cell).

Inductive js_error := TypeError | RangeError | SyntaxError.

Inductive outcome (A : Type) :=
| Ok (a : A)
| Throw (e : js_error).
Global Arguments Ok {A} a.
Global Arguments Throw {A} e.

(** Computations that read and write a state of type [S] and may throw. *)
Definition M (S A : Type) : Type := S -> outcome A * S.

Definition ret {S A} (a : A) : M S A := fun s => (Ok a, s).
Definition throw {S A} (e : js_error) : M S A := fun s => (Throw e, s).
Definition bind {S A B} (m : M S A) (k : A -> M S B) : M S B :=
  fun s => match m s with
           | (Ok a, s') => k a s'
           | (Throw e, s') => (Throw e, s')
           end.
Definition get_state {S} : M S S := fun s => (Ok s, s).
Definition modify {S} (f : S -> S) : M S unit := fun s => (Ok tt, f s).

Global Arguments ret {S A} a s /.
Global Arguments throw {S A} e s /.
Global Arguments bind {S A B} m k s /.
Global Arguments get_state {S} s /.
Global Arguments modify {S} f s /.

Declare Scope js_scope.
Delimit Scope js_scope with js.
Notation "'let*' x ':=' m 'in' k" := (bind m (fun x => k))
  (at level 10, x pattern, m at level 100, k at level 200) : js_scope.
Notation "m ';;;' k" := (bind m (fun _ => k))
  (at level 100, k at level 200, right associativity) : js_scope.
Local Open Scope js_scope.

Definition alloc (c : cell) : M heap value :=
  fun h => (Ok (VRef (length h)), h ++ [c]).

(** ** Strings *)

(** [s.split(sep)] for a one-character separator. *)
Fixpoint split (sep : ascii) (s : string) : list string :=
  match s with
  | EmptyString => [EmptyString]
  | String c s' =>
      if Ascii.eqb c sep then EmptyString :: split sep s'
      else match split sep s' with
           | [] => [String c EmptyString]
           | w :: ws => String c w :: ws
           end
  end.

(** [s.includes(p)]: [p] occurs in [s] as a contiguous substring. *)
Fixpoint includes (s p : string) : bool :=
  String.prefix p s ||
  match s with
  | EmptyString => false
  | String _ s' => includes s' p
  end.

Definition is_digit (c : ascii) : bool :=
  (48 <=? Z.of_nat (nat_of_ascii c)) && (Z.of_nat (nat_of_ascii c) <=? 57).

Fixpoint digits_value (acc : Z) (s : string) : option Z :=
  match s with
  | EmptyString => Some acc
  | String c s' =>
      if is_digit c
      then digits_value (acc * 10 + (Z.of_nat (nat_of_ascii c) - 48)) s'
      else None
  end.

(** A property key that is an array index: a canonical decimal numeral
    below [2^32 - 1]. *)
Definition array_index (key : string) : option nat :=
  match key with
  | EmptyString => None
  | String c rest =>
      if Ascii.eqb c "0" && negb (String.eqb rest EmptyString) then None
      else match digits_value 0 key with
           | Some n => if n <? 2 ^ 32 - 1 then Some (Z.to_nat n) else None
           | None => None
           end
  end.

Definition char_at (s : string) (i : nat) : value :=
  match String.get i s with
  | Some c => VStr (String c EmptyString)
  | None => VUndef
  end.

(** ** Property access *)

(** [v[key]] for a [v] that is neither [null] nor [undefined]. *)
Definition get_prop (h : heap) (v : value) (key : string) : value :=
  match v with
  | VRef a =>
      match h !! a with
      | Some (CObj props) => default VUndef (props !! key)
      | Some (CArr elems props) =>
          if String.eqb key "length" then VNum (Z.of_nat (length elems))
          else match array_index key with
               | Some i => default VUndef (elems !! i)
               | None => default VUndef (props !! key)
               end
      | None => VUndef
      end
  | VStr s =>
      if String.eqb key "length" then VNum (Z.of_nat (String.length s))
      else match array_index key with
           | Some i => char_at s i
           | None => VUndef
           end
  | _ => VUndef
  end.

(** [obj[key]] as an expression: reading a property of [null] or
    [undefined] is a [TypeError]. *)
Definition read_prop (v : value) (key : string) : M heap value :=
  fun h => match v with
           | VUndef | VNull => (Throw TypeError, h)
           | _ => (Ok (get_prop h v key), h)
           end.

(** Writing index [i] of an array: in range it replaces the element, out of
    range the array grows and the skipped positions read as [undefined]. *)
Definition array_store (elems : list value) (i : nat) (x : value) : list value :=
  if bool_decide (i < length elems)%nat then <[i := x]> elems
  else elems ++ replicate (i - length elems) VUndef ++ [x].

(** [arr.length = x] for a number [x]. *)
Definition array_resize (elems : list value) (n : nat) : list value :=
  take n elems ++ replicate (n - length elems) VUndef.

(** [obj[key] = x] in strict mode (the sources are ES modules).  Assigning
    to a property of a primitive is a [TypeError]; assigning an array's
    [length] anything but an integer in range is a [RangeError] (the
    [ToNumber] coercion of strings and objects is not represented). *)
Definition write_prop (v : value) (key : string) (x : value) : M heap unit :=
  fun h =>
    match v with
    | VRef a =>
        match h !! a with
        | Some (CObj props) => (Ok tt, <[a := CObj (<[key := x]> props)]> h)
        | Some (CArr elems props) =>
            if String.eqb key "length" then
              match x with
              | VNum n =>
                  if (0 <=? n) && (n <? 2 ^ 32)
                  then (Ok tt, <[a := CArr (array_resize elems (Z.to_nat n)) props]> h)
                  else (Throw RangeError, h)
              | VNull | VBool false => (Ok tt, <[a := CArr [] props]> h)
              | VBool true => (Ok tt, <[a := CArr (array_resize elems 1) props]> h)
              | _ => (Throw RangeError, h)
              end
            else match array_index key with
                 | Some i => (Ok tt, <[a := CArr (array_store elems i x) props]> h)
                 | None => (Ok tt, <[a := CArr elems (<[key := x]> props)]> h)
                 end
        | None => (Throw TypeError, h)
        end
    | _ => (Throw TypeError, h)
    end.

(** ** Paths into the fact store ([getPathValue], [setPathValue]) *)

Definition getPathValue (h : heap) (obj : value) (path : string) : value :=
  fold_left
    (fun acc key =>
       match acc with
       | VUndef | VNull => VUndef
       | _ => get_prop h acc key
       end)
    (split "." path) obj.

(** The [for] loop of [setPathValue] over all keys but the last. *)
Fixpoint descend (current : value) (keys : list string) : M heap (value * string) :=
  match keys with
  | [] => ret (current, EmptyString)
  | [lastKey] => ret (current, lastKey)
  | key :: rest =>
      let* child := read_prop current key in
      (if strict_eq child VUndef
       then (let* fresh := alloc (CObj ∅) in write_prop current key fresh)
       else ret tt);;;
      let* next := read_prop current key in
      descend next rest
  end.

Definition setPathValue (obj : value) (path : string) (x : value)
  : M heap (value * value) :=
  let* (current, lastKey) := descend obj (split "." path) in
  let* previous := read_prop current lastKey in
  write_prop current lastKey x;;;
  ret (previous, x).

(** ** JSON documents and [cloneInput] *)

Inductive json :=
| JNull
| JBool (b : bool)
| JNum (n : Z)
| JStr (s : string)
| JArr (items : list json)
| JObj (fields : list (string * json)).

(** [mapM] for [option], used by the serialiser. *)
Fixpoint traverse {A B} (f : A -> option B) (l : list A) : option (list B) :=
  match l with
  | [] => Some []
  | x :: xs =>
      match f x, traverse f xs with
      | Some y, Some ys => Some (y :: ys)
      | _, _ => None
      end
  end.

(** The document [JSON.stringify] writes for [v].  The outer [None] is the
    [TypeError] raised on a circular structure; [Some None] is the
    [undefined] returned for [undefined] itself.  A property whose value
    is [undefined] is omitted, an array element that is [undefined] is
    written [null], and the named properties of an array are skipped. *)
Fixpoint to_json (fuel : nat) (h : heap) (v : value) : option (option json) :=
  match v with
  | VUndef => Some None
  | VNull => Some (Some JNull)
  | VBool b => Some (Some (JBool b))
  | VNum n => Some (Some (JNum n))
  | VStr s => Some (Some (JStr s))
  | VRef a =>
      match fuel with
      | O => None
      | S fuel' =>
          match h !! a with
          | None => None
          | Some (CObj props) =>
              match traverse
                      (fun kv : string * value =>
                         match to_json fuel' h kv.2 with
                         | None => None
                         | Some None => Some []
                         | Some (Some j) => Some [(kv.1, j)]
                         end)
                      (map_to_list props) with
              | None => None
              | Some fields => Some (Some (JObj (concat fields)))
              end
          | Some (CArr elems _) =>
              match traverse
                      (fun x => match to_json fuel' h x with
                                | None => None
                                | Some o => Some (default JNull o)
                                end)
                      elems with
              | None => None
              | Some items => Some (Some (JArr items))
              end
          end
      end
  end.

(** No acyclic structure is deeper than the heap has cells. *)
Definition JSON_stringify (h : heap) (v : value) : option (option json) :=
  to_json (S (length h)) h v.

(** [JSON.parse]: the document is built from fresh cells; of two fields
    with the same key the later one wins. *)
Fixpoint JSON_parse (j : json) : M heap value :=
  match j with
  | JNull => ret VNull
  | JBool b => ret (VBool b)
  | JNum n => ret (VNum n)
  | JStr s => ret (VStr s)
  | JArr items =>
      let* elems :=
        (fix parse_items (l : list json) : M heap (list value) :=
           match l with
           | [] => ret []
           | x :: xs =>
               let* v := JSON_parse x in
               let* vs := parse_items xs in
               ret (v :: vs)
           end) items in
      alloc (CArr elems ∅)
  | JObj fields =>
      let* props :=
        (fix parse_fields (l : list (string * json)) (acc : gmap string value)
           : M heap (gmap string value) :=
           match l with
           | [] => ret acc
           | (k, x) :: xs =>
               let* v := JSON_parse x in
               parse_fields xs (<[k := v]> acc)
           end) fields ∅ in
      alloc (CObj props)
  end.

(** [cloneInput(value) = JSON.parse(JSON.stringify(value))].  A circular
    input is a [TypeError]; [undefined] makes [JSON.parse] raise a
    [SyntaxError]. *)
Definition cloneInput (input : value) : M heap value :=
  fun h =>
    match JSON_stringify h input with
    | None => (Throw TypeError, h)
    | Some None => (Throw SyntaxError, h)
    | Some (Some j) => JSON_parse j h
    end.

(** ** The program model ([types.ts], the richer variant) *)

Inductive literal :=
| LNull
| LBool (b : bool)
| LNum (n : Z)
| LStr (s : string).

Definition literal_value (l : literal) : value :=
  match l with
  | LNull => VNull
  | LBool b => VBool b
  | LNum n => VNum n
  | LStr s => VStr s
  end.

Record FactOperand := { fact_path : string; fact_units : option string }.
Record ValueOperand := { operand_value : literal; value_units : option string }.

Inductive Operand :=
| OFact (f : FactOperand)
| OValue (v : ValueOperand).

Global Instance literal_eq_dec : EqDecision literal.
Proof. solve_decision. Defined.
Global Instance FactOperand_eq_dec : EqDecision FactOperand.
Proof. solve_decision. Defined.
Global Instance ValueOperand_eq_dec : EqDecision ValueOperand.
Proof. solve_decision. Defined.
Global Instance Operand_eq_dec : EqDecision Operand.
Proof. solve_decision. Defined.

Inductive Comparator :=
| SymEq | SymNeq | SymGt | SymGte | SymLt | SymLte
| OpEq | OpNeq | OpGt | OpGte | OpLt | OpLte | OpContains | OpIn.

Inductive CompareKind := KCompare | KComparison.
Inductive BooleanKind := KAll | KAny | KAnd | KOr.

Inductive Condition :=
| CondCompare (kind : CompareKind) (lhs : Operand) (operator : Comparator) (rhs : Operand)
| CondExists (fact : FactOperand)
| CondIn (value : Operand) (options : list Operand)
| CondMatches (value : Operand) (pattern : string) (caseInsensitive : option bool)
| CondBoolean (kind : BooleanKind) (conditions : list Condition)
| CondNot (condition : Condition).

Inductive Details :=
| DetailsCompare (lhs rhs : value) (operator : Comparator)
| DetailsExists (v : value)
| DetailsIn (v : value) (options : list value)
| DetailsMatches (v : value) (pattern : string).

Inductive ConditionTrace :=
| CTrace (condition : Condition) (result : bool)
         (details : option Details) (children : option (list ConditionTrace)).

Definition ct_result (t : ConditionTrace) : bool :=
  match t with CTrace _ r _ _ => r end.
Definition ct_details (t : ConditionTrace) : option Details :=
  match t with CTrace _ _ d _ => d end.
Definition ct_children (t : ConditionTrace) : option (list ConditionTrace) :=
  match t with CTrace _ _ _ c => c end.

(** ** The JavaScript host *)

Class JsHost := {
  RegExp : Type;
  (** [new RegExp(pattern, flags)]; [None] is the [SyntaxError] of a
      pattern that does not compile. *)
  RegExp_new : string -> option string -> option RegExp;
  (** [regex.test(s)] for a regular expression without the [g] flag. *)
  RegExp_test : RegExp -> string -> bool;
  (** [a.localeCompare(b)] in the default locale. *)
  localeCompare : string -> string -> Z;
}.

(** ** Condition evaluation *)

Definition evaluateOperand (h : heap) (data : value) (operand : Operand) : value :=
  match operand with
  | OFact f => getPathValue h data (fact_path f)
  | OValue v => literal_value (operand_value v)
  end.

Definition is_number (v : value) : bool :=
  match v with VNum _ => true | _ => false end.

Definition number_of (v : value) : Z :=
  match v with VNum n => n | _ => 0 end.

Definition array_elems (h : heap) (v : value) : option (list value) :=
  match v with
  | VRef a => match h !! a with
              | Some (CArr elems _) => Some elems
              | _ => None
              end
  | _ => None
  end.

Definition join (sep : string) (l : list string) : string := String.concat sep l.

(** [String(v)].  An array is the comma-separated list of its elements,
    [null] and [undefined] printing as the empty string; an array met
    again while it is being printed prints as the empty string.
    [visiting] lists the arrays being printed. *)
Fixpoint to_String (fuel : nat) (visiting : list nat) (h : heap) (v : value) : string :=
  match v with
  | VUndef => "undefined"
  | VNull => "null"
  | VBool true => "true"
  | VBool false => "false"
  | VNum n => pretty n
  | VStr s => s
  | VRef a =>
      match h !! a with
      | Some (CObj _) => "[object Object]"
      | Some (CArr elems _) =>
          if bool_decide (a ∈ visiting) then ""
          else match fuel with
               | O => ""
               | S fuel' =>
                   join "," (map (fun x => match x with
                                           | VUndef | VNull => ""
                                           | _ => to_String fuel' (a :: visiting) h x
                                           end) elems)
               end
      | None => ""
      end
  end.

(** No array is printed inside itself, so that the nesting is at most the
    number of cells. *)
Definition String_of (h : heap) (v : value) : string := to_String (S (length h)) [] h v.

Definition evaluateComparison (h : heap) (lhs : value) (operator : Comparator) (rhs : value) : bool :=
  match operator with
  | OpEq | SymEq => strict_eq lhs rhs
  | OpNeq | SymNeq => negb (strict_eq lhs rhs)
  | OpGt | SymGt => is_number lhs && is_number rhs && (number_of lhs >? number_of rhs)
  | OpGte | SymGte => is_number lhs && is_number rhs && (number_of lhs >=? number_of rhs)
  | OpLt | SymLt => is_number lhs && is_number rhs && (number_of lhs <? number_of rhs)
  | OpLte | SymLte => is_number lhs && is_number rhs && (number_of lhs <=? number_of rhs)
  | OpContains =>
      match lhs with
      | VStr s => includes s (String_of h rhs)
      | _ => match array_elems h lhs with
             | Some elems => includes_value elems rhs
             | None => false
             end
      end
  | OpIn =>
      match array_elems h rhs with
      | Some elems => includes_value elems lhs
      | None => false
      end
  end.

Section Evaluator.
Context `{JsHost}.

(** The [matches] branch: the [catch] clause replaces a pattern that
    does not compile by plain containment. *)
Definition evaluateMatches (v : value) (pattern : string) (caseInsensitive : option bool) : bool :=
  match v with
  | VStr s =>
      let flags := if default false caseInsensitive then Some "i" else None in
      match RegExp_new pattern flags with
      | Some regex => RegExp_test regex s
      | None => includes s pattern
      end
  | _ => false
  end.

Fixpoint evaluateCondition (h : heap) (condition : Condition) (data : value) : ConditionTrace :=
  match condition with
  | CondCompare _ lhs_op operator rhs_op =>
      let lhs := evaluateOperand h data lhs_op in
      let rhs := evaluateOperand h data rhs_op in
      let result :=
        if negb (strict_eq lhs VUndef) && negb (strict_eq rhs VUndef)
        then evaluateComparison h lhs operator rhs
        else false in
      CTrace condition result (Some (DetailsCompare lhs rhs operator)) None
  | CondExists fact =>
      let v := evaluateOperand h data (OFact fact) in
      let result := negb (strict_eq v VUndef) && negb (strict_eq v VNull) in
      CTrace condition result (Some (DetailsExists v)) None
  | CondIn value_op options_ops =>
      let v := evaluateOperand h data value_op in
      let options := map (evaluateOperand h data) options_ops in
      let result := includes_value options v in
      CTrace condition result (Some (DetailsIn v options)) None
  | CondMatches value_op pattern caseInsensitive =>
      let v := evaluateOperand h data value_op in
      CTrace condition (evaluateMatches v pattern caseInsensitive)
             (Some (DetailsMatches v pattern)) None
  | CondNot child_cond =>
      let child := evaluateCondition h child_cond data in
      CTrace condition (negb (ct_result child)) None (Some [child])
  | CondBoolean kind conditions =>
      let childTraces := map (fun child => evaluateCondition h child data) conditions in
      let result :=
        match kind with
        | KAll | KAnd => forallb ct_result childTraces
        | KAny | KOr => existsb ct_result childTraces
        end in
      CTrace condition result None (Some childTraces)
  end.
End Evaluator.

(** ** Actions, rules and programs *)

Inductive Action :=
| ActSet (target : string) (value : Operand)
| ActIncrement (target : string) (value : Z)
| ActAppend (target : string) (value : Operand)
| ActEmit (event : string) (payload : option json)
| ActRoute (toQueue : string) (reason : option string).

Inductive ActionKind := KSet | KIncrement | KAppend | KEmit | KRoute.

Definition action_kind (a : Action) : ActionKind :=
  match a with
  | ActSet _ _ => KSet
  | ActIncrement _ _ => KIncrement
  | ActAppend _ _ => KAppend
  | ActEmit _ _ => KEmit
  | ActRoute _ _ => KRoute
  end.

Inductive RuleMode := ModeAll | ModeFirst | ModeAllMatches | ModeFirstMatch.
Inductive EvaluationMode := FirstMatch | AllMatches.

Record Rule := {
  rule_id : string;
  rule_name : string;
  rule_priority : option Z;
  rule_mode : option RuleMode;
  rule_when : Condition;
  rule_then : option (list Action);
  rule_else : option (list Action);
  rule_actions : option (list Action);
  rule_stopProcessing : option bool;
}.

Inductive Severity := SevError | SevWarn | SevWarning.

Record Constraint := {
  constraint_id : string;
  constraint_description : string;
  constraint_assert : Condition;
  constraint_severity : option Severity;
}.

(** The [input] and [expected] documents of an example are objects of the
    caller, like the input of [runProgram]. *)
Record Example := {
  example_id : string;
  example_input : value;
  example_expected : value;
}.

Record Program := {
  program_rules : list Rule;
  program_constraints : option (list Constraint);
  program_examples : option (list Example);
  program_ruleEvaluation : option RuleMode;
}.

Record ExecutionOptions := {
  opt_mode : option EvaluationMode;
  opt_maxRuleFirings : option Z;
  opt_enableActions : option bool;
  opt_loopUntilSettled : option bool;
  opt_evaluateExamples : option bool;
}.

(** ** Traces and results *)

Record StateDiff := { diff_path : string; diff_before : value; diff_after : value }.

(** An optional member that is absent is [None]; one that is present and
    holds [undefined] is [Some VUndef]. *)
Record ActionTrace := {
  at_action : Action;
  at_applied : bool;
  at_path : option string;
  at_beforeValue : option value;
  at_afterValue : option value;
  at_actionId : string;
  at_ruleId : string;
  at_conflict : option bool;
}.

Record NormalizedActionLog := {
  log_actionId : string;
  log_ruleId : string;
  log_kind : ActionKind;
  log_path : option string;
  log_before : option value;
  log_after : option value;
  log_payload : option json;
}.

Record RuleTrace := {
  rt_ruleId : string;
  rt_ruleName : string;
  rt_priority : option Z;
  rt_evaluatedWhen : bool;
  rt_why : ConditionTrace;
  rt_actionsApplied : list ActionTrace;
  rt_stateDiff : list StateDiff;
  rt_stopProcessing : option bool;
  rt_warnings : option (list string);
}.

Record ConstraintResult := {
  cr_constraint : Constraint;
  cr_passed : bool;
  cr_trace : ConditionTrace;
}.

Record ConstraintReport := {
  report_passed : list ConstraintResult;
  report_failed : list ConstraintResult;
  hasFailures : bool;
  hasErrors : bool;
  errorCount : Z;
  warningCount : Z;
}.

Record ExampleResult := {
  er_example : Example;
  er_passed : bool;
  er_actualOutput : value;
  er_constraints : ConstraintReport;
  er_trace : list RuleTrace;
}.

Record ExecutionResult := {
  resultState : value;
  res_actions : list NormalizedActionLog;
  res_trace : list RuleTrace;
  constraintReport : ConstraintReport;
  testReport : option (list ExampleResult);
  success : bool;
  res_conflictWarnings : option (list string);
  ruleFirings : Z;
  res_hitRuleLimit : bool;
}.

(** ** The state of one execution

    [runProgram] closes over the fact store, which lives in the heap, the
    conflict map and the accumulators that [executePass] updates. *)

Record Writer := { writer_actionId : string; writer_ruleId : string }.

Record RunState := {
  st_heap : heap;
  priorWrites : gmap string Writer;
  actions : list NormalizedActionLog;
  traces : list RuleTrace;
  conflictWarnings : list string;
  firings : Z;
  hitRuleLimit : bool;
}.

Definition with_heap (h : heap) (s : RunState) : RunState :=
  {| st_heap := h; priorWrites := priorWrites s; actions := actions s;
     traces := traces s; conflictWarnings := conflictWarnings s;
     firings := firings s; hitRuleLimit := hitRuleLimit s |}.

Definition with_priorWrites (w : gmap string Writer) (s : RunState) : RunState :=
  {| st_heap := st_heap s; priorWrites := w; actions := actions s;
     traces := traces s; conflictWarnings := conflictWarnings s;
     firings := firings s; hitRuleLimit := hitRuleLimit s |}.

Definition push_action (l : NormalizedActionLog) (s : RunState) : RunState :=
  {| st_heap := st_heap s; priorWrites := priorWrites s; actions := actions s ++ [l];
     traces := traces s; conflictWarnings := conflictWarnings s;
     firings := firings s; hitRuleLimit := hitRuleLimit s |}.

Definition push_trace (t : RuleTrace) (s : RunState) : RunState :=
  {| st_heap := st_heap s; priorWrites := priorWrites s; actions := actions s;
     traces := traces s ++ [t]; conflictWarnings := conflictWarnings s;
     firings := firings s; hitRuleLimit := hitRuleLimit s |}.

Definition push_conflictWarning (w : string) (s : RunState) : RunState :=
  {| st_heap := st_heap s; priorWrites := priorWrites s; actions := actions s;
     traces := traces s; conflictWarnings := conflictWarnings s ++ [w];
     firings := firings s; hitRuleLimit := hitRuleLimit s |}.

Definition count_firing (s : RunState) : RunState :=
  {| st_heap := st_heap s; priorWrites := priorWrites s; actions := actions s;
     traces := traces s; conflictWarnings := conflictWarnings s;
     firings := firings s + 1; hitRuleLimit := hitRuleLimit s |}.

Definition flag_rule_limit (s : RunState) : RunState :=
  {| st_heap := st_heap s; priorWrites := priorWrites s; actions := actions s;
     traces := traces s; conflictWarnings := conflictWarnings s;
     firings := firings s; hitRuleLimit := true |}.

(** A computation on the heap, run on the heap of the execution. *)
Definition on_heap {A} (m : M heap A) : M RunState A :=
  fun s => let '(r, h') := m (st_heap s) in (r, with_heap h' s).

Global Arguments on_heap {A} m s /.

(** ** The action interpreter ([applyAction]) *)

Record ActionOutcome := {
  ao_trace : ActionTrace;
  ao_diffs : list StateDiff;
  ao_log : option NormalizedActionLog;
  ao_warning : option string;
}.

Definition conflict_warning (path : string) (conflict : Writer) (ruleId actionId : string) : string :=
  "Conflict on " +:+ path +:+ ": previously written by " +:+ writer_ruleId conflict
    +:+ " (" +:+ writer_actionId conflict +:+ "), now by " +:+ ruleId
    +:+ " (" +:+ actionId +:+ ").".

(** The common tail of the writing branches: look the path up in the
    conflict map, record the write when actions are enabled, and build the
    warning. *)
Definition track_write (path ruleId actionId : string) (enableActions : bool)
  : M RunState (option Writer * option string) :=
  let* s := get_state in
  let conflict := priorWrites s !! path in
  (if enableActions
   then modify (with_priorWrites
                  (<[path := {| writer_actionId := actionId; writer_ruleId := ruleId |}]>
                     (priorWrites s)))
   else ret tt);;;
  ret (conflict, (fun c => conflict_warning path c ruleId actionId) <$> conflict).

Definition is_array (h : heap) (v : value) : bool :=
  match array_elems h v with Some _ => true | None => false end.

(** The own enumerable properties copied by an object spread. *)
Definition spread_props (h : heap) (v : value) : gmap string value :=
  match v with
  | VRef a =>
      match h !! a with
      | Some (CObj props) => props
      | Some (CArr elems props) =>
          list_to_map (imap (fun i x => (pretty i, x)) elems) ∪ props
      | None => ∅
      end
  | _ => ∅
  end.

Definition applyAction (action : Action) (data : value) (ruleId actionId : string)
    (enableActions : bool) : M RunState ActionOutcome :=
  match action with
  | ActSet target value_op =>
      let* s := get_state in
      let targetValue := evaluateOperand (st_heap s) data value_op in
      let* (previous, next) :=
        (if enableActions
         then on_heap (setPathValue data target targetValue)
         else ret (getPathValue (st_heap s) data target, targetValue)) in
      let diffs :=
        if enableActions && negb (strict_eq previous next)
        then [{| diff_path := target; diff_before := previous; diff_after := next |}]
        else [] in
      let* (conflict, warning) := track_write target ruleId actionId enableActions in
      ret {| ao_trace :=
               {| at_action := action; at_applied := enableActions;
                  at_path := Some target; at_beforeValue := Some previous;
                  at_afterValue := Some (if enableActions then next else previous);
                  at_actionId := actionId; at_ruleId := ruleId;
                  at_conflict := Some (bool_decide (is_Some conflict)) |};
             ao_diffs := diffs;
             ao_warning := warning;
             ao_log :=
               if enableActions
               then Some {| log_actionId := actionId; log_ruleId := ruleId;
                            log_kind := action_kind action; log_path := Some target;
                            log_before := Some previous; log_after := Some next;
                            log_payload := None |}
               else None |}
  | ActIncrement target delta =>
      let* s := get_state in
      let current := getPathValue (st_heap s) data target in
      let next := if is_number current then VNum (number_of current + delta) else VNum delta in
      let* diffs :=
        (if enableActions
         then (let* (previous, _) := on_heap (setPathValue data target next) in
               ret [{| diff_path := target; diff_before := previous; diff_after := next |}])
         else ret []) in
      let* (conflict, warning) := track_write target ruleId actionId enableActions in
      ret {| ao_trace :=
               {| at_action := action; at_applied := enableActions;
                  at_path := Some target; at_beforeValue := Some current;
                  at_afterValue := Some (if enableActions then next else current);
                  at_actionId := actionId; at_ruleId := ruleId;
                  at_conflict := Some (bool_decide (is_Some conflict)) |};
             ao_diffs := diffs;
             ao_warning := warning;
             ao_log :=
               if enableActions
               then Some {| log_actionId := actionId; log_ruleId := ruleId;
                            log_kind := action_kind action; log_path := Some target;
                            log_before := Some current; log_after := Some next;
                            log_payload := None |}
               else None |}
  | ActAppend target value_op =>
      let* s := get_state in
      let current := getPathValue (st_heap s) data target in
      let valueToAppend := evaluateOperand (st_heap s) data value_op in
      let* nextArray :=
        on_heap (alloc (CArr (default [] (array_elems (st_heap s) current) ++ [valueToAppend]) ∅)) in
      let* beforeValue :=
        (if is_array (st_heap s) current then ret current
         else if strict_eq current VUndef then on_heap (alloc (CArr [] ∅))
         else ret current) in
      let* diffs :=
        (if enableActions
         then (on_heap (setPathValue data target nextArray);;;
               ret [{| diff_path := target; diff_before := beforeValue; diff_after := nextArray |}])
         else ret []) in
      let* (conflict, warning) := track_write target ruleId actionId enableActions in
      ret {| ao_trace :=
               {| at_action := action; at_applied := enableActions;
                  at_path := Some target; at_beforeValue := Some beforeValue;
                  at_afterValue := Some (if enableActions then nextArray else beforeValue);
                  at_actionId := actionId; at_ruleId := ruleId;
                  at_conflict := Some (bool_decide (is_Some conflict)) |};
             ao_diffs := diffs;
             ao_warning := warning;
             ao_log :=
               if enableActions
               then Some {| log_actionId := actionId; log_ruleId := ruleId;
                            log_kind := action_kind action; log_path := Some target;
                            log_before := Some beforeValue; log_after := Some nextArray;
                            log_payload := None |}
               else None |}
  | ActEmit event payload =>
      ret {| ao_trace :=
               {| at_action := action; at_applied := enableActions;
                  at_path := None; at_beforeValue := None; at_afterValue := None;
                  at_actionId := actionId; at_ruleId := ruleId; at_conflict := None |};
             ao_diffs := [];
             ao_warning := None;
             ao_log :=
               if enableActions
               then Some {| log_actionId := actionId; log_ruleId := ruleId;
                            log_kind := action_kind action; log_path := Some event;
                            log_before := None; log_after := None;
                            log_payload := Some (default (JObj []) payload) |}
               else None |}
  | ActRoute toQueue reason =>
      let* s := get_state in
      let beforeRoute := getPathValue (st_heap s) data "route" in
      let* nextRoute :=
        on_heap (alloc (CObj (<["reason" := from_option VStr VUndef reason]>
                                (<["toQueue" := VStr toQueue]>
                                   (spread_props (st_heap s) beforeRoute))))) in
      let* diffs :=
        (if enableActions
         then (on_heap (setPathValue data "route" nextRoute);;;
               ret [{| diff_path := "route"; diff_before := beforeRoute; diff_after := nextRoute |}])
         else ret []) in
      let* (conflict, warning) := track_write "route" ruleId actionId enableActions in
      ret {| ao_trace :=
               {| at_action := action; at_applied := enableActions;
                  at_path := Some "route"; at_beforeValue := Some beforeRoute;
                  at_afterValue := Some (if enableActions then nextRoute else beforeRoute);
                  at_actionId := actionId; at_ruleId := ruleId;
                  at_conflict := Some (bool_decide (is_Some conflict)) |};
             ao_diffs := diffs;
             ao_warning := warning;
             ao_log :=
               if enableActions
               then Some {| log_actionId := actionId; log_ruleId := ruleId;
                            log_kind := action_kind action; log_path := Some "route";
                            log_before := Some beforeRoute; log_after := Some nextRoute;
                            log_payload := None |}
               else None |}
  end.

(** ** Constraints, ordering and the scheduler *)

Definition is_error_severity (c : Constraint) : bool :=
  match default SevError (constraint_severity c) with
  | SevError => true
  | _ => false
  end.

Definition normalizeMode (mode : option RuleMode) : EvaluationMode :=
  match mode with
  | Some ModeFirst | Some ModeFirstMatch => FirstMatch
  | _ => AllMatches
  end.

Definition is_firstMatch (m : EvaluationMode) : bool :=
  match m with FirstMatch => true | AllMatches => false end.

Record PassResult := { fired : bool; mutated : bool; stopEarly : bool }.

Section Engine.
Context `{JsHost}.

Definition evaluateConstraints (constraints : option (list Constraint))
    (h : heap) (data : value) : ConstraintReport :=
  match constraints with
  | None =>
      {| report_passed := []; report_failed := []; hasFailures := false;
         hasErrors := false; errorCount := 0; warningCount := 0 |}
  | Some cs =>
      let entries :=
        map (fun c =>
               let trace := evaluateCondition h (constraint_assert c) data in
               {| cr_constraint := c; cr_passed := ct_result trace; cr_trace := trace |})
            cs in
      let passed := filter (fun e => cr_passed e = true) entries in
      let failed := filter (fun e => cr_passed e = false) entries in
      let errors :=
        Z.of_nat (length (filter (fun e => is_error_severity (cr_constraint e) = true) failed)) in
      let warnings :=
        Z.of_nat (length (filter (fun e => is_error_severity (cr_constraint e) = false) failed)) in
      {| report_passed := passed; report_failed := failed;
         hasFailures := bool_decide (0 < length failed)%nat;
         hasErrors := bool_decide (0 < errors);
         errorCount := errors; warningCount := warnings |}
  end.

(** The comparator handed to [Array.prototype.sort]. *)
Definition compareRules (a b : Rule) : Z :=
  let prioA := default 0 (rule_priority a) in
  let prioB := default 0 (rule_priority b) in
  if negb (prioA =? prioB) then prioB - prioA
  else localeCompare (rule_id a) (rule_id b).

(** [Array.prototype.sort] is stable: [r], which stood before every
    element of [sorted], goes in front of the first element it does not
    have to follow. *)
Fixpoint insertRule (r : Rule) (sorted : list Rule) : list Rule :=
  match sorted with
  | [] => [r]
  | x :: rest =>
      if compareRules r x <=? 0 then r :: sorted
      else x :: insertRule r rest
  end.

Definition sortRules (rules : list Rule) : list Rule :=
  foldr insertRule [] rules.

(** The loop over [ruleActions] in [executePass]. *)
Fixpoint applyActions (ruleActions : list Action) (data : value) (ruleId : string)
    (enableActions : bool)
    (actionTraces : list ActionTrace) (stateDiffs : list StateDiff) (warnings : list string)
  : M RunState (list ActionTrace * list StateDiff * list string) :=
  match ruleActions with
  | [] => ret (actionTraces, stateDiffs, warnings)
  | action :: rest =>
      let* s := get_state in
      let actionId :=
        "act-" +:+ pretty (Z.of_nat (length (actions s)) + Z.of_nat (length actionTraces) + 1) in
      let* out := applyAction action data ruleId actionId enableActions in
      (match ao_warning out with
       | Some w => modify (push_conflictWarning w)
       | None => ret tt
       end);;;
      (match ao_log out with
       | Some l => modify (push_action l)
       | None => ret tt
       end);;;
      applyActions rest data ruleId enableActions
        (actionTraces ++ [ao_trace out])
        (stateDiffs ++ ao_diffs out)
        (match ao_warning out with Some w => warnings ++ [w] | None => warnings end)
  end.

Section Pass.
Variable data : value.
Variable maxRuleFirings : Z.
Variable enableActions : bool.
Variable mode : EvaluationMode.

(** The loop over [sortedRules] in [executePass], entered with the
    current values of [fired] and [mutated]. *)
Fixpoint passRules (rules : list Rule) (fired0 mutated0 : bool) : M RunState PassResult :=
  match rules with
  | [] => ret {| fired := fired0; mutated := mutated0; stopEarly := false |}
  | rule :: rest =>
      let* s := get_state in
      let conditionTrace := evaluateCondition (st_heap s) (rule_when rule) data in
      let matched := ct_result conditionTrace in
      let ruleActions :=
        if matched
        then default (default [] (rule_actions rule)) (rule_then rule)
        else default [] (rule_else rule) in
      (if matched then modify count_firing else ret tt);;;
      let fired1 := matched || fired0 in
      let* (actionTraces, stateDiffs, warnings) :=
        applyActions ruleActions data (rule_id rule) enableActions [] [] [] in
      let mutated1 :=
        (enableActions && bool_decide (0 < length stateDiffs)%nat) || mutated0 in
      modify (push_trace
                {| rt_ruleId := rule_id rule;
                   rt_ruleName := rule_name rule;
                   rt_priority := rule_priority rule;
                   rt_evaluatedWhen := matched;
                   rt_why := conditionTrace;
                   rt_actionsApplied := actionTraces;
                   rt_stateDiff := stateDiffs;
                   rt_stopProcessing :=
                     if matched then rule_stopProcessing rule else None;
                   rt_warnings :=
                     match warnings with [] => None | _ => Some warnings end |});;;
      let* s' := get_state in
      if firings s' >=? maxRuleFirings then
        modify flag_rule_limit;;;
        ret {| fired := fired1; mutated := mutated1; stopEarly := true |}
      else
        let ruleMode :=
          match rule_mode rule with
          | Some m => normalizeMode (Some m)
          | None => mode
          end in
        if matched && (is_firstMatch ruleMode || default false (rule_stopProcessing rule))
        then ret {| fired := fired1; mutated := mutated1; stopEarly := true |}
        else passRules rest fired1 mutated1
  end.

Definition executePass (sortedRules : list Rule) : M RunState PassResult :=
  passRules sortedRules false false.

(** The [while] loop of [runProgram]; [None] when [fuel] further
    passes were not enough to leave it. *)
Fixpoint settle (fuel : nat) (loopUntilSettled : bool) (sortedRules : list Rule)
    (passResult : PassResult) (s : RunState)
  : option (outcome PassResult * RunState) :=
  if loopUntilSettled && mutated passResult && negb (stopEarly passResult)
     && negb (hitRuleLimit s)
  then match fuel with
       | O => None
       | S fuel' =>
           match executePass sortedRules s with
           | (Ok passResult', s') => settle fuel' loopUntilSettled sortedRules passResult' s'
           | (Throw e, s') => Some (Throw e, s')
           end
       end
  else Some (Ok passResult, s).
End Pass.

(** [expectationMatches]: [expected] is matched as a sub-document of
    [actual].  A recursion deeper than the number of pairs of cells visits
    some pair twice and never returns: the stack overflows. *)
Fixpoint expectationMatches_rec (fuel : nat) (h : heap) (actual expected : value)
  : outcome bool :=
  match expected with
  | VRef _ =>
      match actual with
      | VRef _ =>
          match fuel with
          | O => Throw RangeError
          | S fuel' =>
              (fix every (keys : list string) : outcome bool :=
                 match keys with
                 | [] => Ok true
                 | key :: rest =>
                     match expectationMatches_rec fuel' h
                             (get_prop h actual key) (get_prop h expected key) with
                     | Ok true => every rest
                     | r => r
                     end
                 end) (map fst (map_to_list (spread_props h expected)))
          end
      | _ => Ok false
      end
  | _ => Ok (strict_eq actual expected)
  end.

Definition expectationMatches (actual expected : value) : M heap bool :=
  fun h => (expectationMatches_rec (S (length h * length h)) h actual expected, h).

Definition initial_state (h : heap) : RunState :=
  {| st_heap := h; priorWrites := ∅; actions := []; traces := [];
     conflictWarnings := []; firings := 0; hitRuleLimit := false |}.

(** [runProgram] up to the constraint report; [testReport] is filled in
    by the caller. *)
Definition runPasses (fuel : nat) (program : Program) (input : value)
    (options : option ExecutionOptions) (h : heap)
  : option (outcome ExecutionResult * heap) :=
  match cloneInput input h with
  | (Throw e, h') => Some (Throw e, h')
  | (Ok state, h1) =>
      let maxRuleFirings := default 1000 (options ≫= opt_maxRuleFirings) in
      let enableActions := default false (options ≫= opt_enableActions) in
      let mode :=
        default (normalizeMode (program_ruleEvaluation program)) (options ≫= opt_mode) in
      let sortedRules := sortRules (program_rules program) in
      let loopUntilSettled := default false (options ≫= opt_loopUntilSettled) in
      match executePass state maxRuleFirings enableActions mode sortedRules
              (initial_state h1) with
      | (Throw e, s) => Some (Throw e, st_heap s)
      | (Ok passResult, s) =>
          match settle state maxRuleFirings enableActions mode fuel loopUntilSettled
                  sortedRules passResult s with
          | None => None
          | Some (Throw e, s') => Some (Throw e, st_heap s')
          | Some (Ok _, s') =>
              let report :=
                evaluateConstraints (program_constraints program) (st_heap s') state in
              Some (Ok {| resultState := state;
                          res_actions := actions s';
                          res_trace := traces s';
                          constraintReport := report;
                          testReport := None;
                          success := negb (hasErrors report || hitRuleLimit s');
                          res_conflictWarnings :=
                            match conflictWarnings s' with
                            | [] => None
                            | ws => Some ws
                            end;
                          ruleFirings := firings s';
                          res_hitRuleLimit := hitRuleLimit s' |},
                    st_heap s')
          end
      end
  end.

Definition enabled_options : ExecutionOptions :=
  {| opt_mode := None; opt_maxRuleFirings := None; opt_enableActions := Some true;
     opt_loopUntilSettled := None; opt_evaluateExamples := None |}.

(** [runExample] calls [runProgram] with [{ enableActions: true }]: no
    test report is requested of that call and its loop is never entered. *)
Definition runExample (program : Program) (example : Example) (h : heap)
  : option (outcome ExampleResult * heap) :=
  match runPasses 0 program (example_input example) (Some enabled_options) h with
  | None => None
  | Some (Throw e, h') => Some (Throw e, h')
  | Some (Ok result, h') =>
      let constraintFailures :=
        filter (fun c => is_error_severity (cr_constraint c) = true)
               (report_failed (constraintReport result)) in
      match expectationMatches (resultState result) (example_expected example) h' with
      | (Throw e, h2) => Some (Throw e, h2)
      | (Ok matches, h2) =>
          Some (Ok {| er_example := example;
                      er_passed := matches && bool_decide (length constraintFailures = 0%nat);
                      er_actualOutput := resultState result;
                      er_constraints := constraintReport result;
                      er_trace := res_trace result |},
                h2)
      end
  end.

(** [program.examples.map((example) => runExample(program, example))]. *)
Fixpoint runExampleList (program : Program) (examples : list Example) (h : heap)
  : option (outcome (list ExampleResult) * heap) :=
  match examples with
  | [] => Some (Ok [], h)
  | example :: rest =>
      match runExample program example h with
      | None => None
      | Some (Throw e, h') => Some (Throw e, h')
      | Some (Ok r, h') =>
          match runExampleList program rest h' with
          | None => None
          | Some (Throw e, h2) => Some (Throw e, h2)
          | Some (Ok rs, h2) => Some (Ok (r :: rs), h2)
          end
      end
  end.

Definition with_testReport (t : option (list ExampleResult)) (r : ExecutionResult)
  : ExecutionResult :=
  {| resultState := resultState r; res_actions := res_actions r;
     res_trace := res_trace r; constraintReport := constraintReport r;
     testReport := t; success := success r;
     res_conflictWarnings := res_conflictWarnings r;
     ruleFirings := ruleFirings r; res_hitRuleLimit := res_hitRuleLimit r |}.

Definition runProgram (fuel : nat) (program : Program) (input : value)
    (options : option ExecutionOptions) (h : heap)
  : option (outcome ExecutionResult * heap) :=
  match runPasses fuel program input options h with
  | None => None
  | Some (Throw e, h') => Some (Throw e, h')
  | Some (Ok result, h') =>
      if default false (options ≫= opt_evaluateExamples) then
        match program_examples program with
        | None => Some (Ok result, h')
        | Some examples =>
            match runExampleList program examples h' with
            | None => None
            | Some (Throw e, h2) => Some (Throw e, h2)
            | Some (Ok rs, h2) => Some (Ok (with_testReport (Some rs) result), h2)
            end
        end
      else Some (Ok result, h')
  end.

Definition runExamples (program : Program) (h : heap)
  : option (outcome (list ExampleResult) * heap) :=
  match program_examples program with
  | None | Some [] => Some (Ok [], h)
  | Some examples => runExampleList program examples h
  end.
End Engine.

(** ** Example coverage ([coverage.ts]) *)

Module Coverage.

Record RuleCoverage := {
  ruleId : string;
  matchedInExamples : Z;
  totalExamples : Z;
  coveragePercent : Z;
}.

(** What [assessRuleCoverage] reads of an entry of [result.firedRules]:
    [trace.matched] and [trace.rule.id]. *)
Record FiredRule := { fired_rule_id : string; fired_matched : bool }.

(** [result.firedRules].  The object literal that [runProgram] returns
    has the members [resultState], [actions], [trace],
    [constraintReport], [testReport], [success], [conflictWarnings],
    [ruleFirings] and [hitRuleLimit]; reading any other member of it
    yields [undefined]. *)
Definition firedRules (result : ExecutionResult) : option (list FiredRule) := None.

(** [Math.round((count / total) * 100)] for [0 < total], in exact
    arithmetic. *)
Definition percent (count total : Z) : Z := (200 * count + total) / (2 * total).

Definition count_matches (counts : gmap string Z) (fired : list FiredRule) : gmap string Z :=
  fold_left
    (fun counts trace =>
       if fired_matched trace
       then <[fired_rule_id trace := default 0 (counts !! fired_rule_id trace) + 1]> counts
       else counts)
    fired counts.

Section Coverage.
Context `{JsHost}.

(** [program.examples.forEach(...)]: calling [forEach] on
    [undefined] is a [TypeError]. *)
Fixpoint replay (program : Program) (examples : list Example)
    (counts : gmap string Z) (h : heap)
  : option (outcome (gmap string Z) * heap) :=
  match examples with
  | [] => Some (Ok counts, h)
  | example :: rest =>
      match runProgram 0 program (example_input example) None h with
      | None => None
      | Some (Throw e, h') => Some (Throw e, h')
      | Some (Ok result, h') =>
          match firedRules result with
          | None => Some (Throw TypeError, h')
          | Some fired => replay program rest (count_matches counts fired) h'
          end
      end
  end.

Definition assessRuleCoverage (program : Program) (h : heap)
  : option (outcome (list RuleCoverage) * heap) :=
  match program_examples program with
  | None | Some [] => Some (Ok [], h)
  | Some examples =>
      let total := Z.of_nat (length examples) in
      let counts0 :=
        fold_left (fun counts rule => <[rule_id rule := 0]> counts)
                  (program_rules program) (∅ : gmap string Z) in
      match replay program examples counts0 h with
      | None => None
      | Some (Throw e, h') => Some (Throw e, h')
      | Some (Ok counts, h') =>
          Some (Ok (map (fun rule =>
                           {| ruleId := rule_id rule;
                              matchedInExamples := default 0 (counts !! rule_id rule);
                              totalExamples := total;
                              coveragePercent :=
                                if total =? 0 then 0
                                else percent (default 0 (counts !! rule_id rule)) total |})
                        (program_rules program)),
                h')
      end
  end.
End Coverage.
End Coverage.

(** ** Equality of documents *)

Fixpoint json_eqb (x y : json) : bool :=
  match x, y with
  | JNull, JNull => true
  | JBool a, JBool b => bool_decide (a = b)
  | JNum a, JNum b => bool_decide (a = b)
  | JStr a, JStr b => bool_decide (a = b)
  | JArr l1, JArr l2 =>
      (fix items_eqb (l1 l2 : list json) : bool :=
         match l1, l2 with
         | [], [] => true
         | a :: l1', b :: l2' => json_eqb a b && items_eqb l1' l2'
         | _, _ => false
         end) l1 l2
  | JObj l1, JObj l2 =>
      (fix fields_eqb (l1 l2 : list (string * json)) : bool :=
         match l1, l2 with
         | [], [] => true
         | (k1, a) :: l1', (k2, b) :: l2' =>
             bool_decide (k1 = k2) && json_eqb a b && fields_eqb l1' l2'
         | _, _ => false
         end) l1 l2
  | _, _ => false
  end.

Lemma json_induction (P : json -> Prop) :
  P JNull -> (forall b, P (JBool b)) -> (forall n, P (JNum n)) -> (forall s, P (JStr s)) ->
  (forall items, Forall P items -> P (JArr items)) ->
  (forall fields, Forall (fun kv => P kv.2) fields -> P (JObj fields)) ->
  forall j, P j.
Proof.
  intros Hnull Hbool Hnum Hstr Harr Hobj.
  fix IH 1. intros [| b | n | s | items | fields].
  - exact Hnull.
  - apply Hbool.
  - apply Hnum.
  - apply Hstr.
  - apply Harr. induction items as [| x items IHitems]; constructor; [apply IH | exact IHitems].
  - apply Hobj. induction fields as [| [k x] fields IHfields]; constructor;
      [apply IH | exact IHfields].
Qed.

Lemma json_eqb_eq (x y : json) : json_eqb x y = true <-> x = y.
Proof.
  revert y. induction x as [| a | a | a | items IH | fields IH] using json_induction;
    intros [| b | b | b | items' | fields']; cbn [json_eqb];
    try (split; [discriminate | discriminate]); try (split; reflexivity).
  - rewrite bool_decide_eq_true. split; congruence.
  - rewrite bool_decide_eq_true. split; congruence.
  - rewrite bool_decide_eq_true. split; congruence.
  - revert items'. induction IH as [| x items Hx _ IHitems]; intros [| x' items'];
      try (split; [discriminate | discriminate]); [split; reflexivity |].
    rewrite andb_true_iff, Hx.
    specialize (IHitems items'). split.
    + intros [-> Hrest]. apply IHitems in Hrest. congruence.
    + intros [= -> ->]. split; [reflexivity |]. apply IHitems. reflexivity.
  - revert fields'. induction IH as [| [k x] fields Hx _ IHfields]; intros [| [k' x'] fields'];
      try (split; [discriminate | discriminate]); [split; reflexivity |].
    rewrite !andb_true_iff, bool_decide_eq_true. cbn in Hx. rewrite Hx.
    specialize (IHfields fields'). split.
    + intros [[-> ->] Hrest]. apply IHfields in Hrest. congruence.
    + intros [= -> -> ->]. split; [split; reflexivity |]. apply IHfields. reflexivity.
Qed.

Global Instance json_eq_dec : EqDecision json.
Proof.
  intros x y. destruct (json_eqb x y) eqn:Heq.
  - left. apply json_eqb_eq. exact Heq.
  - right. intros Hxy. apply json_eqb_eq in Hxy. congruence.
Defined.

(** The double quote of a message. *)
Definition quote : string := String "034"%char EmptyString.

(** ** The type checks of the validator

    The functions of the hand-written validator that check the paths,
    units and types of operands against the declared entities.  The
    [errors] and [warnings] arrays that they push to are the two lists of
    a [Report], passed in and returned.  [Date.parse] belongs to the
    host. *)

Module Typing.

Inductive ScalarType := TString | TNumber | TBoolean | TDate.

Global Instance ScalarType_eq_dec : EqDecision ScalarType.
Proof. solve_decision. Defined.

Record Field := {
  field_name : string;
  field_type : ScalarType;
  field_units : option string;
}.

Record Entity := {
  entity_name : string;
  entity_fields : list Field;
}.

(** The conditions of the first variant of [types.ts]. *)
Inductive Condition :=
| Comparison (lhs : Operand) (operator : Comparator) (rhs : Operand)
| All (conditions : list Condition)
| Any (conditions : list Condition)
| Not (condition : Condition).

Record Report := { errors : list string; warnings : list string }.

Definition push_error (msg : string) (r : Report) : Report :=
  {| errors := errors r ++ [msg]; warnings := warnings r |}.

Definition push_warning (msg : string) (r : Report) : Report :=
  {| errors := errors r; warnings := warnings r ++ [msg] |}.

(** The text of a type in a template literal. *)
Definition type_name (t : ScalarType) : string :=
  match t with
  | TString => "string"
  | TNumber => "number"
  | TBoolean => "boolean"
  | TDate => "date"
  end.

(** The text of a string that may be [undefined] in a template literal. *)
Definition display (o : option string) : string := default "undefined" o.

(** [name === wanted], for a [wanted] that may be [undefined]. *)
Definition name_is (name : string) (wanted : option string) : bool :=
  match wanted with
  | Some w => String.eqb name w
  | None => false
  end.

(** A string that is neither [undefined] nor empty. *)
Definition truthy (o : option string) : option string :=
  match o with
  | Some s => if String.eqb s "" then None else Some s
  | None => None
  end.

Definition unknown_entity (entityName : option string) (path : string) : string :=
  "Unknown entity " +:+ quote +:+ display entityName +:+ quote
    +:+ " in path " +:+ quote +:+ path +:+ quote.

Definition unknown_field (fieldName entityName : option string) (path : string) : string :=
  "Unknown field " +:+ quote +:+ display fieldName +:+ quote
    +:+ " on entity " +:+ quote +:+ display entityName +:+ quote
    +:+ " in path " +:+ quote +:+ path +:+ quote.

(** [const [entityName, fieldName] = path.split('.')] and the two
    [find]s that [checkEntityPath] and [getField] share. *)
Definition checkEntityPath (path : string) (entities : list Entity) : option string :=
  let entityName := split "." path !! 0%nat in
  let fieldName := split "." path !! 1%nat in
  match List.find (fun e => name_is (entity_name e) entityName) entities with
  | None => Some (unknown_entity entityName path)
  | Some entity =>
      match List.find (fun f => name_is (field_name f) fieldName) (entity_fields entity) with
      | None => Some (unknown_field fieldName entityName path)
      | Some _ => None
      end
  end.

(** [{ field, error: null }] or [{ field: null, error }]. *)
Inductive FieldLookup :=
| Found (field : Field)
| NotFound (error : string).

Definition getField (path : string) (entities : list Entity) : FieldLookup :=
  let entityName := split "." path !! 0%nat in
  let fieldName := split "." path !! 1%nat in
  match List.find (fun e => name_is (entity_name e) entityName) entities with
  | None => NotFound (unknown_entity entityName path)
  | Some entity =>
      match List.find (fun f => name_is (field_name f) fieldName) (entity_fields entity) with
      | None => NotFound (unknown_field fieldName entityName path)
      | Some field => Found field
      end
  end.

Definition operand_units (o : Operand) : option string :=
  match o with
  | OFact f => fact_units f
  | OValue v => value_units v
  end.

Definition validateUnits (operand : Operand) (field : Field) (context : string)
    (r : Report) : Report :=
  match truthy (field_units field) with
  | None => r
  | Some expected =>
      match truthy (operand_units operand) with
      | None =>
          push_warning ("Units required for " +:+ context +:+ " (expected " +:+ expected +:+ ").") r
      | Some given =>
          if negb (String.eqb given expected)
          then push_error ("Unit mismatch for " +:+ context +:+ ": expected " +:+ expected
                             +:+ " but got " +:+ given +:+ ".") r
          else r
      end
  end.

Definition inferValueType (value : literal) : ScalarType :=
  match value with
  | LNum _ => TNumber
  | LBool _ => TBoolean
  | _ => TString
  end.

(** [Date.parse]: [None] is [NaN]. *)
Class JsDate := { Date_parse : string -> option Z }.

Section Checks.
Context `{JsDate}.

Definition validateOperandType (operand : Operand) (expected : option ScalarType)
    (context : string) (entities : list Entity) (r : Report)
  : option ScalarType * Report :=
  match operand with
  | OFact f =>
      match getField (fact_path f) entities with
      | NotFound _ => (None, r)
      | Found field => (Some (field_type field), r)
      end
  | OValue v =>
      let inferred := inferValueType (operand_value v) in
      match expected with
      | None => (Some inferred, r)
      | Some expected =>
          match expected, operand_value v with
          | TDate, LStr s =>
              (Some TDate,
               match Date_parse s with
               | None =>
                   push_error ("Expected a date-compatible value for " +:+ context
                                 +:+ " but got " +:+ quote +:+ s +:+ quote
                                 +:+ ".") r
               | Some _ => r
               end)
          | _, _ =>
              if bool_decide (inferred <> expected)
              then (Some inferred,
                    push_error ("Type mismatch for " +:+ context +:+ ": expected "
                                  +:+ type_name expected +:+ " but got " +:+ type_name inferred
                                  +:+ ".") r)
              else (Some inferred, r)
          end
      end
  end.

(** [lhsField] and [rhsField]: [null] for an operand that is no fact. *)
Definition operand_field (operand : Operand) (entities : list Entity) : option FieldLookup :=
  match operand with
  | OFact f => Some (getField (fact_path f) entities)
  | OValue _ => None
  end.

(** [lookup?.field]. *)
Definition found_field (lookup : option FieldLookup) : option Field :=
  match lookup with
  | Some (Found field) => Some field
  | _ => None
  end.

(** [lookup?.error]. *)
Definition found_error (lookup : option FieldLookup) : option string :=
  match lookup with
  | Some (NotFound error) => Some error
  | _ => None
  end.

Definition validateComparisonTypes (lhs rhs : Operand) (entities : list Entity)
    (context : string) (r : Report) : Report :=
  let lhsField := operand_field lhs entities in
  let rhsField := operand_field rhs entities in
  let r := match found_error lhsField with Some e => push_error e r | None => r end in
  let r := match found_error rhsField with Some e => push_error e r | None => r end in
  let r := match found_field lhsField with
           | Some field => validateUnits lhs field (context +:+ ".lhs") r
           | None => r
           end in
  let r := match found_field rhsField with
           | Some field => validateUnits rhs field (context +:+ ".rhs") r
           | None => r
           end in
  let (lhsType, r) :=
    match lhs with
    | OFact _ => (field_type <$> found_field lhsField, r)
    | OValue _ =>
        validateOperandType lhs (field_type <$> found_field rhsField) (context +:+ ".lhs")
          entities r
    end in
  let (rhsType, r) :=
    match rhs with
    | OFact _ => (field_type <$> found_field rhsField, r)
    | OValue _ =>
        validateOperandType rhs (field_type <$> found_field lhsField) (context +:+ ".rhs")
          entities r
    end in
  match lhsType, rhsType with
  | Some a, Some b =>
      if bool_decide (a <> b)
      then push_error ("Type mismatch in " +:+ context +:+ ": " +:+ type_name a
                         +:+ " compared to " +:+ type_name b +:+ ".") r
      else r
  | _, _ => r
  end.

Fixpoint validateConditionTypesRecursive (condition : Condition) (entities : list Entity)
    (context : string) (r : Report) : Report :=
  match condition with
  | Comparison lhs _ rhs => validateComparisonTypes lhs rhs entities context r
  | Not child =>
      validateConditionTypesRecursive child entities (context +:+ ".condition") r
  | All children | Any children =>
      (fix each (l : list Condition) (idx : nat) (r : Report) : Report :=
         match l with
         | [] => r
         | child :: rest =>
             each rest (S idx)
               (validateConditionTypesRecursive child entities
                  (context +:+ ".conditions[" +:+ pretty (Z.of_nat idx) +:+ "]") r)
         end) children 0%nat r
  end.

Definition validateSetAction (target : string) (value : Operand) (entities : list Entity)
    (r : Report) : Report :=
  match getField target entities with
  | NotFound error => push_error error r
  | Found field =>
      let r := validateUnits value field ("action on " +:+ target) r in
      (validateOperandType value (Some (field_type field)) ("action on " +:+ target)
         entities r).2
  end.
End Checks.

End Typing.
(** ** The validator ([validateProgram])

    The hand-written validator is written against the first variant of
    [types.ts]: a rule carries its actions in [actions], an action is a
    [set], an [emit] or a [route], and a condition is a comparison, an
    [all], an [any] or a [not].  A program is modelled as a value of
    that type: a member that the type declares a string is a string, and
    so on.

    The value of a [set] action is kept as the document that
    [JSON.stringify] writes for it, with its members in their order and
    with whatever members the object has beyond those of an operand:
    [detectConflictingSetActions] compares these texts, and two
    documents have the same text exactly when they are equal.  In such a
    document every key occurs once.

    [String.prototype.toLowerCase] belongs to the host. *)

Class JsText := { toLowerCase : string -> string }.

Module Validator.

Inductive Action :=
| ActSet (target : string) (value : json)
| ActEmit (event : string) (payload : option json)
| ActRoute (queue : string) (reason : option string).

Record Rule := {
  rule_id : string;
  rule_name : string;
  rule_description : option string;
  rule_priority : option Z;
  rule_mode : option string;
  rule_when : Typing.Condition;
  rule_actions : list Action;
}.

Record Constraint := {
  constraint_id : string;
  constraint_description : string;
  constraint_assert : Typing.Condition;
  constraint_severity : option Severity;
}.

Record ProgramConfig := { ruleEvaluation : string }.

Record Program := {
  program_domain : string;
  program_entities : list Typing.Entity;
  program_rules : list Rule;
  program_constraints : option (list Constraint);
  program_examples : option (list Example);
  program_config : option ProgramConfig;
}.

Record ValidationResult := {
  valid : bool;
  errors : list string;
  warnings : list string;
}.

(** *** Operands as documents *)

Definition literal_document (l : literal) : json :=
  match l with
  | LNull => JNull
  | LBool b => JBool b
  | LNum n => JNum n
  | LStr s => JStr s
  end.

Definition units_field (units : option string) : list (string * json) :=
  match units with
  | Some u => [("units", JStr u)]
  | None => []
  end.

(** The document of an operand that has its members in the order
    [kind], [path] or [value], [units], and no others. *)
Definition operand_document (o : Operand) : json :=
  match o with
  | OFact f => JObj ([("kind", JStr "fact"); ("path", JStr (fact_path f))]
                       ++ units_field (fact_units f))
  | OValue v => JObj ([("kind", JStr "value"); ("value", literal_document (operand_value v))]
                        ++ units_field (value_units v))
  end.

(** [document.key]; [None] is [undefined]. *)
Definition member (key : string) (document : json) : option json :=
  match document with
  | JObj fields => snd <$> List.find (fun kv => String.eqb kv.1 key) fields
  | _ => None
  end.

(** [typeof] of a member. *)
Definition typeof (v : option json) : string :=
  match v with
  | None => "undefined"
  | Some (JBool _) => "boolean"
  | Some (JNum _) => "number"
  | Some (JStr _) => "string"
  | Some JNull | Some (JArr _) | Some (JObj _) => "object"
  end.

(** The text of a document in a template literal. *)
Fixpoint json_text (j : json) : string :=
  match j with
  | JNull => "null"
  | JBool b => if b then "true" else "false"
  | JNum n => pretty n
  | JStr s => s
  | JArr items =>
      (fix join (l : list json) : string :=
         match l with
         | [] => ""
         | x :: rest =>
             let item := match x with JNull => "" | _ => json_text x end in
             match rest with
             | [] => item
             | _ => item +:+ "," +:+ join rest
             end
         end) items
  | JObj _ => "[object Object]"
  end.

Definition member_text (v : option json) : string :=
  match v with
  | None => "undefined"
  | Some j => json_text j
  end.

Definition literal_of_document (j : json) : option literal :=
  match j with
  | JNull => Some LNull
  | JBool b => Some (LBool b)
  | JNum n => Some (LNum n)
  | JStr s => Some (LStr s)
  | _ => None
  end.

(** The operand that a document holds: its [kind], its [path] or
    [value], and its [units] where they are a string.  [None] when the
    document has not the members of an operand. *)
Definition as_operand (document : json) : option Operand :=
  let units := match member "units" document with
               | Some (JStr u) => Some u
               | _ => None
               end in
  match member "kind" document with
  | Some (JStr kind) =>
      if String.eqb kind "fact" then
        match member "path" document with
        | Some (JStr path) => Some (OFact {| fact_path := path; fact_units := units |})
        | _ => None
        end
      else if String.eqb kind "value" then
        match member "value" document ≫= literal_of_document with
        | Some l => Some (OValue {| operand_value := l; value_units := units |})
        | None => None
        end
      else None
  | _ => None
  end.

(** Whether a member is truthy. *)
Definition truthy_member (v : option json) : bool :=
  match v with
  | None | Some JNull | Some (JBool false) | Some (JNum 0) => false
  | Some (JStr s) => negb (String.eqb s "")
  | Some _ => true
  end.

(** *** The shape checks *)

Definition collectPathsFromCondition : Typing.Condition -> list string :=
  fix collect (condition : Typing.Condition) : list string :=
    match condition with
    | Typing.Comparison lhs _ rhs =>
        (match lhs with OFact f => [fact_path f] | OValue _ => [] end)
        ++ (match rhs with OFact f => [fact_path f] | OValue _ => [] end)
    | Typing.All conditions | Typing.Any conditions => flat_map collect conditions
    | Typing.Not condition => collect condition
    end.

Definition collectPathsFromAction (action : Action) : list string :=
  match action with
  | ActSet target _ => [target]
  | _ => []
  end.

Definition validateOperandShape (operand : json) (context : string) : list string :=
  match operand with
  | JObj _ =>
      match member "kind" operand with
      | Some (JStr kind) =>
          if String.eqb kind "fact" then
            if negb (String.eqb (typeof (member "path" operand)) "string")
            then [context +:+ " fact operand requires a string path."]
            else []
          else if String.eqb kind "value" then
            if negb (bool_decide (typeof (member "value" operand)
                                    ∈ ["string"; "number"; "boolean"]))
            then [context +:+ " value operand must be string, number, or boolean."]
            else []
          else [context +:+ " has unknown operand kind " +:+ quote +:+ kind +:+ quote +:+ "."]
      | kind =>
          [context +:+ " has unknown operand kind " +:+ quote +:+ member_text kind +:+ quote
             +:+ "."]
      end
  | _ => [context +:+ " must be an object operand."]
  end.

(** The text of an operator. *)
Definition operator_text (operator : Comparator) : string :=
  match operator with
  | SymEq => "==" | SymNeq => "!=" | SymGt => ">" | SymGte => ">="
  | SymLt => "<" | SymLte => "<="
  | OpEq => "eq" | OpNeq => "neq" | OpGt => "gt" | OpGte => "gte"
  | OpLt => "lt" | OpLte => "lte" | OpContains => "contains" | OpIn => "in"
  end.

Definition operators : list string :=
  ["eq"; "neq"; "gt"; "gte"; "lt"; "lte"; "contains"; "in"].

Fixpoint validateConditionShape (condition : Typing.Condition) (context : string)
  : list string :=
  match condition with
  | Typing.Comparison lhs operator rhs =>
      (if negb (bool_decide (operator_text operator ∈ operators))
       then [context +:+ " comparison has unknown operator."]
       else [])
      ++ validateOperandShape (operand_document lhs) (context +:+ ".lhs")
      ++ validateOperandShape (operand_document rhs) (context +:+ ".rhs")
  | Typing.All conditions | Typing.Any conditions =>
      match conditions with
      | [] => [context +:+ " must include at least one child condition."]
      | _ =>
          (fix each (l : list Typing.Condition) (idx : nat) : list string :=
             match l with
             | [] => []
             | child :: rest =>
                 validateConditionShape child
                   (context +:+ ".conditions[" +:+ pretty (Z.of_nat idx) +:+ "]")
                 ++ each rest (S idx)
             end) conditions 0%nat
      end
  | Typing.Not child => validateConditionShape child (context +:+ ".condition")
  end.

Definition validateActionShape (action : Action) (context : string) : list string :=
  match action with
  | ActSet _ value => validateOperandShape value (context +:+ ".value")
  | ActEmit _ _ => []
  | ActRoute _ _ => []
  end.

(** [name || idx] in a template literal. *)
Definition name_or_index (name : string) (idx : nat) : string :=
  if String.eqb name "" then pretty (Z.of_nat idx) else name.

(** [array.forEach((x, idx) => errors.push(...))]. *)
Definition each_indexed {A} (f : nat -> A -> list string) (l : list A) : list string :=
  concat (imap f l).

(** [isObject] of a value of the caller. *)
Definition isObject (h : heap) (v : value) : bool :=
  match v with
  | VRef a => match h !! a with Some (CObj _) => true | _ => false end
  | _ => false
  end.

Definition allowedDomains : list string :=
  ["business-rules"; "workflow"; "data-transform"; "game-rules"].

Definition allowedTypes : list string := ["string"; "number"; "boolean"; "date"].

Definition entity_shape (idx : nat) (entity : Typing.Entity) : list string :=
  (if String.eqb (Typing.entity_name entity) ""
   then ["Entity[" +:+ pretty (Z.of_nat idx) +:+ "] is missing a name."]
   else [])
  ++ match Typing.entity_fields entity with
     | [] =>
         ["Entity " +:+ name_or_index (Typing.entity_name entity) idx
            +:+ " must declare at least one field."]
     | fields =>
         each_indexed
           (fun fIdx field =>
              (if String.eqb (Typing.field_name field) ""
               then ["Field[" +:+ pretty (Z.of_nat fIdx) +:+ "] on entity "
                       +:+ Typing.entity_name entity +:+ " is missing a name."]
               else [])
              ++ (if negb (bool_decide (Typing.type_name (Typing.field_type field)
                                          ∈ allowedTypes))
                  then ["Field " +:+ Typing.field_name field +:+ " on entity "
                          +:+ Typing.entity_name entity +:+ " has unknown type "
                          +:+ Typing.type_name (Typing.field_type field) +:+ "."]
                  else []))
           fields
     end.

Definition rule_shape (idx : nat) (rule : Rule) : list string :=
  let label := name_or_index (rule_id rule) idx in
  (if String.eqb (rule_id rule) ""
   then ["Rule[" +:+ pretty (Z.of_nat idx) +:+ "] is missing an id."]
   else [])
  ++ (if String.eqb (rule_name rule) ""
      then ["Rule[" +:+ label +:+ "] is missing a name."]
      else [])
  ++ validateConditionShape (rule_when rule) ("Rule " +:+ label +:+ ".when")
  ++ match rule_actions rule with
     | [] => ["Rule " +:+ label +:+ " must include at least one action."]
     | actions =>
         each_indexed
           (fun actionIdx action =>
              validateActionShape action
                ("Rule " +:+ label +:+ ".actions[" +:+ pretty (Z.of_nat actionIdx) +:+ "]"))
           actions
     end
  ++ match Typing.truthy (rule_mode rule) with
     | Some mode =>
         if negb (bool_decide (mode ∈ ["all"; "first"]))
         then ["Rule " +:+ label +:+ " has invalid mode " +:+ mode +:+ "."]
         else []
     | None => []
     end.

Definition constraint_shape (idx : nat) (constraint : Constraint) : list string :=
  let label := name_or_index (constraint_id constraint) idx in
  (if String.eqb (constraint_id constraint) ""
   then ["Constraint[" +:+ pretty (Z.of_nat idx) +:+ "] is missing an id."]
   else [])
  ++ (if String.eqb (constraint_description constraint) ""
      then ["Constraint " +:+ label +:+ " is missing a description."]
      else [])
  ++ validateConditionShape (constraint_assert constraint)
       ("Constraint " +:+ label +:+ ".assert").

Definition example_shape (h : heap) (idx : nat) (example : Example) : list string :=
  let label := name_or_index (example_id example) idx in
  (if String.eqb (example_id example) ""
   then ["Example[" +:+ pretty (Z.of_nat idx) +:+ "] is missing an id."]
   else [])
  ++ (if negb (isObject h (example_input example))
      then ["Example " +:+ label +:+ " input must be an object."]
      else [])
  ++ (if negb (isObject h (example_expected example))
      then ["Example " +:+ label +:+ " expected must be an object."]
      else []).

Definition validateProgramShape (h : heap) (program : Program) : list string :=
  (if negb (bool_decide (program_domain program ∈ allowedDomains))
   then ["Domain must be one of: business-rules, workflow, data-transform, game-rules."]
   else [])
  ++ match program_entities program with
     | [] => ["Program must define at least one entity."]
     | entities => each_indexed entity_shape entities
     end
  ++ match program_rules program with
     | [] => ["Program must include at least one rule."]
     | rules => each_indexed rule_shape rules
     end
  ++ each_indexed constraint_shape (default [] (program_constraints program))
  ++ each_indexed (example_shape h) (default [] (program_examples program))
  ++ match program_config program with
     | Some config =>
         match Typing.truthy (Some (ruleEvaluation config)) with
         | Some mode =>
             if negb (bool_decide (mode ∈ ["all"; "first"]))
             then ["Config.ruleEvaluation must be either " +:+ quote +:+ "all" +:+ quote
                     +:+ " or " +:+ quote +:+ "first" +:+ quote +:+ "."]
             else []
         | None => []
         end
     | None => []
     end.

(** *** Vague terms *)

Definition bannedTerms : list string := ["recent"; "large"; "soon"; "some"; "few"].

Definition lintText `{JsText} (text : string) : list string :=
  let lower := toLowerCase text in
  map (fun term => "Avoid vague term: " +:+ quote +:+ term +:+ quote +:+ ".")
      (filter (fun term => includes lower term = true) bannedTerms).

(** *** The payloads of examples *)

Section Payloads.
Context `{Typing.JsDate}.

Definition validateExampleValue (value : value) (field : Typing.Field) (context : string)
    (r : Typing.Report) : Typing.Report :=
  match value with
  | VNull | VUndef => Typing.push_error (context +:+ " is missing a value.") r
  | _ =>
      let r :=
        match Typing.field_type field with
        | Typing.TNumber =>
            match value with
            | VNum _ => r
            | _ => Typing.push_error (context +:+ " must be a number.") r
            end
        | Typing.TBoolean =>
            match value with
            | VBool _ => r
            | _ => Typing.push_error (context +:+ " must be a boolean.") r
            end
        | Typing.TString =>
            match value with
            | VStr _ => r
            | _ => Typing.push_error (context +:+ " must be a string.") r
            end
        | Typing.TDate =>
            match value with
            | VStr s =>
                match Typing.Date_parse s with
                | None => Typing.push_error (context +:+ " must be a parseable date string.") r
                | Some _ => r
                end
            | _ => Typing.push_error (context +:+ " must be a date string.") r
            end
        end in
      match Typing.truthy (Typing.field_units field), value with
      | Some units, VNum _ =>
          Typing.push_warning ("Units required for " +:+ context +:+ " (expected " +:+ units
                                 +:+ ").") r
      | _, _ => r
      end
  end.

(** [Object.entries] of an object of the caller, in the order in which
    the property bag lists its keys. *)
Definition entries (h : heap) (v : value) : list (string * value) :=
  match v with
  | VRef a =>
      match h !! a with
      | Some (CObj props) => map_to_list props
      | _ => []
      end
  | _ => []
  end.

Definition validateExamplePayload (h : heap) (payload : value)
    (entities : list Typing.Entity) (context : string) (r : Typing.Report) : Typing.Report :=
  if negb (isObject h payload)
  then Typing.push_error (context +:+ " must be an object keyed by entity name.") r
  else
    fold_left
      (fun r '(entityName, rawEntity) =>
         match List.find (fun e => String.eqb (Typing.entity_name e) entityName) entities with
         | None =>
             Typing.push_error (context +:+ " references unknown entity " +:+ quote
                                  +:+ entityName +:+ quote +:+ ".") r
         | Some entity =>
             if negb (isObject h rawEntity)
             then Typing.push_error (context +:+ "." +:+ entityName
                                       +:+ " must be an object of fields and values.") r
             else
               fold_left
                 (fun r '(fieldName, value) =>
                    match List.find (fun f => String.eqb (Typing.field_name f) fieldName)
                                    (Typing.entity_fields entity) with
                    | None =>
                        Typing.push_error (context +:+ " references unknown field " +:+ quote
                                             +:+ entityName +:+ "." +:+ fieldName +:+ quote
                                             +:+ ".") r
                    | Some field =>
                        validateExampleValue value field
                          (context +:+ "." +:+ entityName +:+ "." +:+ fieldName) r
                    end)
                 (entries h rawEntity) r
         end)
      (entries h payload) r.

(** [validateUnits] on the value of a [set] action: it reads the member
    [units] of the document. *)
Definition validateUnits (operand : json) (field : Typing.Field) (context : string)
    (r : Typing.Report) : Typing.Report :=
  match Typing.truthy (Typing.field_units field) with
  | None => r
  | Some expected =>
      let units := member "units" operand in
      if negb (truthy_member units)
      then Typing.push_warning ("Units required for " +:+ context +:+ " (expected " +:+ expected
                                  +:+ ").") r
      else if negb (bool_decide (units = Some (JStr expected)))
           then Typing.push_error ("Unit mismatch for " +:+ context +:+ ": expected "
                                     +:+ expected +:+ " but got " +:+ member_text units +:+ ".") r
           else r
  end.

(** [validateSetAction].  [validateOperandType] reads the [kind], the
    [path] and the [value] of the value of the action: [validateProgram]
    reaches this check only with values that passed the shape check,
    which have these members. *)
Definition validateSetAction (target : string) (value : json) (entities : list Typing.Entity)
    (r : Typing.Report) : Typing.Report :=
  match Typing.getField target entities with
  | Typing.NotFound error => Typing.push_error error r
  | Typing.Found field =>
      let r := validateUnits value field ("action on " +:+ target) r in
      match as_operand value with
      | Some operand =>
          (Typing.validateOperandType operand (Some (Typing.field_type field))
             ("action on " +:+ target) entities r).2
      | None => r
      end
  end.
End Payloads.

(** *** Conflicting [set] actions *)

Definition setActions (r : Rule) : list (string * json) :=
  omap (fun a => match a with
                 | ActSet target value => Some (target, value)
                 | _ => None
                 end)
       (rule_actions r).

Definition conflict_message (target idA idB : string) : string :=
  "Conflicting set actions on " +:+ quote +:+ target +:+ quote +:+ " between rules "
    +:+ idA +:+ " and " +:+ idB +:+ " with the same priority. "
    +:+ "Adjust priorities or consolidate logic.".

(** The two nested [forEach] over the [set] actions of a pair of
    rules; [valueA !== valueB] compares the texts of the two
    documents. *)
Definition pairConflicts (ruleA ruleB : Rule) : list string :=
  flat_map
    (fun actionA : string * json =>
       flat_map
         (fun actionB : string * json =>
            if negb (String.eqb actionA.1 actionB.1) then []
            else if negb (json_eqb actionA.2 actionB.2)
                 then [conflict_message actionA.1 (rule_id ruleA) (rule_id ruleB)]
                 else [])
         (setActions ruleB))
    (setActions ruleA).

Definition defaultPriority : Z := 0.

Definition effective_priority (r : Rule) : Z := default defaultPriority (rule_priority r).

(** The loops over [i] and [j > i]. *)
Fixpoint conflicts_from (rules : list Rule) : list string :=
  match rules with
  | [] => []
  | ruleA :: rest =>
      flat_map
        (fun ruleB =>
           if negb (effective_priority ruleA =? effective_priority ruleB) then []
           else pairConflicts ruleA ruleB)
        rest
      ++ conflicts_from rest
  end.

Definition detectConflictingSetActions (program : Program) : list string :=
  conflicts_from (program_rules program).

End Validator.

(** *** The program as the engine reads it

    [assessRuleCoverage] hands the program on to [runProgram], which is
    written against the second variant of [types.ts].  It finds the
    actions of a rule in [actions], as the legacy member, and the queue
    of a [route] action in [toQueue], which an action of the first
    variant does not have: a program with such an action has no reading
    here. *)

Fixpoint engine_condition (condition : Typing.Condition) : Condition :=
  match condition with
  | Typing.Comparison lhs operator rhs => CondCompare KComparison lhs operator rhs
  | Typing.All conditions => CondBoolean KAll (map engine_condition conditions)
  | Typing.Any conditions => CondBoolean KAny (map engine_condition conditions)
  | Typing.Not child => CondNot (engine_condition child)
  end.

Definition engine_action (action : Validator.Action) : option Action :=
  match action with
  | Validator.ActSet target value => ActSet target <$> Validator.as_operand value
  | Validator.ActEmit event payload => Some (ActEmit event payload)
  | Validator.ActRoute _ _ => None
  end.

(** A mode that is [undefined] or empty, or one of the four modes. *)
Definition engine_mode (mode : option string) : option (option RuleMode) :=
  match Typing.truthy mode with
  | None => Some None
  | Some m =>
      if String.eqb m "all" then Some (Some ModeAll)
      else if String.eqb m "first" then Some (Some ModeFirst)
      else if String.eqb m "allMatches" then Some (Some ModeAllMatches)
      else if String.eqb m "firstMatch" then Some (Some ModeFirstMatch)
      else None
  end.

Definition engine_rule (rule : Validator.Rule) : option Rule :=
  match engine_mode (Validator.rule_mode rule), traverse engine_action (Validator.rule_actions rule) with
  | Some mode, Some actions =>
      Some {| rule_id := Validator.rule_id rule; rule_name := Validator.rule_name rule;
              rule_priority := Validator.rule_priority rule; rule_mode := mode;
              rule_when := engine_condition (Validator.rule_when rule);
              rule_then := None; rule_else := None; rule_actions := Some actions;
              rule_stopProcessing := None |}
  | _, _ => None
  end.

Definition engine_constraint (constraint : Validator.Constraint) : Constraint :=
  {| constraint_id := Validator.constraint_id constraint;
     constraint_description := Validator.constraint_description constraint;
     constraint_assert := engine_condition (Validator.constraint_assert constraint);
     constraint_severity := Validator.constraint_severity constraint |}.

Definition engine_program (program : Validator.Program) : option Program :=
  match traverse engine_rule (Validator.program_rules program),
        engine_mode (Validator.ruleEvaluation <$> Validator.program_config program) with
  | Some rules, Some mode =>
      Some {| program_rules := rules;
              program_constraints := map engine_constraint <$> Validator.program_constraints program;
              program_examples := Validator.program_examples program;
              program_ruleEvaluation := mode |}
  | _, _ => None
  end.

(** *** [validateProgram] *)

(** [paths.add(p)] on a set that keeps the order of insertion. *)
Definition add_path (paths : list string) (p : string) : list string :=
  if bool_decide (p ∈ paths) then paths else paths ++ [p].

(** [array.forEach((x, idx) => ...)] on a state. *)
Fixpoint for_each {A T} (f : nat -> A -> T -> T) (l : list A) (idx : nat) (s : T) : T :=
  match l with
  | [] => s
  | x :: rest => for_each f rest (S idx) (f idx x s)
  end.

Definition push_errors (msgs : list string) (r : Typing.Report) : Typing.Report :=
  fold_left (fun r msg => Typing.push_error msg r) msgs r.

Definition push_warnings (msgs : list string) (r : Typing.Report) : Typing.Report :=
  fold_left (fun r msg => Typing.push_warning msg r) msgs r.

Section Validate.
Context `{JsHost} `{Typing.JsDate} `{JsText}.

(** The cross-reference of one rule: its paths join [paths], its
    condition and its [set] actions are checked against the entities. *)
Definition cross_rule (entities : list Typing.Entity) (ruleIdx : nat) (rule : Validator.Rule)
    (st : list string * Typing.Report) : list string * Typing.Report :=
  let paths :=
    fold_left add_path (Validator.collectPathsFromCondition (Validator.rule_when rule)) st.1 in
  let paths :=
    fold_left add_path (flat_map Validator.collectPathsFromAction (Validator.rule_actions rule))
      paths in
  let r :=
    Typing.validateConditionTypesRecursive (Validator.rule_when rule) entities
      ("Rule " +:+ Validator.name_or_index (Validator.rule_id rule) ruleIdx +:+ ".when") st.2 in
  let r :=
    fold_left (fun r action => Validator.validateSetAction action.1 action.2 entities r)
      (Validator.setActions rule) r in
  (paths, r).

Definition cross_constraint (entities : list Typing.Entity) (idx : nat)
    (constraint : Validator.Constraint) (st : list string * Typing.Report)
  : list string * Typing.Report :=
  let paths :=
    fold_left add_path
      (Validator.collectPathsFromCondition (Validator.constraint_assert constraint)) st.1 in
  let r :=
    Typing.validateConditionTypesRecursive (Validator.constraint_assert constraint) entities
      ("Constraint " +:+ Validator.name_or_index (Validator.constraint_id constraint) idx
         +:+ ".assert") st.2 in
  (paths, r).

Definition check_paths (entities : list Typing.Entity) (paths : list string)
    (r : Typing.Report) : Typing.Report :=
  fold_left
    (fun r path =>
       match Typing.checkEntityPath path entities with
       | Some message => Typing.push_error message r
       | None => r
       end)
    paths r.

Definition lint_rule (rule : Validator.Rule) (r : Typing.Report) : Typing.Report :=
  let label := fun msg => "Rule " +:+ Validator.rule_id rule +:+ ": " +:+ msg in
  let r := push_warnings (map label (Validator.lintText (Validator.rule_name rule))) r in
  match Typing.truthy (Validator.rule_description rule) with
  | Some description => push_warnings (map label (Validator.lintText description)) r
  | None => r
  end.

Definition lint_constraint (constraint : Validator.Constraint) (r : Typing.Report)
  : Typing.Report :=
  push_warnings
    (map (fun msg => "Constraint " +:+ Validator.constraint_id constraint +:+ ": " +:+ msg)
         (Validator.lintText (Validator.constraint_description constraint)))
    r.

Definition check_example (h : heap) (entities : list Typing.Entity) (idx : nat)
    (example : Example) (r : Typing.Report) : Typing.Report :=
  let label := "Example " +:+ Validator.name_or_index (example_id example) idx in
  let r := Validator.validateExamplePayload h (example_input example) entities
             (label +:+ ".input") r in
  Validator.validateExamplePayload h (example_expected example) entities
    (label +:+ ".expected") r.

(** The checks between the shape checks and the detection of
    conflicts. *)
Definition cross_checks (h : heap) (program : Validator.Program) (r : Typing.Report)
  : Typing.Report :=
  let entities := Validator.program_entities program in
  let st := for_each (cross_rule entities) (Validator.program_rules program) 0%nat ([], r) in
  let st := for_each (cross_constraint entities)
              (default [] (Validator.program_constraints program)) 0%nat st in
  let r := check_paths entities st.1 st.2 in
  let r := fold_left (fun r rule => lint_rule rule r) (Validator.program_rules program) r in
  let r := fold_left (fun r constraint => lint_constraint constraint r)
             (default [] (Validator.program_constraints program)) r in
  for_each (check_example h entities) (default [] (Validator.program_examples program)) 0%nat r.

Definition never_exercised (entry : Coverage.RuleCoverage) : string :=
  "Rule " +:+ Coverage.ruleId entry +:+ " is never exercised by examples ("
    +:+ pretty (Coverage.matchedInExamples entry) +:+ "/"
    +:+ pretty (Coverage.totalExamples entry) +:+ ").".

Definition validation_result (r : Typing.Report) : Validator.ValidationResult :=
  {| Validator.valid := bool_decide (Typing.errors r = []);
     Validator.errors := Typing.errors r;
     Validator.warnings := Typing.warnings r |}.

(** [None] when the program has examples and no reading by the
    engine. *)
Definition validateProgram (program : Validator.Program) (h : heap)
  : option (outcome Validator.ValidationResult * heap) :=
  let r := push_errors (Validator.validateProgramShape h program)
             {| Typing.errors := []; Typing.warnings := [] |} in
  match Typing.errors r with
  | _ :: _ => Some (Ok (validation_result r), h)
  | [] =>
      let r := cross_checks h program r in
      let r := push_errors (Validator.detectConflictingSetActions program) r in
      match Validator.program_examples program with
      | Some (_ :: _) =>
          match engine_program program with
          | None => None
          | Some engine =>
              match Coverage.assessRuleCoverage engine h with
              | None => None
              | Some (Throw e, h') => Some (Throw e, h')
              | Some (Ok coverage, h') =>
                  Some (Ok (validation_result
                              (push_warnings
                                 (map never_exercised
                                      (filter (fun entry =>
                                                 Coverage.matchedInExamples entry = 0)
                                              coverage))
                                 r)),
                        h')
              end
          end
      | _ =>
          Some (Ok (validation_result
                      (Typing.push_warning "No examples provided; cannot assess rule coverage."
                         r)),
                h)
      end
  end.
End Validate.
(** * Concrete inputs and auxiliary notions *)

(** ** A concrete host

    Used to run the engine on concrete inputs: it compiles the patterns
    that are plain words (letters, digits and spaces) to themselves and
    rejects every other pattern, and it compares strings by code units. *)

Definition is_word_char (c : ascii) : bool :=
  let n := Z.of_nat (nat_of_ascii c) in
  ((48 <=? n) && (n <=? 57)) || ((65 <=? n) && (n <=? 90))
  || ((97 <=? n) && (n <=? 122)) || (n =? 32).

Fixpoint is_word (s : string) : bool :=
  match s with
  | EmptyString => true
  | String c s' => is_word_char c && is_word s'
  end.

Definition codeUnitCompare (a b : string) : Z :=
  match OrdersEx.String_as_OT.compare a b with
  | Lt => -1
  | Eq => 0
  | Gt => 1
  end.

Definition wordHost : JsHost :=
  {| RegExp := string;
     RegExp_new := fun pattern _ => if is_word pattern then Some pattern else None;
     RegExp_test := fun regex s => includes s regex;
     localeCompare := codeUnitCompare |}.

Definition fact (path : string) : Operand :=
  OFact {| fact_path := path; fact_units := None |}.
Definition lit (l : literal) : Operand :=
  OValue {| operand_value := l; value_units := None |}.

(** The payload [{ order: { total: 120, vip: false } }] as the caller
    holds it: the inner object at address 0, the payload at address 1. *)
Definition order_heap : heap :=
  [CObj (<["total" := VNum 120]> (<["vip" := VBool false]> ∅));
   CObj (<["order" := VRef 0%nat]> ∅)].
Definition order_input : value := VRef 1%nat.

(** The pattern ["("] does not compile; the fact [order.note] holds
    ["a(b"], which contains it. *)
Definition note_heap : heap :=
  [CObj (<["note" := VStr "a(b"]> ∅); CObj (<["order" := VRef 0%nat]> ∅)].

Definition numeric_operator (op : Comparator) : bool :=
  match op with
  | OpGt | OpGte | OpLt | OpLte | SymGt | SymGte | SymLt | SymLte => true
  | _ => false
  end.

(** ** Sample programs *)

Definition no_options_set : ExecutionOptions :=
  {| opt_mode := None; opt_maxRuleFirings := None; opt_enableActions := None;
     opt_loopUntilSettled := None; opt_evaluateExamples := None |}.

(** [when order.total > 100 then set order.discountPercent = 10]. *)
Definition discount_rule : Rule :=
  {| rule_id := "discount-high-value"; rule_name := "Discount high value orders";
     rule_priority := None; rule_mode := None;
     rule_when := CondCompare KCompare (fact "order.total") SymGt (lit (LNum 100));
     rule_then := Some [ActSet "order.discountPercent" (lit (LNum 10))];
     rule_else := None; rule_actions := None; rule_stopProcessing := None |}.

Definition discount_program : Program :=
  {| program_rules := [discount_rule]; program_constraints := None;
     program_examples := None; program_ruleEvaluation := None |}.

(** [{ enableActions: true, maxRuleFirings: 1 }]. *)
Definition cap_one_options : ExecutionOptions :=
  {| opt_mode := None; opt_maxRuleFirings := Some 1; opt_enableActions := Some true;
     opt_loopUntilSettled := None; opt_evaluateExamples := None |}.

(** The discount program with the order payload as its one example. *)
Definition discount_program_with_example : Program :=
  {| program_rules := [discount_rule]; program_constraints := None;
     program_examples :=
       Some [{| example_id := "e1"; example_input := order_input;
                example_expected := order_input |}];
     program_ruleEvaluation := None |}.

(** A host that parses one date. *)
Definition oneDate : Typing.JsDate :=
  {| Typing.Date_parse := fun s => if String.eqb s "2024-01-01" then Some 1704067200000 else None |}.

(** The entity [order] with a number, a string and a date. *)
Definition order_entity : Typing.Entity :=
  {| Typing.entity_name := "order";
     Typing.entity_fields :=
       [{| Typing.field_name := "total"; Typing.field_type := Typing.TNumber;
           Typing.field_units := None |};
        {| Typing.field_name := "status"; Typing.field_type := Typing.TString;
           Typing.field_units := None |};
        {| Typing.field_name := "placed"; Typing.field_type := Typing.TDate;
           Typing.field_units := None |}] |}.

(** A host that lowers the case of the letters [A] to [Z]. *)
Definition lower_letter (c : ascii) : ascii :=
  let n := nat_of_ascii c in
  if ((65 <=? n) && (n <=? 90))%nat then ascii_of_nat (n + 32) else c.

Fixpoint lower_letters (s : string) : string :=
  match s with
  | EmptyString => EmptyString
  | String c s' => String (lower_letter c) (lower_letters s')
  end.

Definition asciiText : JsText := {| toLowerCase := lower_letters |}.

(** Rules of priority 0 on [order.status], in programs that declare the
    entity [order] and no examples: a rule that sets the status twice
    and one that sets it once, to three different literals. *)
Definition set_status (s : string) : Validator.Action :=
  Validator.ActSet "order.status" (Validator.operand_document (lit (LStr s))).

Definition always : Condition := CondCompare KComparison (lit (LNum 1)) OpEq (lit (LNum 1)).

Definition always_true : Typing.Condition :=
  Typing.Comparison (lit (LNum 1)) OpEq (lit (LNum 1)).

Definition status_rule (id name : string) (priority : option Z)
    (actions : list Validator.Action) : Validator.Rule :=
  {| Validator.rule_id := id; Validator.rule_name := name;
     Validator.rule_description := None; Validator.rule_priority := priority;
     Validator.rule_mode := None; Validator.rule_when := always_true;
     Validator.rule_actions := actions |}.

Definition order_program (rules : list Validator.Rule) : Validator.Program :=
  {| Validator.program_domain := "business-rules";
     Validator.program_entities := [order_entity];
     Validator.program_rules := rules;
     Validator.program_constraints := None;
     Validator.program_examples := None;
     Validator.program_config := None |}.


Definition rule_once : Validator.Rule :=
  status_rule "B" "deny" (Some 0) [set_status "denied"].

Definition rule_approve : Validator.Rule :=
  status_rule "A" "approve" None [set_status "approved"].


Definition approve_deny_program : Validator.Program := order_program [rule_approve; rule_once].

(** The same program with the order payload as its one example. *)
Definition approve_deny_program_with_example : Validator.Program :=
  {| Validator.program_domain := "business-rules";
     Validator.program_entities := [order_entity];
     Validator.program_rules := [rule_approve; rule_once];
     Validator.program_constraints := None;
     Validator.program_examples :=
       Some [{| example_id := "e1"; example_input := order_input;
                example_expected := order_input |}];
     Validator.program_config := None |}.

(** A rule that sets the status to "denied" as [rule_once] does, by an
    operand written with its members in the other order. *)
Definition rule_deny_again : Validator.Rule :=
  status_rule "C" "deny again" None
    [Validator.ActSet "order.status" (JObj [("value", JStr "denied"); ("kind", JStr "value")])].

Definition deny_twice_program : Validator.Program := order_program [rule_once; rule_deny_again].

(** The literal that the value of a [set] action holds. *)
Definition literal_of (document : json) : option literal :=
  match Validator.member "kind" document with
  | Some (JStr kind) =>
      if String.eqb kind "value"
      then Validator.member "value" document ≫= Validator.literal_of_document
      else None
  | _ => None
  end.

(** Whether two rules both contain a [set] action on the same path with
    differing literal values. *)
Definition rules_conflict (ruleA ruleB : Validator.Rule) : Prop :=
  exists target vA vB lA lB,
    (target, vA) ∈ Validator.setActions ruleA /\
    (target, vB) ∈ Validator.setActions ruleB /\
    literal_of vA = Some lA /\ literal_of vB = Some lB /\ lA <> lB.

(** The pairs of [set] actions, one of each rule, that write the same
    path with values of different documents. *)
Definition conflicting_actions (ruleA ruleB : Validator.Rule)
  : list ((string * json) * (string * json)) :=
  filter (fun p => p.1.1 = p.2.1 /\ p.1.2 <> p.2.2)
         (list_prod (Validator.setActions ruleA) (Validator.setActions ruleB)).

(** The errors that [detectConflictingSetActions] owes to a pair of
    rules of one priority: one for each pair of conflicting actions. *)
Definition pair_messages (ruleA ruleB : Validator.Rule) : list string :=
  map (fun p : (string * json) * (string * json) =>
         Validator.conflict_message p.1.1 (Validator.rule_id ruleA) (Validator.rule_id ruleB))
      (conflicting_actions ruleA ruleB).

(** The pairs of an element of a list and a later one, by the position
    of the first and then of the second. *)
Fixpoint ordered_pairs {A} (l : list A) : list (A * A) :=
  match l with
  | [] => []
  | a :: rest => map (pair a) rest ++ ordered_pairs rest
  end.




(** A rule that never matches and routes in its [else] branch, run with
    [{ enableActions: true, loopUntilSettled: true }] on the payload
    [{}], held by the caller at address 0. *)
Definition never : Condition := CondCompare KCompare (lit (LNum 1)) OpEq (lit (LNum 2)).

Definition fallback_rule : Rule :=
  {| rule_id := "fallback"; rule_name := "Route everything else";
     rule_priority := None; rule_mode := None;
     rule_when := never;
     rule_then := None;
     rule_else := Some [ActRoute "review" None];
     rule_actions := None; rule_stopProcessing := None |}.

Definition fallback_program : Program :=
  {| program_rules := [fallback_rule]; program_constraints := None;
     program_examples := None; program_ruleEvaluation := None |}.

Definition settle_options : ExecutionOptions :=
  {| opt_mode := None; opt_maxRuleFirings := None; opt_enableActions := Some true;
     opt_loopUntilSettled := Some true; opt_evaluateExamples := None |}.

Definition empty_heap : heap := [CObj ∅].
Definition empty_input : value := VRef 0%nat.

(** What every pass of the fallback program leaves behind: no firing, the
    cap not reached, and the fact store still an object. *)
Definition fallback_invariant (s : RunState) : Prop :=
  firings s = 0 /\ hitRuleLimit s = false /\
  exists props, st_heap s !! 1%nat = Some (CObj props).

(** ** Invariants of computations *)

(** [m] keeps the invariant [I] of the state, whether it returns or
    throws, and what it returns satisfies [Q]. *)
Definition preserves {S A} (I : S -> Prop) (m : M S A) (Q : A -> Prop) : Prop :=
  forall s o s', I s -> m s = (o, s') -> I s' /\ forall a, o = Ok a -> Q a.


(** ** Objects that belong to one execution

    Relative to the heap [base] of the caller, a value is [fresh] when it
    is not a reference into [base], and a heap is [separated] when it
    extends [base] and the cells it adds hold fresh values only. *)

Definition fresh (n0 : nat) (v : value) : Prop :=
  match v with
  | VRef a => (n0 <= a)%nat
  | _ => True
  end.

Definition cell_fresh (n0 : nat) (c : cell) : Prop :=
  match c with
  | CObj props => map_Forall (fun _ v => fresh n0 v) props
  | CArr elems props => Forall (fresh n0) elems /\ map_Forall (fun _ v => fresh n0 v) props
  end.

Definition separated (base : heap) (h : heap) : Prop :=
  base `prefix_of` h /\
  forall a c, h !! a = Some c -> (length base <= a)%nat -> cell_fresh (length base) c.

Definition state_separated (base : heap) (s : RunState) : Prop :=
  separated base (st_heap s).

(** ** Dry runs *)



(** ** The order of rules *)

Definition effective_priority (r : Rule) : Z := default 0 (rule_priority r).

(** [a] is to be evaluated no later than [b]: it has the higher priority,
    or the same priority and an id that does not come after that of [b]. *)
Definition rule_before `{JsHost} (a b : Rule) : Prop :=
  effective_priority b < effective_priority a \/
  (effective_priority a = effective_priority b /\ localeCompare (rule_id a) (rule_id b) <= 0).

(** [t] is a trace of the evaluation of [rule]. *)
Definition trace_of_rule (t : RuleTrace) (rule : Rule) : Prop :=
  rt_ruleId t = rule_id rule /\ rt_ruleName t = rule_name rule /\
  rt_priority t = rule_priority rule.

(** Three rules given out of order: priority 1, priority 5, and a second
    rule of priority 5 with a smaller id. *)
Definition plain_rule (id : string) (priority : option Z) : Rule :=
  {| rule_id := id; rule_name := id; rule_priority := priority; rule_mode := None;
     rule_when := always; rule_then := Some []; rule_else := None;
     rule_actions := None; rule_stopProcessing := None |}.

Definition three_rules_program : Program :=
  {| program_rules := [plain_rule "low" (Some 1); plain_rule "urgent-b" (Some 5);
                       plain_rule "urgent-a" (Some 5)];
     program_constraints := None; program_examples := None;
     program_ruleEvaluation := Some ModeAllMatches |}.

(** * Further notions, for the properties of the rest of the code *)

(** The rules of [three_rules_program] in the order of evaluation. *)
Definition three_rules_sorted : list Rule :=
  [plain_rule "urgent-a" (Some 5); plain_rule "urgent-b" (Some 5); plain_rule "low" (Some 1)].

(** Two constraints on the order payload ([order.total] is 120): one of
    severity error that holds, one of severity warn that fails. *)
Definition total_positive : Constraint :=
  {| constraint_id := "total-positive"; constraint_description := "The total is positive";
     constraint_assert := CondCompare KCompare (fact "order.total") SymGt (lit (LNum 0));
     constraint_severity := None |}.

Definition total_small : Constraint :=
  {| constraint_id := "total-small"; constraint_description := "The total is below 100";
     constraint_assert := CondCompare KCompare (fact "order.total") SymLt (lit (LNum 100));
     constraint_severity := Some SevWarn |}.

(** The rules that share the sort key of [r]: its effective priority and
    its id. *)
Definition same_key (r x : Rule) : Prop :=
  effective_priority x = effective_priority r /\ rule_id x = rule_id r.

(** ** The scheduler *)

(** The mode in force for one rule: its own, when it has one, else the
    mode of the execution. *)
Definition rule_mode_of (mode : EvaluationMode) (rule : Rule) : EvaluationMode :=
  match rule_mode rule with
  | Some m => normalizeMode (Some m)
  | None => mode
  end.

(** Whether a match of [rule] ends the pass. *)
Definition stops_pass (mode : EvaluationMode) (rule : Rule) : bool :=
  is_firstMatch (rule_mode_of mode rule) || default false (rule_stopProcessing rule).

(** The mode of an execution: the option, else the configuration of the
    program. *)
Definition execution_mode (program : Program) (options : option ExecutionOptions)
  : EvaluationMode :=
  default (normalizeMode (program_ruleEvaluation program)) (options ≫= opt_mode).

Definition execution_cap (options : option ExecutionOptions) : Z :=
  default 1000 (options ≫= opt_maxRuleFirings).

(** The actions [executePass] applies for a rule. *)
Definition actions_of (rule : Rule) (matched : bool) : list Action :=
  if matched then default (default [] (rule_actions rule)) (rule_then rule)
  else default [] (rule_else rule).

(** The number of traces of rules that matched. *)
Definition matched_count (l : list RuleTrace) : Z :=
  Z.of_nat (length (filter (fun t => rt_evaluatedWhen t = true) l)).

(** What holds of the counters between two rules of a pass that goes on,
    and at the end of a pass. *)
Definition counting (cap : Z) (s : RunState) : Prop :=
  firings s = matched_count (traces s) /\ hitRuleLimit s = false /\
  (traces s = [] \/ firings s < cap).

Definition counted (cap : Z) (s : RunState) : Prop :=
  firings s = matched_count (traces s) /\
  (hitRuleLimit s = true -> cap <= firings s) /\
  (hitRuleLimit s = false -> traces s = [] \/ firings s < cap) /\
  0 <= firings s <= Z.max 1 cap.

(** Only the last trace of [l] may be that of a rule that matched. *)
Definition matched_last_only (l : list RuleTrace) : Prop :=
  forall i t, l !! i = Some t -> rt_evaluatedWhen t = true -> S i = length l.

(** The discount rule followed by a second rule that matches the order
    payload as well. *)
Definition vip_rule : Rule :=
  {| rule_id := "flag-large"; rule_name := "Flag orders above 50";
     rule_priority := None; rule_mode := None;
     rule_when := CondCompare KCompare (fact "order.total") SymGt (lit (LNum 50));
     rule_then := Some [ActSet "order.flagged" (lit (LBool true))];
     rule_else := None; rule_actions := None; rule_stopProcessing := None |}.

Definition two_rules_program : Program :=
  {| program_rules := [discount_rule; vip_rule]; program_constraints := None;
     program_examples := None; program_ruleEvaluation := None |}.

Definition first_match_options : ExecutionOptions :=
  {| opt_mode := Some FirstMatch; opt_maxRuleFirings := None; opt_enableActions := Some true;
     opt_loopUntilSettled := Some true; opt_evaluateExamples := None |}.

Definition all_matches_options : ExecutionOptions :=
  {| opt_mode := Some AllMatches; opt_maxRuleFirings := None; opt_enableActions := Some true;
     opt_loopUntilSettled := None; opt_evaluateExamples := None |}.

(** ** The action log and the conflict map *)

(** The path an action writes, under which [applyAction] looks the
    conflict map up and records the write; [emit] writes none. *)
Definition write_path (a : Action) : option string :=
  match a with
  | ActSet target _ | ActIncrement target _ | ActAppend target _ => Some target
  | ActRoute _ _ => Some "route"
  | ActEmit _ _ => None
  end.

(** The entry [l] of the action log is that of the action traced by [a]. *)
Definition logs (l : NormalizedActionLog) (a : ActionTrace) : Prop :=
  log_actionId l = at_actionId a /\ log_ruleId l = at_ruleId a /\
  log_kind l = action_kind (at_action a) /\
  log_path l = match at_action a with ActEmit event _ => Some event | _ => at_path a end /\
  log_before l = at_beforeValue a /\ log_after l = at_afterValue a.

(** The action traces of a run, in the order the actions were taken. *)
Definition all_actions (l : list RuleTrace) : list ActionTrace :=
  flat_map rt_actionsApplied l.

(** [b] is the trace of an action that was applied and wrote [p]. *)
Definition wrote (p : string) (b : ActionTrace) : Prop :=
  at_applied b = true /\ write_path (at_action b) = Some p.

Global Instance wrote_dec p b : Decision (wrote p b).
Proof. unfold wrote. apply _. Defined.

(** The conflict flag of [a] tells whether one of the [earlier] actions
    wrote the path of [a]; an [emit] has no flag. *)
Definition flags_conflict (earlier : list ActionTrace) (a : ActionTrace) : Prop :=
  match write_path (at_action a) with
  | Some p => at_conflict a = Some (bool_decide (Exists (wrote p) earlier))
  | None => at_conflict a = None
  end.

(** The id of the action at position [j] of a rule that starts with
    [logged] entries in the action log. *)
Definition act_id (enableActions : bool) (logged j : nat) : string :=
  "act-" +:+ pretty (Z.of_nat logged + Z.of_nat j + (if enableActions then Z.of_nat j else 0) + 1).

(** The action traced by [a] was carried out, not only evaluated. *)
Definition applied (a : ActionTrace) : Prop := at_applied a = true.

Global Instance applied_dec a : Decision (applied a).
Proof. unfold applied. apply _. Defined.

(** What holds of the log, the warnings and the conflict map between
    two rules of a run with [enableActions = e]. *)
Definition logged (e : bool) (s : RunState) : Prop :=
  Forall2 logs (actions s) (filter applied (all_actions (traces s))) /\
  conflictWarnings s = flat_map (fun t => default [] (rt_warnings t)) (traces s) /\
  (forall p, is_Some (priorWrites s !! p) <-> Exists (wrote p) (all_actions (traces s))) /\
  (forall k a, all_actions (traces s) !! k = Some a ->
     flags_conflict (take k (all_actions (traces s))) a) /\
  (forall i t j a, traces s !! i = Some t -> rt_actionsApplied t !! j = Some a ->
     at_ruleId a = rt_ruleId t /\ at_applied a = e /\
     at_actionId a = act_id e (length (filter applied (all_actions (take i (traces s))))) j) /\
  Forall (fun t => rt_warnings t <> Some []) (traces s).

(** Two rules that match the order payload and set [order.status], each
    followed by a second action. *)
Definition hold_rule : Rule :=
  {| rule_id := "hold"; rule_name := "Hold large orders";
     rule_priority := Some 2; rule_mode := None;
     rule_when := CondCompare KCompare (fact "order.total") SymGt (lit (LNum 100));
     rule_then := Some [ActSet "order.status" (lit (LStr "held")); ActEmit "held" None];
     rule_else := None; rule_actions := None; rule_stopProcessing := None |}.

Definition release_rule : Rule :=
  {| rule_id := "release"; rule_name := "Release paid orders";
     rule_priority := Some 1; rule_mode := None;
     rule_when := CondCompare KCompare (fact "order.total") SymGt (lit (LNum 50));
     rule_then := Some [ActSet "order.status" (lit (LStr "released"));
                        ActIncrement "order.checks" 1];
     rule_else := None; rule_actions := None; rule_stopProcessing := None |}.

Definition status_program : Program :=
  {| program_rules := [hold_rule; release_rule]; program_constraints := None;
     program_examples := None; program_ruleEvaluation := None |}.

(** ** Paths *)

(** [setPathValue] and [getPathValue] once the path is split into keys. *)
Definition setKeys (obj : value) (keys : list string) (x : value) : M heap (value * value) :=
  let* (current, lastKey) := descend obj keys in
  let* previous := read_prop current lastKey in
  write_prop current lastKey x;;;
  ret (previous, x).

Definition getKeys (h : heap) (obj : value) (keys : list string) : value :=
  fold_left
    (fun acc key =>
       match acc with
       | VUndef | VNull => VUndef
       | _ => get_prop h acc key
       end)
    keys obj.

Definition is_primitive (v : value) : bool :=
  match v with VRef _ => false | _ => true end.

(** The approve and deny rules at different priorities. *)
Definition rule_deny_first : Validator.Rule :=
  status_rule "B" "deny" (Some 1) [set_status "denied"].

Definition ranked_program : Validator.Program := order_program [rule_approve; rule_deny_first].

(** ** State diffs *)

(** The action traced by [a] was applied and is one for which
    [applyAction] records a state diff: an increment, an append or a
    route, or a set that wrote a value other than the one it found. *)
Definition records_diff (a : ActionTrace) : Prop :=
  at_applied a = true /\
  match at_action a with
  | ActSet _ _ => at_beforeValue a <> at_afterValue a
  | ActEmit _ _ => False
  | _ => True
  end.

Global Instance records_diff_dec a : Decision (records_diff a).
Proof. unfold records_diff. destruct (at_action a); apply _. Defined.

(** The state diff [d] is that of the action traced by [a]: the same
    path and value written and, but for an increment, the same value
    before. *)
Definition diff_of (d : StateDiff) (a : ActionTrace) : Prop :=
  Some (diff_path d) = at_path a /\ Some (diff_after d) = at_afterValue a /\
  match at_action a with
  | ActIncrement _ _ => True
  | _ => Some (diff_before d) = at_beforeValue a
  end.

(** ** Reports of the type checks *)

Definition no_report : Typing.Report := {| Typing.errors := []; Typing.warnings := [] |}.

(** The messages of [r2] follow those of [r1]. *)
Definition report_app (r1 r2 : Typing.Report) : Typing.Report :=
  {| Typing.errors := Typing.errors r1 ++ Typing.errors r2;
     Typing.warnings := Typing.warnings r1 ++ Typing.warnings r2 |}.

(** ** Well-formed heaps *)



(** ** Further sample programs and notions of a run *)

(** An error constraint that the discount rule breaks: it holds of the
    order payload as given and fails once the discount is set. *)
Definition discount_withheld : Constraint :=
  {| constraint_id := "discount-withheld"; constraint_description := "No discount of 10 is granted";
     constraint_assert :=
       CondNot (CondCompare KCompare (fact "order.discountPercent") SymEq (lit (LNum 10)));
     constraint_severity := None |}.

Definition guarded_discount_program : Program :=
  {| program_rules := [discount_rule]; program_constraints := Some [discount_withheld];
     program_examples := None; program_ruleEvaluation := None |}.


(** The runs behind the results of [runExamples]: one call of
    [runProgram] with [{ enableActions: true }] for each example, on the
    store the call before it left, each followed by the comparison of
    its final state with the expected document. *)
Inductive example_runs `{JsHost} (program : Program)
  : heap -> list Example -> list (ExecutionResult * bool) -> heap -> Prop :=
| example_runs_nil (h : heap) : example_runs program h [] [] h
| example_runs_cons (h h1 h2 h' : heap) (example : Example) (rest : list Example)
    (result : ExecutionResult) (matches : bool) (runs : list (ExecutionResult * bool)) :
    runProgram 0 program (example_input example) (Some enabled_options) h
      = Some (Ok result, h1) ->
    expectationMatches (resultState result) (example_expected example) h1 = (Ok matches, h2) ->
    example_runs program h2 rest runs h' ->
    example_runs program h (example :: rest) ((result, matches) :: runs) h'.

(** The result [runExample] builds from a run. *)
Definition reports (run : ExecutionResult * bool) (r : ExampleResult) : Prop :=
  er_passed r = snd run && negb (hasErrors (constraintReport (fst run))) /\
  er_actualOutput r = resultState (fst run) /\
  er_constraints r = constraintReport (fst run) /\
  er_trace r = res_trace (fst run).

(** A thousand rules that always match, and one example. *)
Definition crowded_program : Program :=
  {| program_rules := replicate 1000 (plain_rule "r" None); program_constraints := None;
     program_examples :=
       Some [{| example_id := "e1"; example_input := order_input;
                example_expected := order_input |}];
     program_ruleEvaluation := None |}.
(** * Properties *)

(** ** Condition evaluation *)

Section ConditionProperties.
Context `{JsHost}.

Lemma evaluateComparison_numeric h lhs op rhs :
  numeric_operator op = true ->
  evaluateComparison h lhs op rhs = true ->
  is_number lhs = true /\ is_number rhs = true.
Proof.
  destruct op; simpl; try discriminate; intros _ Hc;
    apply andb_prop in Hc as [Hc _]; apply andb_prop in Hc; exact Hc.
Qed.

(** C5.  In a Compare condition, an operand that resolves to
    [undefined] makes the result false, and so does, under a numeric
    operator, an operand that is not a number; the evaluation returns
    its trace in every case. *)
Theorem compare_missing_or_not_number
    (h : heap) (data : value) (kind : CompareKind)
    (lhs rhs : Operand) (op : Comparator) :
  evaluateOperand h data lhs = VUndef \/
  evaluateOperand h data rhs = VUndef \/
  (numeric_operator op = true /\
   (is_number (evaluateOperand h data lhs) && is_number (evaluateOperand h data rhs)) = false) ->
  evaluateCondition h (CondCompare kind lhs op rhs) data =
    CTrace (CondCompare kind lhs op rhs) false
           (Some (DetailsCompare (evaluateOperand h data lhs) (evaluateOperand h data rhs) op))
           None.
Proof.
  intros Hcase. cbn [evaluateCondition]. f_equal.
  destruct Hcase as [Hl | [Hr | [Hop Hnum]]].
  - rewrite Hl. reflexivity.
  - rewrite Hr. rewrite andb_false_r. reflexivity.
  - destruct (negb _ && negb _); [| reflexivity].
    destruct (evaluateComparison h _ op _) eqn:Hc; [| reflexivity].
    apply evaluateComparison_numeric in Hc as [Hl Hr]; [| exact Hop].
    rewrite Hl, Hr in Hnum. discriminate.
Qed.

(** C7.  When the pattern of a Matches condition does not compile, the
    evaluation still returns a trace: its result is the containment of
    the pattern in the resolved string (false for a value that is not a
    string), and it records the value and the pattern only. *)
Theorem matches_falls_back_to_containment
    (h : heap) (data : value) (operand : Operand) (pattern : string)
    (caseInsensitive : option bool) :
  RegExp_new pattern (if default false caseInsensitive then Some "i" else None) = None ->
  evaluateCondition h (CondMatches operand pattern caseInsensitive) data =
    CTrace (CondMatches operand pattern caseInsensitive)
           (match evaluateOperand h data operand with
            | VStr s => includes s pattern
            | _ => false
            end)
           (Some (DetailsMatches (evaluateOperand h data operand) pattern))
           None.
Proof.
  intros Hfail. cbn [evaluateCondition]. f_equal.
  unfold evaluateMatches.
  destruct (evaluateOperand h data operand); try reflexivity.
  rewrite Hfail. reflexivity.
Qed.
End ConditionProperties.

(** [order.missing > 100] on the order payload: the left operand is
    missing. *)
Lemma compare_missing_or_not_number_witness :
  evaluateCondition (H := wordHost) order_heap
    (CondCompare KCompare (fact "order.missing") SymGt (lit (LNum 100))) order_input =
  CTrace (CondCompare KCompare (fact "order.missing") SymGt (lit (LNum 100))) false
         (Some (DetailsCompare VUndef (VNum 100) SymGt)) None.
Proof.
  apply (compare_missing_or_not_number (H := wordHost) order_heap order_input KCompare
           (fact "order.missing") (lit (LNum 100)) SymGt).
  left. vm_compute. reflexivity.
Defined.

Lemma matches_falls_back_to_containment_witness :
  evaluateCondition (H := wordHost) note_heap
    (CondMatches (fact "order.note") "(" None) (VRef 1%nat) =
  CTrace (CondMatches (fact "order.note") "(" None) true
         (Some (DetailsMatches (VStr "a(b") "(")) None.
Proof.
  apply (matches_falls_back_to_containment (H := wordHost) note_heap (VRef 1%nat)
           (fact "order.note") "(" None).
  vm_compute. reflexivity.
Defined.

(** ** The success flag *)

Section SuccessFlag.
Context `{JsHost}.

Lemma hasErrors_iff (constraints : option (list Constraint)) (h : heap) (data : value) :
  hasErrors (evaluateConstraints constraints h data) = true <->
  exists c, c ∈ default [] constraints /\ is_error_severity c = true /\
            ct_result (evaluateCondition h (constraint_assert c) data) = false.
Proof.
  destruct constraints as [cs |]; cbn.
  - rewrite bool_decide_eq_true. split.
    + intros Hpos.
      destruct (filter _ (filter _ _)) as [| e l] eqn:Hf; [cbn in Hpos; lia |].
      assert (He : e ∈ e :: l) by (left).
      rewrite <- Hf in He.
      apply list_elem_of_filter in He as [Hsev He].
      apply list_elem_of_filter in He as [Hres He].
      apply list_elem_of_fmap in He as [c [-> Hc]].
      exists c. cbn in *. auto.
    + intros (c & Hc & Hsev & Hres).
      match goal with |- 0 < Z.of_nat (length ?l) => assert (Hin : exists e, e ∈ l) end.
      { eexists. apply list_elem_of_filter. split; [| apply list_elem_of_filter; split;
          [| apply list_elem_of_fmap; exists c; split; [reflexivity | exact Hc]]]; cbn; assumption. }
      destruct Hin as [e He].
      destruct (filter _ (filter _ _)); [inversion He | cbn; lia].
  - split; [discriminate |]. intros (c & Hc & _). inversion Hc.
Qed.

Lemma runPasses_report fuel program input options h r h' :
  runPasses fuel program input options h = Some (Ok r, h') ->
  constraintReport r = evaluateConstraints (program_constraints program) h' (resultState r) /\
  success r = negb (hasErrors (constraintReport r) || res_hitRuleLimit r) /\
  testReport r = None.
Proof.
  unfold runPasses. intros Hrun.
  destruct (cloneInput input h) as [[state | e] h1]; [| discriminate].
  destruct (executePass _ _ _ _ _ _) as [[pr | e] s]; [| discriminate].
  destruct (settle _ _ _ _ _ _ _ _ _) as [[[pr' | e] s'] |]; try discriminate.
  injection Hrun as <- <-. cbn. auto.
Qed.

End SuccessFlag.

(** C2 (as stated, refuted).  The discount rule on the order payload with
    a cap of one firing: the only rule fires, no constraint fails, and the
    result is unsuccessful. *)
Lemma success_false_without_failed_constraint :
  exists r h',
    runProgram (H := wordHost) 0 discount_program order_input (Some cap_one_options) order_heap
      = Some (Ok r, h') /\
    report_failed (constraintReport r) = [] /\
    hasErrors (constraintReport r) = false /\
    res_hitRuleLimit r = true /\
    success r = false.
Proof.
  eexists. eexists. split; [vm_compute; reflexivity |].
  repeat split; reflexivity.
Qed.

(** ** Coverage *)

Section CoverageProperties.
Context `{JsHost}.

(** Without [loopUntilSettled] the loop of [runProgram] is not entered:
    no fuel is needed. *)
Lemma runPasses_single_pass fuel program input options h :
  default false (options ≫= opt_loopUntilSettled) = false ->
  is_Some (runPasses fuel program input options h).
Proof.
  intros Hloop. unfold runPasses.
  destruct (cloneInput input h) as [[state | e] h1]; [| eauto].
  destruct (executePass _ _ _ _ _ _) as [[pr | e] s]; [| eauto].
  rewrite Hloop. destruct fuel; cbn; eauto.
Qed.

Lemma runProgram_no_options fuel program input h :
  exists o h', runProgram fuel program input None h = Some (o, h').
Proof.
  unfold runProgram.
  destruct (runPasses_single_pass fuel program input None h eq_refl) as [[o h'] Hp].
  rewrite Hp. destruct o; cbn; eauto.
Qed.

Lemma replay_raises program examples example counts h :
  exists e h', Coverage.replay program (example :: examples) counts h = Some (Throw e, h').
Proof.
  cbn [Coverage.replay].
  destruct (runProgram_no_options 0 program (example_input example) h) as (o & h' & ->).
  destruct o; cbn; eauto.
Qed.

(** C3 (the code at fault).  For a program that declares at least one
    example, [assessRuleCoverage] raises instead of returning the coverage
    records: the result of [runProgram] has no [firedRules]. *)
Theorem assessRuleCoverage_raises
    (program : Program) (example : Example) (examples : list Example) (h : heap) :
  program_examples program = Some (example :: examples) ->
  exists e h', Coverage.assessRuleCoverage program h = Some (Throw e, h').
Proof.
  intros Hex. unfold Coverage.assessRuleCoverage. rewrite Hex.
  match goal with |- context [Coverage.replay program _ ?c h] =>
    destruct (replay_raises program examples example c h) as (e & h' & ->) end.
  eauto.
Qed.
End CoverageProperties.

(** The discount program with the order payload as its example: the
    replay of the example ends in a [TypeError]. *)
Lemma assessRuleCoverage_raises_witness :
  exists e h',
    Coverage.assessRuleCoverage (H := wordHost) discount_program_with_example order_heap
      = Some (Throw e, h').
Proof.
  apply (assessRuleCoverage_raises (H := wordHost) discount_program_with_example
           {| example_id := "e1"; example_input := order_input;
              example_expected := order_input |} [] order_heap).
  reflexivity.
Defined.

Lemma assessRuleCoverage_on_discount_example :
  exists h',
    Coverage.assessRuleCoverage (H := wordHost) discount_program_with_example order_heap
      = Some (Throw TypeError, h').
Proof. eexists. vm_compute. reflexivity. Qed.

(** ** Static conflicts *)

Lemma json_eqb_operand_document (a b : Operand) :
  json_eqb (Validator.operand_document a) (Validator.operand_document b) = bool_decide (a = b).
Proof.
  destruct a as [[pa ua] | [la ua]], b as [[pb ub] | [lb ub]]; cbn.
  - destruct ua as [ua |], ub as [ub |]; cbn;
      repeat case_bool_decide; cbn; try reflexivity; congruence.
  - symmetry. apply bool_decide_eq_false. discriminate.
  - symmetry. apply bool_decide_eq_false. discriminate.
  - destruct la, lb, ua as [ua |], ub as [ub |]; cbn;
      repeat case_bool_decide; cbn; try reflexivity; congruence.
Qed.

Lemma json_eqb_neq (x y : json) : json_eqb x y = false <-> x <> y.
Proof.
  rewrite <- json_eqb_eq. destruct (json_eqb x y); split; congruence.
Qed.

Lemma pairConflicts_unfold (ruleA ruleB : Validator.Rule) :
  Validator.pairConflicts ruleA ruleB = pair_messages ruleA ruleB.
Proof.
  unfold Validator.pairConflicts, pair_messages, conflicting_actions.
  induction (Validator.setActions ruleA) as [| a l IH]; [reflexivity |].
  cbn [flat_map list_prod]. rewrite filter_app, map_app, IH. f_equal.
  clear IH. induction (Validator.setActions ruleB) as [| b l' IH']; [reflexivity |].
  cbn [flat_map map]. rewrite filter_cons. rewrite IH'.
  destruct (String.eqb a.1 b.1) eqn:Heq; cbn [negb].
  - apply String.eqb_eq in Heq.
    destruct (json_eqb a.2 b.2) eqn:Hv; cbn [negb]; case_decide as Hd; cbn in Hd |- *;
      try reflexivity; exfalso.
    + apply json_eqb_eq in Hv. tauto.
    + apply json_eqb_neq in Hv. tauto.
  - apply String.eqb_neq in Heq.
    case_decide as Hd; cbn in Hd |- *; [exfalso; tauto | reflexivity].
Qed.






Lemma ordered_pairs_elem {A} (l : list A) (a b : A) :
  (a, b) ∈ ordered_pairs l ->
  exists i j, l !! i = Some a /\ l !! j = Some b /\ (i < j)%nat.
Proof.
  induction l as [| x l IH]; cbn [ordered_pairs]; intros Hin; [inversion Hin |].
  apply elem_of_app in Hin as [Hin | Hin].
  - apply list_elem_of_fmap in Hin as (y & Heq & Hy). injection Heq as -> ->.
    apply list_elem_of_lookup in Hy as [j Hj]. exists 0%nat, (S j). repeat split; [exact Hj | lia].
  - destruct (IH Hin) as (i & j & Hi & Hj & Hlt). exists (S i), (S j). repeat split; auto. lia.
Qed.

(** The rules [rule_once] and [rule_deny_again] set the status to the same
    literal, and are reported. *)
Example deny_twice_same_literal :
  rules_conflict rule_once rule_deny_again -> False.
Proof.
  intros (target & vA & vB & lA & lB & HA & HB & HlA & HlB & Hne).
  apply list_elem_of_In in HA, HB. cbn in HA, HB.
  destruct HA as [HA | []], HB as [HB | []].
  injection HA as <- <-. injection HB as <-.
  cbn in HlA, HlB. congruence.
Qed.

Example same_literal_other_order :
  Validator.detectConflictingSetActions deny_twice_program
  = [Validator.conflict_message "order.status" "B" "C"].
Proof. vm_compute. reflexivity. Qed.

(** ** Termination of the pass loop *)

Section Looping.
Context `{JsHost}.

Lemma setPathValue_route (h : heap) (a : nat) (props : gmap string value) (x : value) :
  h !! a = Some (CObj props) ->
  setPathValue (VRef a) "route" x h =
    (Ok (default VUndef (props !! "route"), x), <[a := CObj (<["route" := x]> props)]> h).
Proof.
  intros Hh. unfold setPathValue.
  change (split "." "route") with ["route"].
  cbn [descend bind ret]. unfold read_prop, write_prop, get_prop. rewrite Hh. reflexivity.
Qed.

Lemma applyAction_route (s : RunState) (a : nat) (props : gmap string value)
    (toQueue : string) (reason : option string) (ruleId actionId : string) :
  st_heap s !! a = Some (CObj props) ->
  exists out s',
    applyAction (ActRoute toQueue reason) (VRef a) ruleId actionId true s = (Ok out, s') /\
    length (ao_diffs out) = 1%nat /\
    ao_log out <> None /\
    firings s' = firings s /\ hitRuleLimit s' = hitRuleLimit s /\
    exists props', st_heap s' !! a = Some (CObj props').
Proof.
  intros Hh. destruct s as [h pw acts trs cw f hl]. cbn in Hh.
  assert (Hlen : (a < length h)%nat) by (eapply lookup_lt_Some; eauto).
  unfold applyAction, track_write.
  cbn [bind get_state ret modify on_heap alloc st_heap with_heap priorWrites
       with_priorWrites actions traces conflictWarnings firings hitRuleLimit].
  rewrite (setPathValue_route _ a props); [| rewrite lookup_app_l; assumption].
  cbn [bind get_state ret modify on_heap alloc st_heap with_heap priorWrites
       with_priorWrites actions traces conflictWarnings firings hitRuleLimit fmap].
  do 2 eexists. split; [reflexivity |]. cbn.
  repeat split; try reflexivity; try discriminate.
  eexists. apply list_lookup_insert_eq. rewrite length_app. lia.
Qed.

Lemma fallback_pass (s : RunState) :
  fallback_invariant s ->
  exists s',
    executePass (VRef 1%nat) 1000 true AllMatches [fallback_rule] s
      = (Ok {| fired := false; mutated := true; stopEarly := false |}, s') /\
    fallback_invariant s'.
Proof.
  intros (Hf & Hl & props & Hh).
  unfold executePass.
  cbn [passRules fallback_rule rule_when never evaluateCondition evaluateOperand lit
       literal_value operand_value ct_result evaluateComparison bind get_state].
  repeat match goal with |- context [strict_eq ?a ?b] =>
    let r := eval vm_compute in (strict_eq a b) in change (strict_eq a b) with r end.
  cbn [negb andb orb rule_else rule_then rule_actions default ret bind rule_id applyActions
       get_state].
  destruct (applyAction_route s 1 props "review" None "fallback"
              ("act-" +:+ pretty (Z.of_nat (length (actions s)) + Z.of_nat (length (@nil ActionTrace)) + 1))
              Hh) as (out & s1 & Happ & Hdiffs & Hlog & Hf1 & Hl1 & props1 & Hh1).
  cbn [rule_else fallback_rule default applyActions bind get_state rule_id rule_name
       rule_priority].
  unfold id at 1.
  cbn [applyActions bind get_state].
  rewrite Happ.
  assert (Hmut : bool_decide (0 < length ([] ++ ao_diffs out))%nat = true).
  { apply bool_decide_eq_true. rewrite app_nil_l, Hdiffs. lia. }
  destruct (ao_log out) as [l |]; [| congruence].
  destruct (ao_warning out) as [w |];
    cbn [bind modify ret get_state firings push_trace push_action push_conflictWarning
         hitRuleLimit st_heap];
    rewrite Hf1, Hf, Hmut; cbn;
    (eexists; split; [reflexivity |]);
    (split; [cbn; congruence | split; [cbn; congruence | exists props1; exact Hh1]]).
Qed.

(** C1 (the code at fault).  On the fallback program, with actions
    enabled and [loopUntilSettled], [runProgram] does not return: every
    pass mutates the state through the [else] branch of a rule that never
    matches, so that no pass settles, stops early or counts a firing, and
    no amount of fuel lets the loop end. *)
Theorem fallback_program_never_settles (fuel : nat) :
  runProgram fuel fallback_program empty_input (Some settle_options) empty_heap = None.
Proof.
  assert (Hsettle : forall fuel s,
             fallback_invariant s ->
             settle (VRef 1%nat) 1000 true AllMatches fuel true [fallback_rule]
                    {| fired := false; mutated := true; stopEarly := false |} s = None).
  { clear fuel. induction fuel as [| fuel IH]; intros s Hinv.
    - destruct Hinv as (_ & Hl & _). cbn. rewrite Hl. reflexivity.
    - destruct (fallback_pass s Hinv) as (s' & Hpass & Hinv').
      destruct Hinv as (_ & Hl & _). cbn [settle mutated stopEarly]. rewrite Hl.
      cbn [negb andb]. rewrite Hpass. apply IH. exact Hinv'. }
  unfold runProgram, runPasses.
  change (cloneInput empty_input empty_heap) with (Ok (VRef 1%nat), [CObj ∅; CObj ∅]).
  cbn [option_bind mbind settle_options opt_maxRuleFirings opt_enableActions opt_mode
       opt_loopUntilSettled default fallback_program program_rules program_ruleEvaluation
       normalizeMode sortRules foldr insertRule].
  destruct (fallback_pass (initial_state [CObj ∅; CObj ∅])) as (s' & Hpass & Hinv').
  { repeat split. exists ∅. reflexivity. }
  unfold id. rewrite Hpass, Hsettle; [reflexivity | exact Hinv'].
Qed.
End Looping.

(** ** Reasoning on computations *)

Section Rules.
Context {S : Type}.
Implicit Types I : S -> Prop.

Lemma preserves_ret {A} I (a : A) (Q : A -> Prop) : Q a -> preserves I (ret a) Q.
Proof. intros HQ s o s' HI [= <- <-]. split; [exact HI |]. intros ? [= <-]. exact HQ. Qed.

Lemma preserves_throw {A} I (e : js_error) (Q : A -> Prop) : preserves I (throw e) Q.
Proof. intros s o s' HI [= <- <-]. split; [exact HI | discriminate]. Qed.

Lemma preserves_bind {A B} I (m : M S A) (k : A -> M S B) (P : A -> Prop) (Q : B -> Prop) :
  preserves I m P -> (forall a, P a -> preserves I (k a) Q) -> preserves I (bind m k) Q.
Proof.
  intros Hm Hk s o s' HI Hrun. unfold bind in Hrun.
  destruct (m s) as [[a | e] s1] eqn:Hms.
  - destruct (Hm _ _ _ HI Hms) as [HI1 HP]. eapply Hk; eauto.
  - injection Hrun as <- <-. destruct (Hm _ _ _ HI Hms) as [HI1 _].
    split; [exact HI1 | discriminate].
Qed.

Lemma preserves_weaken {A} I (m : M S A) (P Q : A -> Prop) :
  preserves I m P -> (forall a, P a -> Q a) -> preserves I m Q.
Proof. intros Hm HPQ s o s' HI Hrun. destruct (Hm _ _ _ HI Hrun). split; eauto. Qed.

Lemma preserves_get_state I : preserves I get_state I.
Proof. intros s o s' HI [= <- <-]. split; [exact HI |]. intros ? [= <-]. exact HI. Qed.

Lemma preserves_modify I (f : S -> S) :
  (forall s, I s -> I (f s)) -> preserves I (modify f) (fun _ => True).
Proof. intros Hf s o s' HI [= <- <-]. split; [eauto | trivial]. Qed.





End Rules.

(** ** The caller's heap is left alone *)

Section Frame.
Variable base : heap.
Let n0 := length base.

Lemma separated_base : separated base base.
Proof.
  split; [reflexivity |]. intros a c Ha Hle.
  apply lookup_lt_Some in Ha. lia.
Qed.

Lemma separated_length h : separated base h -> (n0 <= length h)%nat.
Proof. intros [Hp _]. apply prefix_length. exact Hp. Qed.

Lemma separated_alloc h c :
  separated base h -> cell_fresh n0 c -> separated base (h ++ [c]).
Proof.
  intros [Hp Hf] Hc. split.
  - etransitivity; [exact Hp | apply prefix_app_r; reflexivity].
  - intros a c' Ha Hle. apply lookup_app_Some in Ha as [Ha | [Hlen Ha]]; [eauto |].
    apply list_lookup_singleton_Some in Ha as [_ <-]. exact Hc.
Qed.

Lemma separated_insert h a c :
  separated base h -> (n0 <= a)%nat -> cell_fresh n0 c -> separated base (<[a := c]> h).
Proof.
  intros [[k ->] Hf] Hle Hc. split.
  - rewrite insert_app_r_alt by exact Hle. eexists. reflexivity.
  - intros b c' Hb Hleb. destruct (decide (a = b)) as [<- | Hne].
    + assert (Hlt : (a < length (base ++ k))%nat).
      { apply lookup_lt_Some in Hb. rewrite length_insert in Hb. exact Hb. }
      rewrite list_lookup_insert_eq in Hb by exact Hlt. injection Hb as <-. exact Hc.
    + rewrite list_lookup_insert_ne in Hb by exact Hne. eauto.
Qed.

Lemma separated_cell h a c :
  separated base h -> fresh n0 (VRef a) -> h !! a = Some c -> cell_fresh n0 c.
Proof. intros [_ Hf] Hle Ha. eauto. Qed.

Lemma get_prop_fresh h v key :
  separated base h -> fresh n0 v -> fresh n0 (get_prop h v key).
Proof.
  intros Hs Hv. destruct v as [| | b | n | s | a]; cbn; trivial.
  - destruct (String.eqb key "length"); [exact I |].
    destruct (array_index key) as [i |]; [| exact I].
    unfold char_at. destruct (String.get i s); exact I.
  - destruct (h !! a) as [[props | elems props] |] eqn:Ha; [| | exact I].
    + pose proof (separated_cell h a _ Hs Hv Ha) as Hc. cbn in Hc.
      destruct (props !! key) as [x |] eqn:Hk; [| exact I]. cbn. eapply Hc; eauto.
    + pose proof (separated_cell h a _ Hs Hv Ha) as [Hel Hpr].
      destruct (String.eqb key "length"); [exact I |].
      destruct (array_index key) as [i |].
      * destruct (elems !! i) as [x |] eqn:Hi; [| exact I]. cbn.
        eapply Forall_lookup_1; eauto.
      * destruct (props !! key) as [x |] eqn:Hk; [| exact I]. cbn. eapply Hpr; eauto.
Qed.

Lemma getPathValue_fresh h v path :
  separated base h -> fresh n0 v -> fresh n0 (getPathValue h v path).
Proof.
  intros Hs. unfold getPathValue. revert v.
  induction (split "." path) as [| key keys IH]; intros v Hv; [exact Hv |].
  cbn [fold_left]. apply IH.
  destruct v; try exact I; apply get_prop_fresh; assumption.
Qed.

Lemma array_store_fresh elems i x :
  Forall (fresh n0) elems -> fresh n0 x -> Forall (fresh n0) (array_store elems i x).
Proof.
  intros Hel Hx. unfold array_store. case_bool_decide.
  - apply Forall_insert; assumption.
  - apply Forall_app. split; [exact Hel |]. apply Forall_app. split.
    + apply Forall_replicate. exact I.
    + repeat constructor. exact Hx.
Qed.

Lemma array_resize_fresh elems n :
  Forall (fresh n0) elems -> Forall (fresh n0) (array_resize elems n).
Proof.
  intros Hel. unfold array_resize. apply Forall_app. split.
  - apply Forall_take. exact Hel.
  - apply Forall_replicate. exact I.
Qed.

Lemma read_prop_separated v key :
  fresh n0 v -> preserves (separated base) (read_prop v key) (fresh n0).
Proof.
  intros Hv h o h' Hs Hrun. unfold read_prop in Hrun.
  destruct v; injection Hrun as <- <-; (split; [exact Hs |]); try discriminate;
    intros ? [= <-]; apply (get_prop_fresh h _ key Hs Hv).
Qed.

Lemma write_prop_separated v key x :
  fresh n0 v -> fresh n0 x ->
  preserves (separated base) (write_prop v key x) (fun _ => True).
Proof.
  intros Hv Hx h o h' Hs Hrun. split; [| trivial]. unfold write_prop in Hrun.
  destruct v as [| | b | n | s | a]; try (injection Hrun as <- <-; exact Hs).
  destruct (h !! a) as [[props | elems props] |] eqn:Ha;
    [| | injection Hrun as <- <-; exact Hs].
  - injection Hrun as <- <-. apply separated_insert; [exact Hs | exact Hv |].
    pose proof (separated_cell h a _ Hs Hv Ha) as Hc. cbn in Hc |- *.
    apply map_Forall_insert_2; assumption.
  - pose proof (separated_cell h a _ Hs Hv Ha) as [Hel Hpr].
    destruct (String.eqb key "length").
    + destruct x as [| | [|] | n | s | b];
        try (injection Hrun as <- <-; exact Hs);
        try (injection Hrun as <- <-; apply separated_insert; [exact Hs | exact Hv |];
             split; [first [apply array_resize_fresh; exact Hel | constructor] | exact Hpr]).
      destruct ((0 <=? n) && (n <? 2 ^ 32)); injection Hrun as <- <-; [| exact Hs].
      apply separated_insert; [exact Hs | exact Hv |].
      split; [apply array_resize_fresh; exact Hel | exact Hpr].
    + destruct (array_index key) as [i |]; injection Hrun as <- <-;
        (apply separated_insert; [exact Hs | exact Hv |]).
      * split; [apply array_store_fresh; assumption | exact Hpr].
      * split; [exact Hel | apply map_Forall_insert_2; assumption].
Qed.

Lemma alloc_separated c :
  cell_fresh n0 c -> preserves (separated base) (alloc c) (fresh n0).
Proof.
  intros Hc h o h' Hs [= <- <-]. split.
  - apply separated_alloc; assumption.
  - intros ? [= <-]. cbn. apply separated_length. exact Hs.
Qed.
End Frame.

Section FrameEngine.
Context `{JsHost}.
Variable base : heap.
Let n0 := length base.

Lemma descend_separated keys current :
  fresh n0 current ->
  preserves (separated base) (descend current keys) (fun r => fresh n0 r.1).
Proof.
  revert current. induction keys as [| key rest IH]; intros current Hc.
  - apply preserves_ret. exact Hc.
  - destruct rest as [| key' rest'].
    + apply preserves_ret. exact Hc.
    + cbn [descend].
      eapply preserves_bind; [apply read_prop_separated; exact Hc |].
      intros child Hchild.
      eapply preserves_bind with (P := fun _ => True).
      * destruct (strict_eq child VUndef); [| apply preserves_ret; exact I].
        eapply preserves_bind; [apply alloc_separated; apply map_Forall_empty |].
        intros obj Hobj. apply write_prop_separated; assumption.
      * intros _ _.
        eapply preserves_bind; [apply read_prop_separated; exact Hc |].
        intros next Hnext. apply IH. exact Hnext.
Qed.

Lemma setPathValue_separated obj path x :
  fresh n0 obj -> fresh n0 x ->
  preserves (separated base) (setPathValue obj path x)
            (fun r => fresh n0 r.1 /\ fresh n0 r.2).
Proof.
  intros Hobj Hx. unfold setPathValue.
  eapply preserves_bind; [apply descend_separated; exact Hobj |].
  intros [current lastKey] Hcur. cbn in Hcur.
  eapply preserves_bind; [apply read_prop_separated; exact Hcur |].
  intros previous Hprev.
  eapply preserves_bind; [apply write_prop_separated; assumption |].
  intros _ _. apply preserves_ret. split; assumption.
Qed.

Lemma JSON_parse_separated j :
  preserves (separated base) (JSON_parse j) (fresh n0).
Proof.
  induction j as [| b | n | s | items IH | fields IH] using json_induction;
    try (apply preserves_ret; exact I).
  - cbn [JSON_parse].
    eapply preserves_bind with (P := Forall (fresh n0)).
    + induction IH as [| x items Hx _ IHitems].
      * apply preserves_ret. constructor.
      * eapply preserves_bind; [exact Hx |]. intros v Hv.
        eapply preserves_bind; [exact IHitems |]. intros vs Hvs.
        apply preserves_ret. constructor; assumption.
    + intros elems Helems. apply alloc_separated. split; [exact Helems | apply map_Forall_empty].
  - cbn [JSON_parse].
    eapply preserves_bind with (P := map_Forall (fun _ v => fresh n0 v)).
    + assert (Hacc : map_Forall (fun (_ : string) v => fresh n0 v) (∅ : gmap string value))
        by apply map_Forall_empty.
      revert Hacc. generalize (∅ : gmap string value).
      induction IH as [| [k x] fields Hx _ IHfields]; intros acc Hacc.
      * apply preserves_ret. exact Hacc.
      * eapply preserves_bind; [exact Hx |]. intros v Hv.
        apply IHfields. apply map_Forall_insert_2; assumption.
    + intros props Hprops. apply alloc_separated. exact Hprops.
Qed.

Lemma cloneInput_separated input :
  preserves (separated base) (cloneInput input) (fresh n0).
Proof.
  intros h o h' Hs Hrun. unfold cloneInput in Hrun.
  destruct (JSON_stringify h input) as [[j |] |].
  - eapply JSON_parse_separated; eauto.
  - injection Hrun as <- <-. split; [exact Hs | discriminate].
  - injection Hrun as <- <-. split; [exact Hs | discriminate].
Qed.

Lemma on_heap_separated {A} (m : M heap A) (Q : A -> Prop) :
  preserves (separated base) m Q -> preserves (state_separated base) (on_heap m) Q.
Proof.
  intros Hm s o s' Hs Hrun. unfold on_heap in Hrun.
  destruct (m (st_heap s)) as [o1 h1] eqn:Hms. injection Hrun as <- <-.
  destruct (Hm _ _ _ Hs Hms) as [Hs1 HQ]. split; [exact Hs1 | exact HQ].
Qed.

Lemma evaluateOperand_fresh h data operand :
  separated base h -> fresh n0 data -> fresh n0 (evaluateOperand h data operand).
Proof.
  intros Hs Hd. destruct operand as [f | v]; cbn.
  - apply getPathValue_fresh; assumption.
  - destruct (operand_value v); exact I.
Qed.

Lemma track_write_separated path ruleId actionId enableActions :
  preserves (state_separated base) (track_write path ruleId actionId enableActions)
            (fun _ => True).
Proof.
  unfold track_write.
  eapply preserves_bind; [apply preserves_get_state |]. intros s Hs.
  eapply preserves_bind with (P := fun _ => True).
  - destruct enableActions; [| apply preserves_ret; exact I].
    apply preserves_modify. intros s1 Hs1. exact Hs1.
  - intros _ _. apply preserves_ret. exact I.
Qed.

Lemma array_elems_fresh h v elems :
  separated base h -> fresh n0 v -> array_elems h v = Some elems -> Forall (fresh n0) elems.
Proof.
  intros Hs Hv Hel. destruct v as [| | | | | a]; try discriminate. cbn in Hel.
  destruct (h !! a) as [[props | elems' props] |] eqn:Ha; try discriminate.
  injection Hel as <-. apply (separated_cell base h a _ Hs Hv Ha).
Qed.

Lemma spread_props_fresh h v :
  separated base h -> fresh n0 v -> map_Forall (fun _ x => fresh n0 x) (spread_props h v).
Proof.
  intros Hs Hv. destruct v as [| | | | | a]; try apply map_Forall_empty. cbn.
  destruct (h !! a) as [[props | elems props] |] eqn:Ha; [| | apply map_Forall_empty].
  - apply (separated_cell base h a _ Hs Hv Ha).
  - destruct (separated_cell base h a _ Hs Hv Ha) as [Hel Hpr].
    intros k x Hk. apply lookup_union_Some_raw in Hk as [Hk | [_ Hk]]; [| eapply Hpr; eauto].
    apply elem_of_list_to_map_2 in Hk.
    apply list_elem_of_lookup in Hk as [i Hi].
    rewrite list_lookup_imap in Hi.
    destruct (elems !! i) as [y |] eqn:Hy; [| discriminate].
    injection Hi as _ <-. eapply Forall_lookup_1; eauto.
Qed.

Lemma applyAction_separated action data ruleId actionId enableActions :
  fresh n0 data ->
  preserves (state_separated base)
            (applyAction action data ruleId actionId enableActions) (fun _ => True).
Proof.
  intros Hd. destruct action as [target vop | target delta | target vop | event payload | toQueue reason];
    cbn [applyAction].
  - eapply preserves_bind; [apply preserves_get_state |]. intros s Hs.
    eapply preserves_bind with (P := fun _ => True).
    + destruct enableActions; [| apply preserves_ret; exact I].
      eapply preserves_weaken; [| intros; exact I].
      apply on_heap_separated, setPathValue_separated;
        [exact Hd | apply evaluateOperand_fresh; assumption].
    + intros [previous next] _.
      eapply preserves_bind; [apply track_write_separated |].
      intros [conflict warning] _. apply preserves_ret. exact I.
  - eapply preserves_bind; [apply preserves_get_state |]. intros s Hs.
    eapply preserves_bind with (P := fun _ => True).
    + destruct enableActions; [| apply preserves_ret; exact I].
      eapply preserves_bind.
      * apply on_heap_separated, setPathValue_separated; [exact Hd |].
        destruct (is_number _); exact I.
      * intros [previous next] _. apply preserves_ret. exact I.
    + intros diffs _.
      eapply preserves_bind; [apply track_write_separated |].
      intros [conflict warning] _. apply preserves_ret. exact I.
  - eapply preserves_bind; [apply preserves_get_state |]. intros s Hs.
    eapply preserves_bind.
    { apply on_heap_separated, alloc_separated. split; [| apply map_Forall_empty].
      apply Forall_app. split.
      - destruct (array_elems (st_heap s) _) as [elems |] eqn:Hel; [| constructor].
        eapply array_elems_fresh; [exact Hs | | exact Hel].
        apply getPathValue_fresh; assumption.
      - repeat constructor. apply evaluateOperand_fresh; assumption. }
    intros nextArray Hnext.
    eapply preserves_bind with (P := fun _ => True).
    { destruct (is_array _ _); [apply preserves_ret; exact I |].
      destruct (strict_eq _ _); [| apply preserves_ret; exact I].
      eapply preserves_weaken; [| intros; exact I].
      apply on_heap_separated, alloc_separated. split; [constructor | apply map_Forall_empty]. }
    intros beforeValue _.
    eapply preserves_bind with (P := fun _ => True).
    { destruct enableActions; [| apply preserves_ret; exact I].
      eapply preserves_bind.
      - apply on_heap_separated, setPathValue_separated; assumption.
      - intros _ _. apply preserves_ret. exact I. }
    intros diffs _.
    eapply preserves_bind; [apply track_write_separated |].
    intros [conflict warning] _. apply preserves_ret. exact I.
  - apply preserves_ret. exact I.
  - eapply preserves_bind; [apply preserves_get_state |]. intros s Hs.
    eapply preserves_bind.
    { apply on_heap_separated, alloc_separated. cbn [cell_fresh].
      apply map_Forall_insert_2; [destruct reason; exact I |].
      apply map_Forall_insert_2; [exact I |].
      apply spread_props_fresh; [exact Hs |]. apply getPathValue_fresh; assumption. }
    intros nextRoute Hnext.
    eapply preserves_bind with (P := fun _ => True).
    { destruct enableActions; [| apply preserves_ret; exact I].
      eapply preserves_bind.
      - apply on_heap_separated, setPathValue_separated; assumption.
      - intros _ _. apply preserves_ret. exact I. }
    intros diffs _.
    eapply preserves_bind; [apply track_write_separated |].
    intros [conflict warning] _. apply preserves_ret. exact I.
Qed.
Lemma applyActions_separated ruleActions data ruleId enableActions actionTraces stateDiffs warnings :
  fresh n0 data ->
  preserves (state_separated base)
            (applyActions ruleActions data ruleId enableActions actionTraces stateDiffs warnings)
            (fun _ => True).
Proof.
  intros Hd. revert actionTraces stateDiffs warnings.
  induction ruleActions as [| action rest IH]; intros actionTraces stateDiffs warnings.
  - apply preserves_ret. exact I.
  - cbn [applyActions].
    eapply preserves_bind; [apply preserves_get_state |]. intros s Hs.
    eapply preserves_bind; [apply applyAction_separated; exact Hd |]. intros out _.
    eapply preserves_bind with (P := fun _ => True).
    { destruct (ao_warning out); [| apply preserves_ret; exact I].
      apply preserves_modify. intros s1 Hs1. exact Hs1. }
    intros _ _.
    eapply preserves_bind with (P := fun _ => True).
    { destruct (ao_log out); [| apply preserves_ret; exact I].
      apply preserves_modify. intros s1 Hs1. exact Hs1. }
    intros _ _. apply IH.
Qed.

Lemma passRules_separated data maxRuleFirings enableActions mode rules fired0 mutated0 :
  fresh n0 data ->
  preserves (state_separated base)
            (passRules data maxRuleFirings enableActions mode rules fired0 mutated0)
            (fun _ => True).
Proof.
  intros Hd. revert fired0 mutated0.
  induction rules as [| rule rest IH]; intros fired0 mutated0.
  - apply preserves_ret. exact I.
  - cbn [passRules].
    eapply preserves_bind; [apply preserves_get_state |]. intros s Hs.
    eapply preserves_bind with (P := fun _ => True).
    { destruct (ct_result _); [| apply preserves_ret; exact I].
      apply preserves_modify. intros s1 Hs1. exact Hs1. }
    intros _ _.
    eapply preserves_bind; [apply applyActions_separated; exact Hd |].
    intros [[actionTraces stateDiffs] warnings] _.
    eapply preserves_bind; [apply preserves_modify; intros s1 Hs1; exact Hs1 |].
    intros _ _.
    eapply preserves_bind; [apply preserves_get_state |]. intros s' Hs'.
    destruct (firings s' >=? maxRuleFirings).
    + eapply preserves_bind; [apply preserves_modify; intros s1 Hs1; exact Hs1 |].
      intros _ _. apply preserves_ret. exact I.
    + destruct (_ && _); [apply preserves_ret; exact I | apply IH].
Qed.

Lemma settle_separated data maxRuleFirings enableActions mode fuel loopUntilSettled rules
    passResult s o s' :
  fresh n0 data -> state_separated base s ->
  settle data maxRuleFirings enableActions mode fuel loopUntilSettled rules passResult s
    = Some (o, s') ->
  state_separated base s'.
Proof.
  intros Hd. revert passResult s.
  induction fuel as [| fuel IH]; intros passResult s Hs Hrun; cbn [settle] in Hrun.
  - destruct (_ && _); [discriminate | injection Hrun as <- <-; exact Hs].
  - destruct (_ && _); [| injection Hrun as <- <-; exact Hs].
    destruct (executePass _ _ _ _ _ s) as [[pr | e] s1] eqn:Hpass.
    + eapply IH; [| exact Hrun].
      eapply (passRules_separated data maxRuleFirings enableActions mode rules false false Hd);
        eauto.
    + injection Hrun as <- <-.
      eapply (passRules_separated data maxRuleFirings enableActions mode rules false false Hd);
        eauto.
Qed.
End FrameEngine.

Section FrameRun.
Context `{JsHost}.

Lemma runPasses_frame fuel program input options h o h' :
  runPasses fuel program input options h = Some (o, h') -> h `prefix_of` h'.
Proof.
  unfold runPasses. intros Hrun.
  destruct (cloneInput input h) as [[state | e] h1] eqn:Hclone.
  - destruct (cloneInput_separated h input h _ _ (separated_base h) Hclone) as [Hs1 Hstate].
    specialize (Hstate state eq_refl).
    destruct (executePass _ _ _ _ _ _) as [[pr | e] s] eqn:Hpass.
    + assert (Hs : state_separated h s).
      { eapply (passRules_separated h state); [exact Hstate | | exact Hpass]. exact Hs1. }
      destruct (settle _ _ _ _ _ _ _ _ _) as [[[pr' | e] s'] |] eqn:Hsettle; [| | discriminate].
      * injection Hrun as <- <-.
        apply (settle_separated h) in Hsettle; [apply Hsettle | exact Hstate | exact Hs].
      * injection Hrun as <- <-.
        apply (settle_separated h) in Hsettle; [apply Hsettle | exact Hstate | exact Hs].
    + injection Hrun as <- <-.
      eapply (passRules_separated h state); [exact Hstate | | exact Hpass]. exact Hs1.
  - injection Hrun as <- <-.
    apply (cloneInput_separated h input h _ _ (separated_base h) Hclone).
Qed.

Lemma runExample_frame program example h o h' :
  runExample program example h = Some (o, h') -> h `prefix_of` h'.
Proof.
  unfold runExample. intros Hrun.
  destruct (runPasses 0 program _ _ h) as [[[r | e] h1] |] eqn:Hp; [| | discriminate].
  - apply runPasses_frame in Hp. unfold expectationMatches in Hrun.
    destruct (expectationMatches_rec _ _ _ _); injection Hrun as <- <-; exact Hp.
  - injection Hrun as <- <-. apply runPasses_frame in Hp. exact Hp.
Qed.

Lemma runExampleList_frame program examples h o h' :
  runExampleList program examples h = Some (o, h') -> h `prefix_of` h'.
Proof.
  revert h o h'. induction examples as [| example rest IH]; intros h o h' Hrun;
    cbn [runExampleList] in Hrun.
  - injection Hrun as <- <-. reflexivity.
  - destruct (runExample program example h) as [[[r | e] h1] |] eqn:Hex; [| | discriminate].
    + apply runExample_frame in Hex.
      destruct (runExampleList program rest h1) as [[[rs | e] h2] |] eqn:Hrest;
        [| | discriminate]; injection Hrun as <- <-;
        apply IH in Hrest; etransitivity; eassumption.
    + injection Hrun as <- <-. apply runExample_frame in Hex. exact Hex.
Qed.

Lemma runProgram_frame fuel program input options h o h' :
  runProgram fuel program input options h = Some (o, h') -> h `prefix_of` h'.
Proof.
  unfold runProgram. intros Hrun.
  destruct (runPasses fuel program input options h) as [[[r | e] h1] |] eqn:Hp;
    [| | discriminate].
  - apply runPasses_frame in Hp.
    destruct (default false _); [| injection Hrun as <- <-; exact Hp].
    destruct (program_examples program) as [examples |];
      [| injection Hrun as <- <-; exact Hp].
    destruct (runExampleList program examples h1) as [[[rs | e] h2] |] eqn:Hex;
      [| | discriminate]; injection Hrun as <- <-;
      apply runExampleList_frame in Hex; etransitivity; eassumption.
  - injection Hrun as <- <-. apply runPasses_frame in Hp. exact Hp.
Qed.

Lemma traverse_ext {A B} (f g : A -> option B) (l : list A) (r : list B) :
  (forall x y, f x = Some y -> g x = Some y) ->
  traverse f l = Some r -> traverse g l = Some r.
Proof.
  intros Hfg. revert r. induction l as [| x l IH]; intros r Hr; cbn in *; [exact Hr |].
  destruct (f x) as [y |] eqn:Hx; [| discriminate].
  destruct (traverse f l) as [ys |]; [| discriminate].
  rewrite (Hfg _ _ Hx), (IH _ eq_refl). exact Hr.
Qed.

(** A structure that can be serialised is closed: it is serialised to
    the same document in every heap that extends the present one. *)
Lemma to_json_stable (fuel fuel' : nat) (h h' : heap) (v : value) (d : option json) :
  h `prefix_of` h' -> (fuel <= fuel')%nat ->
  to_json fuel h v = Some d -> to_json fuel' h' v = Some d.
Proof.
  intros Hp. revert fuel' v d.
  induction fuel as [| fuel IH]; intros fuel' v d Hle Hv.
  - destruct v; cbn in Hv; try discriminate; destruct fuel'; exact Hv.
  - destruct fuel' as [| fuel']; [lia |].
    destruct v as [| | b | n | s | a]; try exact Hv.
    cbn [to_json] in Hv |- *.
    destruct (h !! a) as [c |] eqn:Ha; [| discriminate].
    rewrite (prefix_lookup_Some _ _ _ _ Ha Hp).
    assert (Hle' : (fuel <= fuel')%nat) by lia.
    destruct c as [props | elems props].
    + destruct (traverse _ (map_to_list props)) as [fields |] eqn:Ht; [| discriminate].
      erewrite traverse_ext; [exact Hv | | exact Ht].
      intros kv y Hy. cbn beta in Hy |- *.
      destruct (to_json fuel h kv.2) as [o |] eqn:Hkv; [| discriminate].
      rewrite (IH _ _ _ Hle' Hkv). exact Hy.
    + destruct (traverse _ elems) as [items |] eqn:Ht; [| discriminate].
      erewrite traverse_ext; [exact Hv | | exact Ht].
      intros x y Hy. cbn beta in Hy |- *.
      destruct (to_json fuel h x) as [o |] eqn:Hx; [| discriminate].
      rewrite (IH _ _ _ Hle' Hx). exact Hy.
Qed.

Lemma JSON_stringify_stable (h h' : heap) (v : value) (d : option json) :
  h `prefix_of` h' -> JSON_stringify h v = Some d -> JSON_stringify h' v = Some d.
Proof.
  intros Hp. unfold JSON_stringify. apply to_json_stable; [exact Hp |].
  apply prefix_length in Hp. lia.
Qed.

(** In a store whose objects have own members only, whenever [runProgram]
    returns or raises, with actions enabled or not, every cell of the
    caller's store is as it was before the call, and the input object
    still reads as the same document: the execution writes only to cells
    it allocated itself, beginning with its copy of the input.  A path
    that leads through an inherited member ([constructor], [__proto__])
    leaves this model: there [setPathValue] writes on an object that the
    copy shares with every other object. *)
Lemma runProgram_leaves_caller_heap
    (fuel : nat) (program : Program) (input : value)
    (options : option ExecutionOptions) (h h' : heap) (o : outcome ExecutionResult) :
  runProgram fuel program input options h = Some (o, h') ->
  (exists allocated, h' = h ++ allocated) /\
  (forall a c, h !! a = Some c -> h' !! a = Some c) /\
  (forall d, JSON_stringify h input = Some d -> JSON_stringify h' input = Some d).
Proof.
  intros Hrun. apply runProgram_frame in Hrun. split; [exact Hrun |]. split.
  - intros a c Ha. eapply prefix_lookup_Some; eauto.
  - intros d. apply JSON_stringify_stable. exact Hrun.
Qed.
End FrameRun.

(** The discount rule applied to the order payload with actions enabled:
    the copy receives [discountPercent], the payload does not. *)
Lemma runProgram_leaves_caller_heap_witness :
  exists o h',
    runProgram (H := wordHost) 0 discount_program order_input (Some cap_one_options) order_heap
      = Some (o, h') /\
    (exists allocated, h' = order_heap ++ allocated) /\
    (forall a c, order_heap !! a = Some c -> h' !! a = Some c) /\
    (forall d, JSON_stringify order_heap order_input = Some d ->
               JSON_stringify h' order_input = Some d).
Proof.
  destruct (runProgram (H := wordHost) 0 discount_program order_input (Some cap_one_options) order_heap)
    as [[o h'] |] eqn:Hrun; [| vm_compute in Hrun; discriminate].
  exists o, h'. split; [reflexivity |].
  exact (runProgram_leaves_caller_heap (H := wordHost) 0 discount_program order_input
           (Some cap_one_options) order_heap h' o Hrun).
Defined.

Lemma discount_applied_to_the_copy :
  exists r h',
    runProgram (H := wordHost) 0 discount_program order_input (Some cap_one_options) order_heap
      = Some (Ok r, h') /\
    getPathValue h' (resultState r) "order.discountPercent" = VNum 10 /\
    getPathValue h' order_input "order.discountPercent" = VUndef.
Proof. eexists. eexists. split; [vm_compute; reflexivity |]. split; reflexivity. Qed.

(** ** Dry runs *)

Section DryRun.
Context `{JsHost}.
Variable h1 : heap.







Lemma settle_not_mutated (data : value) (maxRuleFirings : Z) (enableActions : bool)
    (mode : EvaluationMode) (fuel : nat) (loopUntilSettled : bool) (rules : list Rule)
    (passResult : PassResult) (s : RunState) :
  mutated passResult = false ->
  settle data maxRuleFirings enableActions mode fuel loopUntilSettled rules passResult s
    = Some (Ok passResult, s).
Proof.
  intros Hm. destruct fuel; cbn [settle]; rewrite Hm, andb_false_r; reflexivity.
Qed.
End DryRun.

Section DryRunProgram.
Context `{JsHost}.


End DryRunProgram.


Lemma discount_rule_matches_in_dry_run :
  exists r h',
    runProgram (H := wordHost) 0 discount_program order_input None order_heap = Some (Ok r, h') /\
    map rt_evaluatedWhen (res_trace r) = [true] /\
    getPathValue h' (resultState r) "order.discountPercent" = VUndef.
Proof. eexists. eexists. split; [vm_compute; reflexivity |]. split; reflexivity. Qed.

(** ** The order of evaluation *)




Section Ordering.
Context `{JsHost}.
Hypothesis localeCompare_antisym :
  forall a b, 0 < localeCompare a b -> localeCompare b a <= 0.
Hypothesis localeCompare_trans :
  forall a b c, localeCompare a b <= 0 -> localeCompare b c <= 0 -> localeCompare a c <= 0.




Lemma insertRule_perm (r : Rule) (l : list Rule) : insertRule r l ≡ₚ r :: l.
Proof.
  induction l as [| x l IH]; cbn; [reflexivity |].
  destruct (_ <=? _); [reflexivity |]. rewrite IH. apply Permutation_swap.
Qed.

Lemma sortRules_perm (rules : list Rule) : sortRules rules ≡ₚ rules.
Proof.
  induction rules as [| r rules IH]; cbn; [reflexivity |].
  rewrite insertRule_perm. f_equiv. exact IH.
Qed.


End Ordering.

Lemma bind_Ok_inv {S A B} (m : M S A) (k : A -> M S B) (s s' : S) (b : B) :
  bind m k s = (Ok b, s') -> exists a s1, m s = (Ok a, s1) /\ k a s1 = (Ok b, s').
Proof.
  unfold bind. destruct (m s) as [[a | e] s1]; [eauto | discriminate].
Qed.

Section EngineInvariants.
Context `{JsHost}.
Variable I : RunState -> Prop.
Hypothesis I_heap : forall s h, I s -> I (with_heap h s).
Hypothesis I_priorWrites : forall s w, I s -> I (with_priorWrites w s).
Hypothesis I_action : forall s l, I s -> I (push_action l s).
Hypothesis I_warning : forall s w, I s -> I (push_conflictWarning w s).

Lemma on_heap_preserves {A} (m : M heap A) : preserves I (on_heap m) (fun _ => True).
Proof.
  intros s o s' HI Hrun. unfold on_heap in Hrun.
  destruct (m (st_heap s)) as [o1 h1]. injection Hrun as <- <-. split; [auto | trivial].
Qed.

Lemma track_write_preserves path ruleId actionId enableActions :
  preserves I (track_write path ruleId actionId enableActions) (fun _ => True).
Proof.
  unfold track_write.
  eapply preserves_bind with (P := fun _ => True).
  { intros s o s' HI [= <- <-]. auto. }
  intros s _.
  eapply preserves_bind with (P := fun _ => True).
  - destruct enableActions; [| apply preserves_ret; exact Logic.I].
    apply preserves_modify. intros s1 Hs1. auto.
  - intros _ _. apply preserves_ret. exact Logic.I.
Qed.

Lemma applyAction_preserves action data ruleId actionId enableActions :
  preserves I (applyAction action data ruleId actionId enableActions) (fun _ => True).
Proof.
  assert (Hget : preserves I get_state (fun _ => True)).
  { intros s o s' HI [= <- <-]. auto. }
  destruct action as [target vop | target delta | target vop | event payload | toQueue reason];
    cbn [applyAction].
  - eapply preserves_bind; [exact Hget |]. intros s _.
    eapply preserves_bind with (P := fun _ => True).
    { destruct enableActions; [apply on_heap_preserves | apply preserves_ret; exact Logic.I]. }
    intros [previous next] _.
    eapply preserves_bind; [apply track_write_preserves |].
    intros [conflict warning] _. apply preserves_ret. exact Logic.I.
  - eapply preserves_bind; [exact Hget |]. intros s _.
    eapply preserves_bind with (P := fun _ => True).
    { destruct enableActions; [| apply preserves_ret; exact Logic.I].
      eapply preserves_bind; [apply on_heap_preserves |].
      intros [previous next] _. apply preserves_ret. exact Logic.I. }
    intros diffs _.
    eapply preserves_bind; [apply track_write_preserves |].
    intros [conflict warning] _. apply preserves_ret. exact Logic.I.
  - eapply preserves_bind; [exact Hget |]. intros s _.
    eapply preserves_bind; [apply on_heap_preserves |]. intros nextArray _.
    eapply preserves_bind with (P := fun _ => True).
    { destruct (is_array _ _); [apply preserves_ret; exact Logic.I |].
      destruct (strict_eq _ _); [apply on_heap_preserves | apply preserves_ret; exact Logic.I]. }
    intros beforeValue _.
    eapply preserves_bind with (P := fun _ => True).
    { destruct enableActions; [| apply preserves_ret; exact Logic.I].
      eapply preserves_bind; [apply on_heap_preserves |].
      intros _ _. apply preserves_ret. exact Logic.I. }
    intros diffs _.
    eapply preserves_bind; [apply track_write_preserves |].
    intros [conflict warning] _. apply preserves_ret. exact Logic.I.
  - apply preserves_ret. exact Logic.I.
  - eapply preserves_bind; [exact Hget |]. intros s _.
    eapply preserves_bind; [apply on_heap_preserves |]. intros nextRoute _.
    eapply preserves_bind with (P := fun _ => True).
    { destruct enableActions; [| apply preserves_ret; exact Logic.I].
      eapply preserves_bind; [apply on_heap_preserves |].
      intros _ _. apply preserves_ret. exact Logic.I. }
    intros diffs _.
    eapply preserves_bind; [apply track_write_preserves |].
    intros [conflict warning] _. apply preserves_ret. exact Logic.I.
Qed.

Lemma applyActions_preserves ruleActions data ruleId enableActions actionTraces stateDiffs warnings :
  preserves I
            (applyActions ruleActions data ruleId enableActions actionTraces stateDiffs warnings)
            (fun _ => True).
Proof.
  revert actionTraces stateDiffs warnings.
  induction ruleActions as [| action rest IH]; intros actionTraces stateDiffs warnings.
  - apply preserves_ret. exact Logic.I.
  - cbn [applyActions].
    eapply preserves_bind with (P := fun _ => True).
    { intros s o s' HI [= <- <-]. auto. }
    intros s _.
    eapply preserves_bind; [apply applyAction_preserves |]. intros out _.
    eapply preserves_bind with (P := fun _ => True).
    { destruct (ao_warning out); [| apply preserves_ret; exact Logic.I].
      apply preserves_modify. intros s1 Hs1. auto. }
    intros _ _.
    eapply preserves_bind with (P := fun _ => True).
    { destruct (ao_log out); [| apply preserves_ret; exact Logic.I].
      apply preserves_modify. intros s1 Hs1. auto. }
    intros _ _. apply IH.
Qed.
End EngineInvariants.

Section TraceOrder.
Context `{JsHost}.

Lemma applyActions_traces ruleActions data ruleId enableActions actionTraces stateDiffs warnings
    s o s' :
  applyActions ruleActions data ruleId enableActions actionTraces stateDiffs warnings s = (o, s') ->
  traces s' = traces s.
Proof.
  intros Hrun.
  eapply (applyActions_preserves (fun s1 => traces s1 = traces s)); try exact Hrun; auto.
Qed.

(** One pass leaves one trace for each rule of an initial segment of the
    rules it was given, in their order. *)
Lemma passRules_traces data maxRuleFirings enableActions mode rules fired0 mutated0 s pr s' :
  passRules data maxRuleFirings enableActions mode rules fired0 mutated0 s = (Ok pr, s') ->
  exists processed new,
    processed `prefix_of` rules /\ traces s' = traces s ++ new /\
    Forall2 trace_of_rule new processed.
Proof.
  revert fired0 mutated0 s. induction rules as [| rule rest IH]; intros fired0 mutated0 s Hrun.
  - injection Hrun as _ <-. exists [], []. rewrite app_nil_r.
    split; [apply prefix_nil || constructor | split; [reflexivity | constructor]].
  - cbn [passRules] in Hrun.
    apply bind_Ok_inv in Hrun as (s0 & s0' & Hget & Hrun).
    injection Hget as <- <-.
    apply bind_Ok_inv in Hrun as (u & s1 & Hcount & Hrun).
    assert (Hs1 : traces s1 = traces s).
    { destruct (ct_result _); injection Hcount as _ <-; reflexivity. }
    apply bind_Ok_inv in Hrun as ([[actionTraces stateDiffs] warnings] & s2 & Hacts & Hrun).
    apply applyActions_traces in Hacts.
    apply bind_Ok_inv in Hrun as (u' & s3 & Hpush & Hrun).
    injection Hpush as _ <-.
    apply bind_Ok_inv in Hrun as (s4 & s4' & Hget & Hrun).
    injection Hget as <- <-.
    match type of Hrun with context [push_trace ?t s2] => set (T := t) in * end.
    assert (HT : trace_of_rule T rule) by (repeat split).
    assert (Hone : forall s5, traces s5 = traces (push_trace T s2) ->
               exists processed new,
                 processed `prefix_of` rule :: rest /\ traces s5 = traces s ++ new /\
                 Forall2 trace_of_rule new processed).
    { intros s5 Hs5. exists [rule], [T]. split; [apply prefix_cons, prefix_nil |].
      split; [| repeat constructor; exact HT].
      rewrite Hs5. cbn. rewrite Hacts, Hs1. reflexivity. }
    destruct (firings (push_trace T s2) >=? maxRuleFirings).
    + apply bind_Ok_inv in Hrun as (u'' & s5 & Hflag & Hret).
      injection Hflag as _ <-. injection Hret as _ <-. apply Hone. reflexivity.
    + destruct (_ && _).
      * injection Hrun as _ <-. apply Hone. reflexivity.
      * apply IH in Hrun as (processed & new & Hpre & Htr & Hall).
        exists (rule :: processed), (T :: new). split; [apply prefix_cons; exact Hpre |].
        split; [| constructor; assumption].
        rewrite Htr. cbn. rewrite Hacts, Hs1, <- app_assoc. reflexivity.
Qed.


End TraceOrder.


Section Precedence.
Context `{JsHost}.



End Precedence.

(** Three rules of priorities 1, 5 and 5 given in that order, run on the
    payload [{}]: the traces come by descending priority, then by id. *)
Lemma three_rules_trace_order :
  exists r h',
    runProgram (H := wordHost) 0 three_rules_program empty_input None empty_heap
      = Some (Ok r, h') /\
    map rt_ruleId (res_trace r) = ["urgent-a"; "urgent-b"; "low"].
Proof. eexists. eexists. split; [vm_compute; reflexivity | reflexivity]. Qed.

(** * Properties of the rest of the engine *)

(** ** The constraint report *)

Lemma filter_split_length {A} (f : A -> bool) (l : list A) :
  (length (filter (fun x => f x = true) l) + length (filter (fun x => f x = false) l))%nat
  = length l.
Proof.
  induction l as [| x l IH]; [reflexivity |].
  rewrite !filter_cons. destruct (f x) eqn:Hx.
  - rewrite decide_True by reflexivity. rewrite decide_False by discriminate. cbn. lia.
  - rewrite decide_False by discriminate. rewrite decide_True by reflexivity. cbn. lia.
Qed.

Section ConstraintReportProperties.
Context `{JsHost}.

(** X1.  The report of [evaluateConstraints] sorts every constraint into
    [passed] or [failed] by the result of its assertion, counts every
    failure once, as an error or as a warning, and without constraints
    ([undefined] or an empty list) it is empty and flags nothing. *)
Theorem evaluateConstraints_partitions
    (constraints : option (list Constraint)) (h : heap) (data : value) :
  (length (report_passed (evaluateConstraints constraints h data))
   + length (report_failed (evaluateConstraints constraints h data)))%nat
    = length (default [] constraints) /\
  errorCount (evaluateConstraints constraints h data)
  + warningCount (evaluateConstraints constraints h data)
    = Z.of_nat (length (report_failed (evaluateConstraints constraints h data))) /\
  Forall (fun e => cr_passed e = true /\
                   ct_result (evaluateCondition h (constraint_assert (cr_constraint e)) data) = true)
         (report_passed (evaluateConstraints constraints h data)) /\
  Forall (fun e => cr_passed e = false /\
                   ct_result (evaluateCondition h (constraint_assert (cr_constraint e)) data) = false)
         (report_failed (evaluateConstraints constraints h data)) /\
  (hasFailures (evaluateConstraints constraints h data) = true <->
   report_failed (evaluateConstraints constraints h data) <> []) /\
  (hasErrors (evaluateConstraints constraints h data) = true <->
   exists e, e ∈ report_failed (evaluateConstraints constraints h data) /\
             is_error_severity (cr_constraint e) = true).
Proof.
  destruct constraints as [cs |]; cbn.
  - set (entries := map _ cs).
    assert (Hentries : Forall (fun e => cr_passed e =
               ct_result (evaluateCondition h (constraint_assert (cr_constraint e)) data)) entries).
    { subst entries. apply Forall_forall. intros e He.
      apply list_elem_of_fmap in He as [c [-> _]]. reflexivity. }
    split; [| split; [| split; [| split; [| split]]]].
    + rewrite (filter_split_length cr_passed). subst entries. apply length_map.
    + rewrite <- Nat2Z.inj_add.
      rewrite (filter_split_length (fun e => is_error_severity (cr_constraint e))). reflexivity.
    + apply Forall_forall. intros e He. apply list_elem_of_filter in He as [Hp He].
      split; [exact Hp |]. rewrite Forall_forall in Hentries. rewrite <- (Hentries e He). exact Hp.
    + apply Forall_forall. intros e He. apply list_elem_of_filter in He as [Hp He].
      split; [exact Hp |]. rewrite Forall_forall in Hentries. rewrite <- (Hentries e He). exact Hp.
    + rewrite bool_decide_eq_true. destruct (filter _ entries); cbn; split; try lia; congruence.
    + rewrite bool_decide_eq_true. split.
      * intros Hpos. destruct (filter _ (filter _ entries)) as [| e l] eqn:Hf; [cbn in Hpos; lia |].
        exists e. assert (He : e ∈ e :: l) by left. rewrite <- Hf in He.
        apply list_elem_of_filter in He. tauto.
      * intros (e & He & Hsev).
        assert (Hin : e ∈ filter (fun e => is_error_severity (cr_constraint e) = true)
                          (filter (fun e => cr_passed e = false) entries))
          by (apply list_elem_of_filter; auto).
        destruct (filter _ (filter _ entries)); [inversion Hin | cbn; lia].
  - repeat split; try constructor; try discriminate; try congruence.
    intros (e & He & _). inversion He.
Qed.
End ConstraintReportProperties.

(** ** [sortRules] *)

Section SortProperties.
Context `{JsHost}.

Lemma rule_before_compareRules (a b : Rule) :
  rule_before a b -> (compareRules a b <=? 0) = true.
Proof.
  unfold rule_before, compareRules, effective_priority. intros Hb. apply Z.leb_le.
  destruct (_ =? _) eqn:Heq; cbn [negb].
  - apply Z.eqb_eq in Heq. destruct Hb as [Hlt | [_ Hle]]; [lia | exact Hle].
  - apply Z.eqb_neq in Heq. destruct Hb as [Hlt | [Heq' _]]; [lia | congruence].
Qed.

(** X2.  [sortRules] leaves alone a list of rules that is already in the
    order of evaluation. *)
Theorem sortRules_keeps_sorted (rules : list Rule) :
  StronglySorted rule_before rules -> sortRules rules = rules.
Proof.
  induction 1 as [| r rules Hs IH Hr]; [reflexivity |].
  cbn [sortRules foldr]. fold (sortRules rules). rewrite IH.
  destruct rules as [| x rules]; [reflexivity |].
  cbn [insertRule]. inversion Hr as [| ? ? Hrx _]; subst.
  rewrite (rule_before_compareRules _ _ Hrx). reflexivity.
Qed.

Lemma insertRule_filter (P : Rule -> Prop) `{!forall x, Decision (P x)} (r : Rule) (l : list Rule) :
  (forall x, P r -> P x -> compareRules r x <= 0) ->
  filter P (insertRule r l) = filter P (r :: l).
Proof.
  intros Htie. induction l as [| x l IH]; [reflexivity |].
  cbn [insertRule]. destruct (compareRules r x <=? 0) eqn:Hcmp; [reflexivity |].
  apply Z.leb_gt in Hcmp.
  rewrite (filter_cons P x), IH, !filter_cons.
  destruct (decide (P r)) as [Hr |]; [| reflexivity].
  destruct (decide (P x)) as [Hx |]; [| reflexivity].
  specialize (Htie x Hr Hx). lia.
Qed.

(** X3.  [sortRules] is stable: when the host finds every id equal to
    itself, the rules that share a priority and an id keep the order in
    which the program lists them. *)
Theorem sortRules_stable (rules : list Rule) (r : Rule) :
  (forall a, localeCompare a a = 0) ->
  filter (same_key r) (sortRules rules) = filter (same_key r) rules.
Proof.
  intros Hrefl. induction rules as [| x rules IH]; [reflexivity |].
  cbn [sortRules foldr]. fold (sortRules rules).
  rewrite insertRule_filter.
  - rewrite !filter_cons, IH. reflexivity.
  - intros y [Hpx Hix] [Hpy Hiy]. unfold compareRules.
    fold (effective_priority x) (effective_priority y).
    rewrite Hpx, Hpy, Z.eqb_refl, Hix, Hiy, Hrefl. cbn. lia.
Qed.
End SortProperties.

Lemma sortRules_keeps_sorted_witness :
  sortRules (H := wordHost) three_rules_sorted = three_rules_sorted.
Proof.
  apply (sortRules_keeps_sorted (H := wordHost) three_rules_sorted).
  unfold three_rules_sorted.
  apply SSorted_cons.
  - apply SSorted_cons.
    + apply SSorted_cons; constructor.
    + constructor; [| constructor]. left. vm_compute. reflexivity.
  - constructor; [| constructor; [| constructor]].
    + right. split; [reflexivity |]. vm_compute. discriminate.
    + left. vm_compute. reflexivity.
Defined.

Lemma codeUnitCompare_refl (a : string) : codeUnitCompare a a = 0.
Proof.
  unfold codeUnitCompare.
  destruct (OrdersEx.String_as_OT.compare_spec a a) as [_ | Hlt | Hlt]; [reflexivity | |];
    exfalso; exact (StrictOrder_Irreflexive (R := OrdersEx.String_as_OT.lt) a Hlt).
Qed.

Lemma sortRules_stable_witness :
  filter (same_key (plain_rule "urgent-a" (Some 5)))
         (sortRules (H := wordHost) (program_rules three_rules_program))
  = filter (same_key (plain_rule "urgent-a" (Some 5))) (program_rules three_rules_program).
Proof.
  apply (sortRules_stable (H := wordHost) (program_rules three_rules_program)
           (plain_rule "urgent-a" (Some 5))).
  exact codeUnitCompare_refl.
Defined.

(** ** The scheduler *)

Section SchedulerSteps.
Context `{JsHost}.

Lemma applyActions_frame ruleActions data ruleId enableActions actionTraces stateDiffs warnings
    s o s' :
  applyActions ruleActions data ruleId enableActions actionTraces stateDiffs warnings s = (o, s') ->
  traces s' = traces s /\ firings s' = firings s /\ hitRuleLimit s' = hitRuleLimit s.
Proof.
  intros Hrun.
  eapply (applyActions_preserves
            (fun s1 => traces s1 = traces s /\ firings s1 = firings s /\
                       hitRuleLimit s1 = hitRuleLimit s));
    try exact Hrun; auto.
Qed.

(** One turn of the loop of [executePass]. *)
Lemma passRules_step data cap enableActions mode rule rest fired0 mutated0 s pr s' :
  passRules data cap enableActions mode (rule :: rest) fired0 mutated0 s = (Ok pr, s') ->
  exists (matched : bool) (T : RuleTrace) (s3 : RunState),
    matched = ct_result (evaluateCondition (st_heap s) (rule_when rule) data) /\
    trace_of_rule T rule /\ rt_evaluatedWhen T = matched /\
    (actions_of rule matched = [] -> rt_stateDiff T = []) /\
    traces s3 = traces s ++ [T] /\
    firings s3 = firings s + (if matched then 1 else 0) /\
    hitRuleLimit s3 = hitRuleLimit s /\
    if firings s3 >=? cap
    then pr = {| fired := matched || fired0;
                 mutated := (enableActions && bool_decide (0 < length (rt_stateDiff T))%nat)
                            || mutated0;
                 stopEarly := true |} /\
         s' = flag_rule_limit s3
    else if matched && stops_pass mode rule
         then pr = {| fired := matched || fired0;
                      mutated := (enableActions && bool_decide (0 < length (rt_stateDiff T))%nat)
                                 || mutated0;
                      stopEarly := true |} /\
              s' = s3
         else passRules data cap enableActions mode rest (matched || fired0)
                ((enableActions && bool_decide (0 < length (rt_stateDiff T))%nat) || mutated0) s3
              = (Ok pr, s').
Proof.
  intros Hrun. cbn [passRules] in Hrun.
  apply bind_Ok_inv in Hrun as (s0 & s0' & Hget & Hrun). injection Hget as <- <-.
  set (matched := ct_result (evaluateCondition (st_heap s) (rule_when rule) data)) in *.
  apply bind_Ok_inv in Hrun as (u & s1 & Hcount & Hrun).
  assert (Hs1 : traces s1 = traces s /\ firings s1 = firings s + (if matched then 1 else 0) /\
                hitRuleLimit s1 = hitRuleLimit s).
  { destruct matched; injection Hcount as _ <-; cbn; repeat split; lia. }
  destruct Hs1 as (Ht1 & Hf1 & Hl1).
  apply bind_Ok_inv in Hrun as ([[actionTraces stateDiffs] warnings] & s2 & Hacts & Hrun).
  assert (Hempty : actions_of rule matched = [] -> stateDiffs = []).
  { unfold actions_of. intros Hnil. rewrite Hnil in Hacts. injection Hacts as _ <- _ _.
    reflexivity. }
  apply applyActions_frame in Hacts as (Ht2 & Hf2 & Hl2).
  apply bind_Ok_inv in Hrun as (u' & s3 & Hpush & Hrun). injection Hpush as _ <-.
  apply bind_Ok_inv in Hrun as (s4 & s4' & Hget & Hrun). injection Hget as <- <-.
  match type of Hrun with context [push_trace ?t s2] => set (T := t) in * end.
  exists matched, T, (push_trace T s2).
  split; [reflexivity |]. split; [repeat split |]. split; [reflexivity |].
  split; [exact Hempty |].
  split; [cbn; rewrite Ht2, Ht1; reflexivity |].
  split; [cbn; rewrite Hf2, Hf1; reflexivity |].
  split; [cbn; rewrite Hl2, Hl1; reflexivity |].
  destruct (firings (push_trace T s2) >=? cap).
  - apply bind_Ok_inv in Hrun as (u'' & s5 & Hflag & Hret).
    injection Hflag as _ <-. injection Hret as <- <-. split; reflexivity.
  - unfold stops_pass, rule_mode_of.
    destruct (matched && _).
    + injection Hrun as <- <-. split; reflexivity.
    + exact Hrun.
Qed.

Lemma matched_count_app (l1 l2 : list RuleTrace) :
  matched_count (l1 ++ l2) = matched_count l1 + matched_count l2.
Proof. unfold matched_count. rewrite filter_app, length_app. lia. Qed.

Lemma matched_count_one (T : RuleTrace) :
  matched_count [T] = if rt_evaluatedWhen T then 1 else 0.
Proof.
  unfold matched_count. rewrite filter_cons, filter_nil.
  destruct (rt_evaluatedWhen T); [rewrite decide_True by reflexivity
                                 | rewrite decide_False by discriminate]; reflexivity.
Qed.

Lemma matched_count_nonneg (l : list RuleTrace) : 0 <= matched_count l.
Proof. unfold matched_count. lia. Qed.

Lemma counting_counted cap s : counting cap s -> counted cap s.
Proof.
  intros (Hf & Hl & Hc). pose proof (matched_count_nonneg (traces s)) as Hn.
  split; [exact Hf |]. split; [rewrite Hl; discriminate |]. split; [intros _; exact Hc |].
  split; [lia |].
  destruct Hc as [Hnil | Hlt]; [| lia]. rewrite Hnil in Hf. change (matched_count []) with 0 in Hf. lia.
Qed.

Lemma passRules_counted data cap enableActions mode rules fired0 mutated0 s pr s' :
  counting cap s ->
  passRules data cap enableActions mode rules fired0 mutated0 s = (Ok pr, s') ->
  counted cap s'.
Proof.
  revert fired0 mutated0 s. induction rules as [| rule rest IH]; intros fired0 mutated0 s Hs Hrun.
  - injection Hrun as _ <-. apply counting_counted. exact Hs.
  - apply passRules_step in Hrun
      as (matched & T & s3 & _ & _ & Hm & _ & Ht3 & Hf3 & Hl3 & Hrun).
    destruct Hs as (Hf & Hl & Hc).
    assert (Hcount3 : firings s3 = matched_count (traces s3)).
    { rewrite Hf3, Ht3, matched_count_app, matched_count_one, Hm, Hf. reflexivity. }
    pose proof (matched_count_nonneg (traces s3)) as Hn.
    assert (Hle : firings s3 <= Z.max 1 cap).
    { rewrite Hf3. destruct Hc as [Hnil | Hlt].
      - rewrite Hnil in Hf. change (matched_count []) with 0 in Hf. destruct matched; lia.
      - destruct matched; lia. }
    destruct (firings s3 >=? cap) eqn:Hcap.
    + destruct Hrun as [_ ->]. apply Z.geb_le in Hcap.
      split; [exact Hcount3 |]. split; [intros _; cbn; lia |].
      split; [cbn; discriminate |]. cbn. lia.
    + rewrite Z.geb_leb in Hcap. apply Z.leb_gt in Hcap.
      destruct (matched && stops_pass mode rule).
      * destruct Hrun as [_ ->].
        split; [exact Hcount3 |]. split; [rewrite Hl3, Hl; discriminate |].
        split; [intros _; right; exact Hcap | lia].
      * eapply IH; [| exact Hrun].
        split; [exact Hcount3 |]. split; [rewrite Hl3; exact Hl |]. right. exact Hcap.
Qed.

Lemma settle_counted data cap enableActions mode fuel loopUntilSettled rules pr s pr' s' :
  counted cap s ->
  settle data cap enableActions mode fuel loopUntilSettled rules pr s = Some (Ok pr', s') ->
  counted cap s'.
Proof.
  revert pr s. induction fuel as [| fuel IH]; intros pr s Hs Hrun; cbn [settle] in Hrun.
  - destruct (_ && _); [discriminate | injection Hrun as _ <-; exact Hs].
  - destruct (_ && _ && _ && negb (hitRuleLimit s)) eqn:Hcond;
      [| injection Hrun as _ <-; exact Hs].
    apply andb_prop in Hcond as [_ Hhit]. apply negb_true_iff in Hhit.
    destruct (executePass _ _ _ _ _ s) as [[pr1 | e] s1] eqn:Hpass; [| discriminate].
    eapply IH; [| exact Hrun].
    eapply passRules_counted; [| exact Hpass].
    destruct Hs as (Hf & _ & Hc & _). split; [exact Hf |]. split; [exact Hhit | auto].
Qed.
End SchedulerSteps.

Section SchedulerRuns.
Context `{JsHost}.

Lemma runPasses_inv fuel program input options h r h' :
  runPasses fuel program input options h = Some (Ok r, h') ->
  exists state h1 pr s pr' s',
    cloneInput input h = (Ok state, h1) /\
    executePass state (execution_cap options) (default false (options ≫= opt_enableActions))
      (execution_mode program options) (sortRules (program_rules program)) (initial_state h1)
      = (Ok pr, s) /\
    settle state (execution_cap options) (default false (options ≫= opt_enableActions))
      (execution_mode program options) fuel (default false (options ≫= opt_loopUntilSettled))
      (sortRules (program_rules program)) pr s = Some (Ok pr', s') /\
    resultState r = state /\ res_actions r = actions s' /\ res_trace r = traces s' /\
    ruleFirings r = firings s' /\ res_hitRuleLimit r = hitRuleLimit s' /\ h' = st_heap s'.
Proof.
  unfold runPasses, execution_cap, execution_mode. intros Hrun.
  destruct (cloneInput input h) as [[state | e] h1]; [| discriminate].
  destruct (executePass _ _ _ _ _ _) as [[pr | e] s] eqn:Hpass; [| discriminate].
  destruct (settle _ _ _ _ _ _ _ _ _) as [[[pr' | e] s'] |] eqn:Hsettle; try discriminate.
  injection Hrun as <- <-. exists state, h1, pr, s, pr', s'. cbn. repeat split; auto.
Qed.

Lemma runProgram_inv fuel program input options h r h' :
  runProgram fuel program input options h = Some (Ok r, h') ->
  exists r0 h0,
    runPasses fuel program input options h = Some (Ok r0, h0) /\
    resultState r = resultState r0 /\ res_actions r = res_actions r0 /\
    res_trace r = res_trace r0 /\ ruleFirings r = ruleFirings r0 /\
    res_hitRuleLimit r = res_hitRuleLimit r0 /\
    res_conflictWarnings r = res_conflictWarnings r0 /\ h0 `prefix_of` h'.
Proof.
  unfold runProgram. intros Hrun.
  destruct (runPasses fuel program input options h) as [[[r0 | e] h0] |]; try discriminate.
  exists r0, h0. split; [reflexivity |].
  destruct (default false (options ≫= opt_evaluateExamples));
    [| injection Hrun as <- <-; repeat split; reflexivity].
  destruct (program_examples program) as [examples |];
    [| injection Hrun as <- <-; repeat split; reflexivity].
  destruct (runExampleList program examples h0) as [[[rs | e] h2] |] eqn:Hex; try discriminate.
  injection Hrun as <- <-. apply runExampleList_frame in Hex. repeat split; auto.
Qed.

Lemma runProgram_counted fuel program input options h r h' :
  runProgram fuel program input options h = Some (Ok r, h') ->
  ruleFirings r = matched_count (res_trace r) /\
  (res_hitRuleLimit r = true -> execution_cap options <= ruleFirings r) /\
  (res_hitRuleLimit r = false -> res_trace r = [] \/ ruleFirings r < execution_cap options) /\
  0 <= ruleFirings r <= Z.max 1 (execution_cap options).
Proof.
  intros Hrun.
  apply runProgram_inv in Hrun as (r0 & h0 & Hp & _ & _ & -> & -> & -> & _).
  apply runPasses_inv in Hp
    as (state & h1 & pr & s & pr' & s' & _ & Hpass & Hsettle & _ & _ & -> & -> & -> & _).
  eapply settle_counted; [| exact Hsettle].
  eapply passRules_counted; [| exact Hpass].
  split; [reflexivity |]. split; [reflexivity |]. left. reflexivity.
Qed.

(** X4.  The firing counter of a result is the number of its rule traces
    whose condition matched: a rule counts once however many actions it
    has, and a rule that runs its [else] branch does not count. *)
Theorem ruleFirings_counts_matched_traces
    (fuel : nat) (program : Program) (input : value)
    (options : option ExecutionOptions) (h h' : heap) (r : ExecutionResult) :
  runProgram fuel program input options h = Some (Ok r, h') ->
  ruleFirings r = matched_count (res_trace r).
Proof. intros Hrun. apply (runProgram_counted _ _ _ _ _ _ _ Hrun). Qed.

(** X5.  The firing cap is kept: a result never counts more firings than
    the cap (than one, for a cap below one); [hitRuleLimit] is raised only
    with the cap reached, and a result with traces that does not raise it
    stayed below the cap. *)
Theorem ruleFirings_within_cap
    (fuel : nat) (program : Program) (input : value)
    (options : option ExecutionOptions) (h h' : heap) (r : ExecutionResult) :
  runProgram fuel program input options h = Some (Ok r, h') ->
  0 <= ruleFirings r <= Z.max 1 (execution_cap options) /\
  (res_hitRuleLimit r = true -> execution_cap options <= ruleFirings r) /\
  (res_hitRuleLimit r = false -> res_trace r = [] \/ ruleFirings r < execution_cap options).
Proof.
  intros Hrun. destruct (runProgram_counted _ _ _ _ _ _ _ Hrun) as (_ & Hhit & Hnot & Hle).
  auto.
Qed.
End SchedulerRuns.

Lemma ruleFirings_counts_matched_traces_witness :
  exists r h',
    runProgram (H := wordHost) 0 two_rules_program order_input (Some all_matches_options) order_heap
      = Some (Ok r, h') /\
    ruleFirings r = matched_count (res_trace r).
Proof.
  destruct (runProgram (H := wordHost) 0 two_rules_program order_input
              (Some all_matches_options) order_heap)
    as [[[r | e] h'] |] eqn:Hrun; try (vm_compute in Hrun; discriminate).
  exists r, h'. split; [reflexivity |].
  exact (ruleFirings_counts_matched_traces (H := wordHost) 0 two_rules_program order_input
           (Some all_matches_options) order_heap h' r Hrun).
Defined.

Lemma ruleFirings_within_cap_witness :
  exists r h',
    runProgram (H := wordHost) 0 two_rules_program order_input (Some cap_one_options) order_heap
      = Some (Ok r, h') /\
    0 <= ruleFirings r <= Z.max 1 (execution_cap (Some cap_one_options)) /\
    (res_hitRuleLimit r = true -> execution_cap (Some cap_one_options) <= ruleFirings r) /\
    (res_hitRuleLimit r = false ->
     res_trace r = [] \/ ruleFirings r < execution_cap (Some cap_one_options)).
Proof.
  destruct (runProgram (H := wordHost) 0 two_rules_program order_input
              (Some cap_one_options) order_heap)
    as [[[r | e] h'] |] eqn:Hrun; try (vm_compute in Hrun; discriminate).
  exists r, h'. split; [reflexivity |].
  exact (ruleFirings_within_cap (H := wordHost) 0 two_rules_program order_input
           (Some cap_one_options) order_heap h' r Hrun).
Defined.

Lemma two_rules_capped_at_one :
  exists r h',
    runProgram (H := wordHost) 0 two_rules_program order_input (Some cap_one_options) order_heap
      = Some (Ok r, h') /\
    ruleFirings r = 1 /\ res_hitRuleLimit r = true /\ length (res_trace r) = 1%nat.
Proof. eexists. eexists. split; [vm_compute; reflexivity |]. repeat split. Qed.

Section FirstMatch.
Context `{JsHost}.

Lemma matched_last_only_snoc (l : list RuleTrace) (T : RuleTrace) :
  Forall (fun t => rt_evaluatedWhen t = false) l -> matched_last_only (l ++ [T]).
Proof.
  intros Hl i t Hi Hm. rewrite length_app. cbn.
  apply lookup_app_Some in Hi as [Hi | [Hlen Hi]].
  - rewrite Forall_forall in Hl. rewrite Hl in Hm; [discriminate |].
    apply list_elem_of_lookup. eauto.
  - apply lookup_lt_Some in Hi. cbn in Hi. lia.
Qed.

Lemma matched_last_only_unmatched (l : list RuleTrace) :
  Forall (fun t => rt_evaluatedWhen t = false) l -> matched_last_only l.
Proof.
  intros Hl i t Hi Hm. rewrite Forall_forall in Hl. rewrite Hl in Hm; [discriminate |].
  apply list_elem_of_lookup. eauto.
Qed.

Lemma matched_last_only_count (l : list RuleTrace) :
  matched_last_only l -> matched_count l <= 1.
Proof.
  induction l as [| t l IH]; intros Hl; [unfold matched_count; cbn; lia |].
  destruct l as [| t' l].
  - rewrite matched_count_one. destruct (rt_evaluatedWhen t); lia.
  - change (t :: t' :: l) with ([t] ++ t' :: l).
    rewrite matched_count_app, matched_count_one.
    destruct (rt_evaluatedWhen t) eqn:Ht.
    + specialize (Hl 0%nat t eq_refl Ht). cbn in Hl. lia.
    + cbn. apply IH. intros i x Hi Hm. specialize (Hl (S i) x Hi Hm). cbn in Hl |- *. lia.
Qed.

Lemma passRules_first_match data cap enableActions mode rules fired0 mutated0 s pr s' :
  (forall rule, rule ∈ rules -> rule_mode_of mode rule = FirstMatch) ->
  Forall (fun t => rt_evaluatedWhen t = false) (traces s) ->
  passRules data cap enableActions mode rules fired0 mutated0 s = (Ok pr, s') ->
  matched_last_only (traces s') /\
  (stopEarly pr = false -> Forall (fun t => rt_evaluatedWhen t = false) (traces s')).
Proof.
  revert fired0 mutated0 s. induction rules as [| rule rest IH];
    intros fired0 mutated0 s Hmode Hs Hrun.
  - injection Hrun as _ <-. split; [apply matched_last_only_unmatched; exact Hs | auto].
  - apply passRules_step in Hrun
      as (matched & T & s3 & _ & _ & Hm & _ & Ht3 & _ & _ & Hrun).
    destruct (firings s3 >=? cap).
    + destruct Hrun as [-> ->]. cbn. rewrite Ht3.
      split; [apply matched_last_only_snoc; exact Hs | discriminate].
    + unfold stops_pass in Hrun. rewrite (Hmode rule) in Hrun by left.
      cbn [is_firstMatch orb] in Hrun. rewrite andb_true_r in Hrun.
      destruct matched.
      * destruct Hrun as [-> ->]. rewrite Ht3.
        split; [apply matched_last_only_snoc; exact Hs | discriminate].
      * eapply IH; [| | exact Hrun].
        -- intros r Hr. apply Hmode. right. exact Hr.
        -- rewrite Ht3. apply Forall_app. split; [exact Hs |]. repeat constructor. exact Hm.
Qed.

Lemma settle_first_match data cap enableActions mode fuel loopUntilSettled rules pr s pr' s' :
  (forall rule, rule ∈ rules -> rule_mode_of mode rule = FirstMatch) ->
  matched_last_only (traces s) ->
  (stopEarly pr = false -> Forall (fun t => rt_evaluatedWhen t = false) (traces s)) ->
  settle data cap enableActions mode fuel loopUntilSettled rules pr s = Some (Ok pr', s') ->
  matched_last_only (traces s').
Proof.
  intros Hmode. revert pr s. induction fuel as [| fuel IH]; intros pr s Hlast Hs Hrun;
    cbn [settle] in Hrun.
  - destruct (_ && _); [discriminate | injection Hrun as _ <-; exact Hlast].
  - destruct (loopUntilSettled && mutated pr && negb (stopEarly pr) && negb (hitRuleLimit s))
      eqn:Hcond; [| injection Hrun as _ <-; exact Hlast].
    apply andb_prop in Hcond as [Hcond _]. apply andb_prop in Hcond as [_ Hstop].
    apply negb_true_iff in Hstop.
    destruct (executePass _ _ _ _ _ s) as [[pr1 | e] s1] eqn:Hpass; [| discriminate].
    destruct (passRules_first_match _ _ _ _ _ _ _ _ _ _ Hmode (Hs Hstop) Hpass) as [Hl1 Hs1].
    eapply IH; eauto.
Qed.

(** X6.  When every rule runs in first-match mode, at most one rule
    fires in the whole execution, and it is the last rule evaluated: after
    a match no further rule is evaluated and no further pass is made. *)
Theorem first_match_fires_at_most_once
    (fuel : nat) (program : Program) (input : value)
    (options : option ExecutionOptions) (h h' : heap) (r : ExecutionResult) :
  (forall rule, rule ∈ program_rules program ->
                rule_mode_of (execution_mode program options) rule = FirstMatch) ->
  runProgram fuel program input options h = Some (Ok r, h') ->
  matched_last_only (res_trace r) /\ ruleFirings r <= 1.
Proof.
  intros Hmode Hrun.
  pose proof (runProgram_counted _ _ _ _ _ _ _ Hrun) as (Hcount & _).
  apply runProgram_inv in Hrun as (r0 & h0 & Hp & _ & _ & Htr & _).
  apply runPasses_inv in Hp
    as (state & h1 & pr & s & pr' & s' & _ & Hpass & Hsettle & _ & _ & Htr0 & _).
  assert (Hmode' : forall rule, rule ∈ sortRules (program_rules program) ->
                     rule_mode_of (execution_mode program options) rule = FirstMatch).
  { intros rule Hr. apply Hmode. rewrite <- sortRules_perm. exact Hr. }
  assert (Hinit : Forall (fun t => rt_evaluatedWhen t = false) (traces (initial_state h1)))
    by constructor.
  destruct (passRules_first_match _ _ _ _ _ _ _ _ _ _ Hmode' Hinit Hpass) as [Hl Hs].
  pose proof (settle_first_match _ _ _ _ _ _ _ _ _ _ _ Hmode' Hl Hs Hsettle) as Hlast.
  rewrite <- Htr0, <- Htr in Hlast. split; [exact Hlast |].
  rewrite Hcount. apply matched_last_only_count. exact Hlast.
Qed.
End FirstMatch.

Lemma first_match_fires_at_most_once_witness :
  exists r h',
    runProgram (H := wordHost) 3 two_rules_program order_input (Some first_match_options) order_heap
      = Some (Ok r, h') /\
    matched_last_only (res_trace r) /\ ruleFirings r <= 1.
Proof.
  destruct (runProgram (H := wordHost) 3 two_rules_program order_input
              (Some first_match_options) order_heap)
    as [[[r | e] h'] |] eqn:Hrun; try (vm_compute in Hrun; discriminate).
  exists r, h'. split; [reflexivity |].
  apply (first_match_fires_at_most_once (H := wordHost) 3 two_rules_program order_input
           (Some first_match_options) order_heap h' r); [| exact Hrun].
  intros rule Hr. unfold rule_mode_of.
  apply list_elem_of_In in Hr. destruct Hr as [<- | [<- | []]]; reflexivity.
Defined.

(** Both rules match the order payload; in first-match mode the second
    is not evaluated and leaves no trace. *)
Lemma first_match_skips_second_rule :
  exists r h',
    runProgram (H := wordHost) 3 two_rules_program order_input (Some first_match_options) order_heap
      = Some (Ok r, h') /\
    map rt_ruleId (res_trace r) = ["discount-high-value"] /\
    getPathValue h' (resultState r) "order.flagged" = VUndef.
Proof. eexists. eexists. split; [vm_compute; reflexivity |]. split; reflexivity. Qed.

Section FullPasses.
Context `{JsHost}.

Lemma passRules_full data cap enableActions mode rules fired0 mutated0 s pr s' :
  (forall rule, rule ∈ rules -> stops_pass mode rule = false) ->
  passRules data cap enableActions mode rules fired0 mutated0 s = (Ok pr, s') ->
  hitRuleLimit s' = false ->
  stopEarly pr = false /\
  exists new, traces s' = traces s ++ new /\ Forall2 trace_of_rule new rules.
Proof.
  revert fired0 mutated0 s. induction rules as [| rule rest IH];
    intros fired0 mutated0 s Hstop Hrun Hhit.
  - injection Hrun as <- <-. split; [reflexivity |]. exists []. rewrite app_nil_r.
    split; [reflexivity | constructor].
  - apply passRules_step in Hrun
      as (matched & T & s3 & _ & HT & _ & _ & Ht3 & _ & _ & Hrun).
    destruct (firings s3 >=? cap).
    + destruct Hrun as [_ ->]. discriminate.
    + rewrite (Hstop rule) in Hrun by left. rewrite andb_false_r in Hrun.
      destruct (IH _ _ _ (fun r Hr => Hstop r (list_elem_of_further _ _ _ Hr)) Hrun Hhit)
        as (Hse & new & Htr & Hall).
      split; [exact Hse |]. exists (T :: new).
      split; [rewrite Htr, Ht3, <- app_assoc; reflexivity | constructor; assumption].
Qed.

Lemma settle_full data cap enableActions mode fuel loopUntilSettled rules pr s pr' s' :
  (forall rule, rule ∈ rules -> stops_pass mode rule = false) ->
  settle data cap enableActions mode fuel loopUntilSettled rules pr s = Some (Ok pr', s') ->
  hitRuleLimit s' = false ->
  exists k new,
    (loopUntilSettled = false -> k = 0%nat) /\
    traces s' = traces s ++ new /\
    Forall2 trace_of_rule new (concat (replicate k rules)).
Proof.
  intros Hstop. revert pr s. induction fuel as [| fuel IH]; intros pr s Hrun Hhit;
    cbn [settle] in Hrun.
  - destruct (_ && _); [discriminate |]. injection Hrun as _ <-.
    exists 0%nat, []. rewrite app_nil_r. repeat split; constructor.
  - destruct (loopUntilSettled && mutated pr && negb (stopEarly pr) && negb (hitRuleLimit s))
      eqn:Hcond.
    + destruct (executePass _ _ _ _ _ s) as [[pr1 | e] s1] eqn:Hpass; [| discriminate].
      destruct (IH _ _ Hrun Hhit) as (k & new & Hk & Htr & Hall).
      assert (Hhit1 : hitRuleLimit s1 = false).
      { destruct (hitRuleLimit s1) eqn:Hh1; [| reflexivity].
        destruct fuel; cbn [settle] in Hrun; rewrite Hh1, andb_false_r in Hrun;
          injection Hrun as _ <-; congruence. }
      destruct (passRules_full _ _ _ _ _ _ _ _ _ _ Hstop Hpass Hhit1) as (_ & new1 & Htr1 & Hall1).
      exists (S k), (new1 ++ new). split.
      * intros Hloop. rewrite Hloop in Hcond. discriminate.
      * split; [rewrite Htr, Htr1, <- app_assoc; reflexivity |].
        cbn [replicate concat]. apply Forall2_app; assumption.
    + injection Hrun as _ <-.
      exists 0%nat, []. rewrite app_nil_r. repeat split; constructor.
Qed.

(** X7.  When no rule can end a pass (all-matches mode, no
    [stopProcessing]) and the cap is not reached, every pass evaluates
    every rule once, in the order of [sortRules]: the traces are those of
    one or more full passes, of exactly one without [loopUntilSettled]. *)
Theorem all_matches_evaluates_every_rule
    (fuel : nat) (program : Program) (input : value)
    (options : option ExecutionOptions) (h h' : heap) (r : ExecutionResult) :
  (forall rule, rule ∈ program_rules program ->
                stops_pass (execution_mode program options) rule = false) ->
  runProgram fuel program input options h = Some (Ok r, h') ->
  res_hitRuleLimit r = false ->
  exists k,
    (default false (options ≫= opt_loopUntilSettled) = false -> k = 1%nat) /\
    (1 <= k)%nat /\
    Forall2 trace_of_rule (res_trace r) (concat (replicate k (sortRules (program_rules program)))).
Proof.
  intros Hstop Hrun Hhit.
  apply runProgram_inv in Hrun as (r0 & h0 & Hp & _ & _ & Htr & _ & Hh & _).
  apply runPasses_inv in Hp
    as (state & h1 & pr & s & pr' & s' & _ & Hpass & Hsettle & _ & _ & Htr0 & _ & Hh0 & _).
  rewrite Hh, Hh0 in Hhit. rewrite Htr, Htr0.
  assert (Hstop' : forall rule, rule ∈ sortRules (program_rules program) ->
                     stops_pass (execution_mode program options) rule = false).
  { intros rule Hr. apply Hstop. rewrite <- sortRules_perm. exact Hr. }
  destruct (settle_full _ _ _ _ _ _ _ _ _ _ _ Hstop' Hsettle Hhit) as (k & new & Hk & Htr' & Hall).
  assert (Hhit1 : hitRuleLimit s = false).
  { destruct (hitRuleLimit s) eqn:Hh1; [| reflexivity].
    destruct fuel; cbn [settle] in Hsettle; rewrite Hh1, andb_false_r in Hsettle;
      injection Hsettle as _ <-; congruence. }
  destruct (passRules_full _ _ _ _ _ _ _ _ _ _ Hstop' Hpass Hhit1) as (_ & new1 & Htr1 & Hall1).
  exists (S k). split; [intros Hloop; rewrite (Hk Hloop); reflexivity |]. split; [lia |].
  rewrite Htr', Htr1. cbn [replicate concat initial_state traces app].
  apply Forall2_app; assumption.
Qed.
End FullPasses.

Lemma all_matches_evaluates_every_rule_witness :
  exists r h' k,
    runProgram (H := wordHost) 0 two_rules_program order_input (Some all_matches_options) order_heap
      = Some (Ok r, h') /\
    (default false (Some all_matches_options ≫= opt_loopUntilSettled) = false -> k = 1%nat) /\
    (1 <= k)%nat /\
    Forall2 trace_of_rule (res_trace r)
      (concat (replicate k (sortRules (H := wordHost) (program_rules two_rules_program)))).
Proof.
  destruct (runProgram (H := wordHost) 0 two_rules_program order_input
              (Some all_matches_options) order_heap)
    as [[[r | e] h'] |] eqn:Hrun; try (vm_compute in Hrun; discriminate).
  destruct (all_matches_evaluates_every_rule (H := wordHost) 0 two_rules_program order_input
              (Some all_matches_options) order_heap h' r) as (k & Hk).
  - intros rule Hr. apply list_elem_of_In in Hr. destruct Hr as [<- | [<- | []]]; reflexivity.
  - exact Hrun.
  - vm_compute in Hrun. injection Hrun as <- _. reflexivity.
  - exists r, h', k. split; [reflexivity | exact Hk].
Defined.

Section Termination.
Context `{JsHost}.

Lemma passRules_progress data cap enableActions mode rules fired0 mutated0 s pr s' :
  (forall rule, rule ∈ rules -> actions_of rule false = []) ->
  passRules data cap enableActions mode rules fired0 mutated0 s = (Ok pr, s') ->
  firings s <= firings s' /\
  (mutated pr = true -> mutated0 = true \/ firings s < firings s').
Proof.
  revert fired0 mutated0 s. induction rules as [| rule rest IH];
    intros fired0 mutated0 s Helse Hrun.
  - injection Hrun as <- <-. split; [lia | intros Hm; left; exact Hm].
  - apply passRules_step in Hrun
      as (matched & T & s3 & _ & _ & _ & Hdiff & _ & Hf3 & _ & Hrun).
    assert (Hmut : ((enableActions && bool_decide (0 < length (rt_stateDiff T))%nat) || mutated0)
                   = true -> mutated0 = true \/ firings s < firings s3).
    { destruct matched; [intros _; right; lia |].
      rewrite (Hdiff (Helse rule ltac:(left))). cbn [length].
      rewrite bool_decide_eq_false_2 by lia. rewrite andb_false_r. intros Hm; left; exact Hm. }
    assert (Hle : firings s <= firings s3) by (destruct matched; lia).
    destruct (firings s3 >=? cap).
    { destruct Hrun as [-> ->]. cbn. split; [exact Hle | exact Hmut]. }
    destruct (matched && stops_pass mode rule).
    { destruct Hrun as [-> ->]. cbn. split; [exact Hle | exact Hmut]. }
    destruct (IH _ _ _ (fun r Hr => Helse r (list_elem_of_further _ _ _ Hr)) Hrun) as [Hle' Hm'].
    split; [lia |]. intros Hm. destruct (Hm' Hm) as [Hm0 | Hlt]; [| right; lia].
    destruct (Hmut Hm0) as [? | ?]; [left; assumption | right; lia].
Qed.

Lemma settle_terminates data cap enableActions mode fuel loopUntilSettled rules pr s :
  (forall rule, rule ∈ rules -> actions_of rule false = []) ->
  counted cap s ->
  (mutated pr = true -> 0 < firings s) ->
  (mutated pr = true -> (Z.to_nat (cap - firings s) <= fuel)%nat) ->
  is_Some (settle data cap enableActions mode fuel loopUntilSettled rules pr s).
Proof.
  intros Helse. revert pr s. induction fuel as [| fuel IH]; intros pr s Hs Hpos Hfuel;
    cbn [settle];
    destruct (loopUntilSettled && mutated pr && negb (stopEarly pr) && negb (hitRuleLimit s))
      eqn:Hcond; try (eexists; reflexivity);
    apply andb_prop in Hcond as [Hcond Hhit]; apply andb_prop in Hcond as [Hcond _];
    apply andb_prop in Hcond as [_ Hmut]; apply negb_true_iff in Hhit;
    specialize (Hpos Hmut); specialize (Hfuel Hmut);
    destruct Hs as (Hf & _ & Hc & _);
    (assert (Hlt : firings s < cap);
     [ destruct (Hc Hhit) as [Hnil | Hlt]; [| exact Hlt];
       rewrite Hnil in Hf; change (matched_count []) with 0 in Hf; lia |]).
  - lia.
  - destruct (executePass _ _ _ _ _ s) as [[pr1 | e] s1] eqn:Hpass; [| eexists; reflexivity].
    destruct (passRules_progress _ _ _ _ _ _ _ _ _ _ Helse Hpass) as [Hle Hprog].
    apply IH.
    + eapply passRules_counted; [| exact Hpass].
      split; [exact Hf |]. split; [exact Hhit | right; exact Hlt].
    + intros Hm. lia.
    + intros Hm. destruct (Hprog Hm) as [? | ?]; [discriminate | lia].
Qed.

Lemma runPasses_terminates fuel program input options h :
  (forall rule, rule ∈ program_rules program -> actions_of rule false = []) ->
  (Z.to_nat (execution_cap options) <= fuel)%nat ->
  is_Some (runPasses fuel program input options h).
Proof.
  intros Helse Hfuel. unfold runPasses.
  destruct (cloneInput input h) as [[state | e] h1]; [| eauto].
  destruct (executePass _ _ _ _ _ _) as [[pr | e] s] eqn:Hpass; [| eauto].
  assert (Helse' : forall rule, rule ∈ sortRules (program_rules program) ->
                     actions_of rule false = []).
  { intros rule Hr. apply Helse. rewrite <- sortRules_perm. exact Hr. }
  destruct (passRules_progress _ _ _ _ _ _ _ _ _ _ Helse' Hpass) as [Hle Hprog].
  cbn [initial_state firings] in Hle, Hprog.
  destruct (settle_terminates state (default 1000 (options ≫= opt_maxRuleFirings))
              (default false (options ≫= opt_enableActions))
              (default (normalizeMode (program_ruleEvaluation program)) (options ≫= opt_mode))
              fuel (default false (options ≫= opt_loopUntilSettled))
              (sortRules (program_rules program)) pr s Helse') as [[[pr' | e] s'] ->]; eauto.
  - eapply passRules_counted; [| exact Hpass].
    split; [reflexivity |]. split; [reflexivity |]. left. reflexivity.
  - intros Hm. destruct (Hprog Hm) as [? | ?]; [discriminate | lia].
  - intros Hm. unfold execution_cap in Hfuel. lia.
Qed.

Lemma runExampleList_returns program examples h :
  is_Some (runExampleList program examples h).
Proof.
  revert h. induction examples as [| example rest IH]; intros h; cbn [runExampleList]; [eauto |].
  unfold runExample.
  destruct (runPasses_single_pass 0 program (example_input example) (Some enabled_options) h
              eq_refl) as [[[r | e] h1] ->]; [| eauto].
  destruct (expectationMatches _ _ h1) as [[b | e] h2]; [| eauto].
  destruct (IH h2) as [[[rs | e] h3] ->]; eauto.
Qed.

(** X8.  As long as no rule has an [else] branch, the cap on rule firings
    bounds the passes of [runProgram]: with fuel for as many passes as the
    cap it leaves the loop (and returns or raises). *)
Theorem runProgram_settles_without_else
    (fuel : nat) (program : Program) (input : value)
    (options : option ExecutionOptions) (h : heap) :
  (forall rule, rule ∈ program_rules program -> default [] (rule_else rule) = []) ->
  (Z.to_nat (execution_cap options) <= fuel)%nat ->
  exists o h', runProgram fuel program input options h = Some (o, h').
Proof.
  intros Helse Hfuel. unfold runProgram.
  destruct (runPasses_terminates fuel program input options h Helse Hfuel)
    as [[[r | e] h1] ->]; [| eauto].
  destruct (default false (options ≫= opt_evaluateExamples)); [| eauto].
  destruct (program_examples program) as [examples |]; [| eauto].
  destruct (runExampleList_returns program examples h1) as [[[rs | e] h2] ->]; eauto.
Qed.
End Termination.

Lemma runProgram_settles_without_else_witness :
  exists o h',
    runProgram (H := wordHost) 1000 two_rules_program order_input (Some first_match_options)
      order_heap = Some (o, h').
Proof.
  apply (runProgram_settles_without_else (H := wordHost) 1000 two_rules_program order_input
           (Some first_match_options) order_heap).
  - intros rule Hr. apply list_elem_of_In in Hr. destruct Hr as [<- | [<- | []]]; reflexivity.
  - vm_compute. lia.
Defined.

(** ** The action log, the action ids and the conflict warnings *)

Section ActionLog.
Context `{JsHost}.

Lemma on_heap_inv {A} (m : M heap A) (s s' : RunState) (a : A) :
  on_heap m s = (Ok a, s') -> exists h', m (st_heap s) = (Ok a, h') /\ s' = with_heap h' s.
Proof.
  unfold on_heap. destruct (m (st_heap s)) as [o h']. intros [= -> <-]. eauto.
Qed.

Lemma track_write_inv path ruleId actionId enableActions s c w s' :
  track_write path ruleId actionId enableActions s = (Ok (c, w), s') ->
  c = priorWrites s !! path /\
  w = (fun c => conflict_warning path c ruleId actionId) <$> (priorWrites s !! path) /\
  s' = if enableActions
       then with_priorWrites
              (<[path := {| writer_actionId := actionId; writer_ruleId := ruleId |}]>
                 (priorWrites s)) s
       else s.
Proof.
  unfold track_write. destruct enableActions; cbn; intros [= <- <- <-]; auto.
Qed.

Lemma applyAction_outcome action data ruleId actionId enableActions s out s' :
  applyAction action data ruleId actionId enableActions s = (Ok out, s') ->
  (actions s' = actions s /\ conflictWarnings s' = conflictWarnings s /\
   priorWrites s' =
     match write_path action with
     | Some p => if enableActions
                 then <[p := {| writer_actionId := actionId; writer_ruleId := ruleId |}]>
                        (priorWrites s)
                 else priorWrites s
     | None => priorWrites s
     end) /\
  (at_action (ao_trace out) = action /\ at_actionId (ao_trace out) = actionId /\
   at_ruleId (ao_trace out) = ruleId /\ at_applied (ao_trace out) = enableActions) /\
  (if enableActions then exists l, ao_log out = Some l /\ logs l (ao_trace out)
   else ao_log out = None) /\
  ao_warning out =
    match write_path action with
    | Some p => (fun c => conflict_warning p c ruleId actionId) <$> (priorWrites s !! p)
    | None => None
    end /\
  at_conflict (ao_trace out) =
    (fun p => bool_decide (is_Some (priorWrites s !! p))) <$> write_path action.
Proof.
  intros Hrun.
  destruct action as [target vop | target delta | target vop | event payload | toQueue reason];
    cbn [applyAction] in Hrun.
  - apply bind_Ok_inv in Hrun as (s0 & s0' & Hget & Hrun). injection Hget as <- <-.
    apply bind_Ok_inv in Hrun as ([previous next] & s1 & Hset & Hrun).
    apply bind_Ok_inv in Hrun as ([conflict warning] & s2 & Htrack & Hrun).
    apply track_write_inv in Htrack as (-> & -> & ->).
    injection Hrun as <- <-.
    destruct enableActions.
    + apply on_heap_inv in Hset as (h' & _ & ->). cbn.
      repeat split; eauto 10. eexists. split; [reflexivity |]. repeat split.
    + injection Hset as <- <- <-. cbn. repeat split.
  - apply bind_Ok_inv in Hrun as (s0 & s0' & Hget & Hrun). injection Hget as <- <-.
    apply bind_Ok_inv in Hrun as (diffs & s1 & Hset & Hrun).
    apply bind_Ok_inv in Hrun as ([conflict warning] & s2 & Htrack & Hrun).
    apply track_write_inv in Htrack as (-> & -> & ->).
    injection Hrun as <- <-.
    destruct enableActions.
    + apply bind_Ok_inv in Hset as ([previous next] & s1' & Hset & Hret).
      injection Hret as <- <-.
      apply on_heap_inv in Hset as (h' & _ & ->). cbn.
      repeat split; eauto 10. eexists. split; [reflexivity |]. repeat split.
    + injection Hset as <- <-. cbn. repeat split.
  - apply bind_Ok_inv in Hrun as (s0 & s0' & Hget & Hrun). injection Hget as <- <-.
    apply bind_Ok_inv in Hrun as (nextArray & s1 & Halloc & Hrun).
    apply on_heap_inv in Halloc as (h1 & _ & ->).
    apply bind_Ok_inv in Hrun as (beforeValue & s2 & Hbefore & Hrun).
    assert (Hs2 : exists h2, s2 = with_heap h2 s).
    { destruct (is_array _ _); [injection Hbefore as _ <-; eauto |].
      destruct (strict_eq _ _); [| injection Hbefore as _ <-; eauto].
      apply on_heap_inv in Hbefore as (h2 & _ & ->). eauto. }
    destruct Hs2 as (h2 & ->). clear Hbefore.
    apply bind_Ok_inv in Hrun as (diffs & s3 & Hset & Hrun).
    apply bind_Ok_inv in Hrun as ([conflict warning] & s4 & Htrack & Hrun).
    apply track_write_inv in Htrack as (-> & -> & ->).
    injection Hrun as <- <-.
    destruct enableActions.
    + apply bind_Ok_inv in Hset as (u & s3' & Hset & Hret).
      injection Hret as <- <-.
      apply on_heap_inv in Hset as (h' & _ & ->). cbn.
      repeat split; eauto 10. eexists. split; [reflexivity |]. repeat split.
    + injection Hset as <- <-. cbn. repeat split.
  - injection Hrun as <- <-. cbn. repeat split.
    destruct enableActions; [| reflexivity]. eexists. split; [reflexivity |]. repeat split.
  - apply bind_Ok_inv in Hrun as (s0 & s0' & Hget & Hrun). injection Hget as <- <-.
    apply bind_Ok_inv in Hrun as (nextRoute & s1 & Halloc & Hrun).
    apply on_heap_inv in Halloc as (h1 & _ & ->).
    apply bind_Ok_inv in Hrun as (diffs & s3 & Hset & Hrun).
    apply bind_Ok_inv in Hrun as ([conflict warning] & s4 & Htrack & Hrun).
    apply track_write_inv in Htrack as (-> & -> & ->).
    injection Hrun as <- <-.
    destruct enableActions.
    + apply bind_Ok_inv in Hset as (u & s3' & Hset & Hret).
      injection Hret as <- <-.
      apply on_heap_inv in Hset as (h' & _ & ->). cbn.
      repeat split; eauto 10. eexists. split; [reflexivity |]. repeat split.
    + injection Hset as <- <-. cbn. repeat split.
Qed.


Lemma pushes_inv (ow : option string) (ol : option NormalizedActionLog)
    (s1 s2 s3 : RunState) (u u' : unit) :
  (match ow with Some w => modify (push_conflictWarning w) | None => ret tt end) s1 = (Ok u, s2) ->
  (match ol with Some l => modify (push_action l) | None => ret tt end) s2 = (Ok u', s3) ->
  priorWrites s3 = priorWrites s1 /\
  actions s3 = actions s1 ++ option_list ol /\
  conflictWarnings s3 = conflictWarnings s1 ++ option_list ow.
Proof.
  destruct ow, ol; cbn; intros Hw Hl; injection Hw as _ <-; injection Hl as _ <-; cbn;
    rewrite ?app_nil_r; auto.
Qed.

Lemma outcome_logs (e : bool) (out : ActionOutcome) :
  at_applied (ao_trace out) = e ->
  (if e then exists l, ao_log out = Some l /\ logs l (ao_trace out) else ao_log out = None) ->
  Forall2 logs (option_list (ao_log out)) (filter applied [ao_trace out]) /\
  length (option_list (ao_log out)) = if e then 1%nat else 0%nat.
Proof.
  intros Happlied Hlog. rewrite filter_cons, filter_nil. unfold applied at 1.
  destruct e.
  - destruct Hlog as (l & -> & Hl). rewrite decide_True by exact Happlied.
    split; [cbn; constructor; [exact Hl | constructor] | reflexivity].
  - rewrite Hlog, decide_False by (unfold applied; rewrite Happlied; discriminate).
    split; [constructor | reflexivity].
Qed.

Lemma tracked_step (prev : list ActionTrace) (e : bool) (t : ActionTrace) (w : Writer)
    (pw : gmap string Writer) :
  at_applied t = e ->
  (forall p, is_Some (pw !! p) <-> Exists (wrote p) prev) ->
  forall p,
    is_Some (match write_path (at_action t) with
             | Some q => if e then <[q := w]> pw else pw
             | None => pw
             end !! p) <-> Exists (wrote p) (prev ++ [t]).
Proof.
  intros Happlied Hw p. rewrite Exists_app, <- Hw, Exists_cons, Exists_nil.
  unfold wrote. rewrite Happlied.
  destruct (write_path (at_action t)) as [q |]; [destruct e |].
  - destruct (decide (q = p)) as [-> | Hne].
    + rewrite lookup_insert_eq. split; [intros _; right; left; split; reflexivity | eauto].
    + rewrite lookup_insert_ne by exact Hne.
      split; [intros Hs; left; exact Hs |].
      intros [Hs | [[_ [= Heq]] | []]]; [exact Hs | contradiction].
  - split; [intros Hs; left; exact Hs | intros [Hs | [[[=] _] | []]]; exact Hs].
  - split; [intros Hs; left; exact Hs | intros [Hs | [[_ [=]] | []]]; exact Hs].
Qed.

Lemma applyActions_log prev ruleActions data ruleId e ats sds ws s ats' sds' ws' s' :
  (forall p, is_Some (priorWrites s !! p) <-> Exists (wrote p) (prev ++ ats)) ->
  applyActions ruleActions data ruleId e ats sds ws s = (Ok (ats', sds', ws'), s') ->
  exists newT newL newW,
    ats' = ats ++ newT /\ ws' = ws ++ newW /\
    actions s' = actions s ++ newL /\
    conflictWarnings s' = conflictWarnings s ++ newW /\
    Forall2 logs newL (filter applied newT) /\
    (forall p, is_Some (priorWrites s' !! p) <-> Exists (wrote p) (prev ++ ats ++ newT)) /\
    (forall j a, newT !! j = Some a ->
       at_ruleId a = ruleId /\ at_applied a = e /\
       at_actionId a = act_id e (length (actions s) + length ats) j /\
       flags_conflict (prev ++ ats ++ take j newT) a).
Proof.
  revert ats sds ws s. induction ruleActions as [| action rest IH]; intros ats sds ws s Hw Hrun.
  - injection Hrun as <- _ <- <-. exists [], [], [].
    rewrite !app_nil_r. repeat split; try constructor; try apply Hw; try discriminate.
  - cbn [applyActions] in Hrun.
    apply bind_Ok_inv in Hrun as (s0 & s0' & Hget & Hrun). injection Hget as <- <-.
    apply bind_Ok_inv in Hrun as (out & s1 & Hact & Hrun).
    apply applyAction_outcome in Hact
      as ((Ha1 & Hc1 & Hp1) & (Haction & Hid & Hrule & Happlied) & Hlog & Hwarn & Hconf).
    apply bind_Ok_inv in Hrun as (u & s2 & Hpushw & Hrun).
    apply bind_Ok_inv in Hrun as (u' & s3 & Hpushl & Hrun).
    destruct (pushes_inv _ _ _ _ _ _ _ Hpushw Hpushl) as (Hp3 & Ha3 & Hc3).
    destruct (outcome_logs e out Happlied Hlog) as [Hlogs Hlen].
    set (t := ao_trace out) in *.
    assert (Hw3 : forall p, is_Some (priorWrites s3 !! p) <-> Exists (wrote p) (prev ++ (ats ++ [t]))).
    { intros p. rewrite Hp3, Hp1, <- Haction, app_assoc.
      apply tracked_step; [exact Happlied | exact Hw]. }
    assert (Hrun' : applyActions rest data ruleId e (ats ++ [t]) (sds ++ ao_diffs out)
                      (ws ++ option_list (ao_warning out)) s3 = (Ok (ats', sds', ws'), s')).
    { destruct (ao_warning out); [exact Hrun | rewrite app_nil_r; exact Hrun]. }
    destruct (IH _ _ _ _ Hw3 Hrun')
      as (newT & newL & newW & -> & -> & Hacts & Hcw & Hl & Hw' & Hall).
    exists (t :: newT), (option_list (ao_log out) ++ newL), (option_list (ao_warning out) ++ newW).
    split; [rewrite <- app_assoc; reflexivity |].
    split; [rewrite <- app_assoc; reflexivity |].
    split; [rewrite Hacts, Ha3, Ha1, <- app_assoc; reflexivity |].
    split; [rewrite Hcw, Hc3, Hc1, <- app_assoc; reflexivity |].
    split.
    { change (t :: newT) with ([t] ++ newT). rewrite filter_app.
      apply Forall2_app; assumption. }
    split.
    { intros p. rewrite Hw', <- app_assoc. reflexivity. }
    intros [| j] a Hj.
    + injection Hj as <-. split; [exact Hrule |]. split; [exact Happlied |]. split.
      * rewrite Hid. unfold act_id. f_equal. f_equal. rewrite Nat2Z.inj_add.
        destruct e; lia.
      * unfold flags_conflict. fold t in Hconf. rewrite Hconf, Haction.
        destruct (write_path action) as [q |]; [| reflexivity].
        cbn. f_equal. apply bool_decide_ext. rewrite app_nil_r. apply Hw.
    + cbn in Hj. destruct (Hall j a Hj) as (Hr & Hap & Hi & Hf).
      split; [exact Hr |]. split; [exact Hap |]. split.
      * rewrite Hi. unfold act_id. f_equal. f_equal.
        rewrite Ha3, Ha1, !length_app, Hlen, !Nat2Z.inj_add. cbn [length].
        destruct e; lia.
      * cbn [take]. rewrite <- app_assoc in Hf. exact Hf.
Qed.


Lemma all_actions_snoc (l : list RuleTrace) (T : RuleTrace) :
  all_actions (l ++ [T]) = all_actions l ++ rt_actionsApplied T.
Proof. unfold all_actions. rewrite flat_map_app. cbn. rewrite app_nil_r. reflexivity. Qed.

Lemma push_trace_logged e s s1 s2 ruleActions data ruleId ats sds ws T :
  logged e s ->
  priorWrites s1 = priorWrites s -> actions s1 = actions s ->
  conflictWarnings s1 = conflictWarnings s -> traces s1 = traces s ->
  applyActions ruleActions data ruleId e [] [] [] s1 = (Ok (ats, sds, ws), s2) ->
  rt_actionsApplied T = ats -> rt_ruleId T = ruleId -> default [] (rt_warnings T) = ws ->
  rt_warnings T <> Some [] ->
  logged e (push_trace T s2).
Proof.
  intros (Hlogs & Hwarn & Hwrites & Hconf & Hids & Hsome) Hp1 Ha1 Hc1 Ht1 Hrun HT Hrule HTw HTs.
  pose proof (applyActions_frame _ _ _ _ _ _ _ _ _ _ Hrun) as (Ht2 & _ & _).
  apply (applyActions_log (all_actions (traces s))) in Hrun
      as (newT & newL & newW & Hats & Hws & Hacts & Hcw & Hl & Hw' & Hall);
    [| intros p; rewrite app_nil_r, Hp1; apply Hwrites].
  cbn [app] in Hats, Hws, Hw', Hall. subst ats ws.
  unfold logged. cbn [push_trace traces actions conflictWarnings priorWrites].
  rewrite Ht2, Ht1, all_actions_snoc, HT.
  split; [rewrite Hacts, Ha1, filter_app; apply Forall2_app; assumption |].
  split; [rewrite Hcw, Hc1, Hwarn, flat_map_app; cbn; rewrite HTw, app_nil_r; reflexivity |].
  split; [exact Hw' |].
  split; [| split; [| apply Forall_app; split; [exact Hsome | constructor; [exact HTs | constructor]]]].
  - intros k a Hk.
    destruct (decide (k < length (all_actions (traces s)))%nat) as [Hlt | Hge].
    + rewrite lookup_app_l in Hk by exact Hlt.
      rewrite take_app_le by lia. apply Hconf. exact Hk.
    + rewrite lookup_app_r in Hk by lia.
      rewrite take_app_ge by lia.
      apply (Hall _ _ Hk).
  - intros i t j a Hi Hj.
    destruct (decide (i < length (traces s))%nat) as [Hlt | Hge].
    + rewrite lookup_app_l in Hi by exact Hlt.
      rewrite take_app_le by lia. apply (Hids _ _ _ _ Hi Hj).
    + rewrite lookup_app_r in Hi by lia.
      destruct (i - length (traces s))%nat eqn:Hd; [| destruct n; discriminate].
      injection Hi as <-. rewrite HT in Hj.
      destruct (Hall _ _ Hj) as (Hr & Hap & Hid & _).
      split; [rewrite Hr, Hrule; reflexivity |]. split; [exact Hap |].
      rewrite Hid. f_equal.
      rewrite take_app_ge by lia.
      replace (i - length (traces s))%nat with 0%nat by lia. cbn [take]. rewrite app_nil_r.
      rewrite Ha1, (Forall2_length _ _ _ Hlogs). cbn [length]. lia.
Qed.

Lemma passRules_logged data cap e mode rules fired0 mutated0 s pr s' :
  logged e s ->
  passRules data cap e mode rules fired0 mutated0 s = (Ok pr, s') ->
  logged e s'.
Proof.
  revert fired0 mutated0 s. induction rules as [| rule rest IH]; intros fired0 mutated0 s Hs Hrun.
  - injection Hrun as _ <-. exact Hs.
  - cbn [passRules] in Hrun.
    apply bind_Ok_inv in Hrun as (s0 & s0' & Hget & Hrun). injection Hget as <- <-.
    set (matched := ct_result (evaluateCondition (st_heap s) (rule_when rule) data)) in *.
    apply bind_Ok_inv in Hrun as (u & s1 & Hcount & Hrun).
    assert (Hs1 : priorWrites s1 = priorWrites s /\ actions s1 = actions s /\
                  conflictWarnings s1 = conflictWarnings s /\ traces s1 = traces s).
    { destruct matched; injection Hcount as _ <-; cbn; repeat split. }
    destruct Hs1 as (Hp1 & Ha1 & Hc1 & Ht1).
    apply bind_Ok_inv in Hrun as ([[actionTraces stateDiffs] warnings] & s2 & Hacts & Hrun).
    apply bind_Ok_inv in Hrun as (u' & s3 & Hpush & Hrun). injection Hpush as _ <-.
    match type of Hrun with context [push_trace ?t s2] => set (T := t) in * end.
    assert (Hs3 : logged e (push_trace T s2)).
    { eapply push_trace_logged; try exact Hacts; try eassumption; try reflexivity.
      - cbn. destruct warnings; reflexivity.
      - cbn. destruct warnings; discriminate. }
    apply bind_Ok_inv in Hrun as (s4 & s4' & Hget & Hrun). injection Hget as <- <-.
    destruct (firings (push_trace T s2) >=? cap).
    + apply bind_Ok_inv in Hrun as (u'' & s5 & Hflag & Hret).
      injection Hflag as _ <-. injection Hret as _ <-. exact Hs3.
    + destruct (matched && _).
      * injection Hrun as _ <-. exact Hs3.
      * eapply IH; [exact Hs3 | exact Hrun].
Qed.

Lemma settle_logged data cap e mode fuel loopUntilSettled rules pr s pr' s' :
  logged e s ->
  settle data cap e mode fuel loopUntilSettled rules pr s = Some (Ok pr', s') ->
  logged e s'.
Proof.
  revert pr s. induction fuel as [| fuel IH]; intros pr s Hs Hrun; cbn [settle] in Hrun.
  - destruct (_ && _); [discriminate | injection Hrun as _ <-; exact Hs].
  - destruct (_ && _ && _ && negb (hitRuleLimit s));
      [| injection Hrun as _ <-; exact Hs].
    destruct (executePass _ _ _ _ _ s) as [[pr1 | e1] s1] eqn:Hpass; [| discriminate].
    eapply IH; [| exact Hrun]. eapply passRules_logged; [exact Hs | exact Hpass].
Qed.

Lemma initial_state_logged e h : logged e (initial_state h).
Proof.
  unfold logged. cbn. split; [constructor |]. split; [reflexivity |]. split.
  - intros p. rewrite lookup_empty, Exists_nil. split; [intros [? [=]] | intros []].
  - split; [intros; discriminate |]. split; [intros; discriminate | constructor].
Qed.

Lemma runProgram_logged fuel program input options h r h' :
  runProgram fuel program input options h = Some (Ok r, h') ->
  exists s,
    logged (default false (options ≫= opt_enableActions)) s /\
    res_actions r = actions s /\ res_trace r = traces s /\
    res_conflictWarnings r = match conflictWarnings s with [] => None | ws => Some ws end.
Proof.
  intros Hrun.
  apply runProgram_inv in Hrun as (r0 & h0 & Hp & _ & -> & -> & _ & _ & -> & _).
  pose proof Hp as Hp'.
  apply runPasses_inv in Hp'
    as (state & h1 & pr & s & pr' & s' & Hclone & Hpass & Hsettle & _ & Ha & Ht & _).
  exists s'. split.
  - eapply settle_logged; [| exact Hsettle].
    eapply passRules_logged; [| exact Hpass]. apply initial_state_logged.
  - split; [exact Ha |]. split; [exact Ht |].
    unfold runPasses in Hp. rewrite Hclone in Hp.
    unfold execution_cap, execution_mode in Hpass, Hsettle.
    rewrite Hpass, Hsettle in Hp. injection Hp as <- _. reflexivity.
Qed.

(** X9.  The action log of a result lists, in order, exactly the actions
    that the rule traces record as applied: entry by entry the same action
    id, rule id, kind, path and values before and after. *)
Theorem action_log_lists_applied_actions
    (fuel : nat) (program : Program) (input : value)
    (options : option ExecutionOptions) (h h' : heap) (r : ExecutionResult) :
  runProgram fuel program input options h = Some (Ok r, h') ->
  Forall2 logs (res_actions r) (filter applied (all_actions (res_trace r))).
Proof.
  intros Hrun. apply runProgram_logged in Hrun as (s & (Hlogs & _) & -> & -> & _).
  exact Hlogs.
Qed.

(** X10.  The conflict warnings of a result are the warnings of its rule
    traces, in order; the member is absent exactly when no rule trace has
    warnings. *)
Theorem conflict_warnings_collect_rule_warnings
    (fuel : nat) (program : Program) (input : value)
    (options : option ExecutionOptions) (h h' : heap) (r : ExecutionResult) :
  runProgram fuel program input options h = Some (Ok r, h') ->
  default [] (res_conflictWarnings r)
    = flat_map (fun t => default [] (rt_warnings t)) (res_trace r) /\
  (res_conflictWarnings r = None <-> Forall (fun t => rt_warnings t = None) (res_trace r)).
Proof.
  intros Hrun.
  apply runProgram_logged in Hrun as (s & (_ & Hwarn & _ & _ & _ & Hsome) & _ & -> & ->).
  rewrite Hwarn. clear Hwarn. split.
  - destruct (flat_map _ (traces s)); reflexivity.
  - induction Hsome as [| t l Ht _ IH]; cbn [flat_map].
    + split; [constructor | reflexivity].
    + destruct (rt_warnings t) as [[| w ws] |] eqn:Hw; cbn.
      * contradiction.
      * split; [discriminate | intros Hall; inversion Hall; congruence].
      * rewrite IH. split; [intros Hl; constructor; [exact Hw | exact Hl] |].
        intros Hall. inversion Hall. assumption.
Qed.

(** X11.  An action that writes a path is flagged as a conflict exactly
    when an action applied earlier in the run, by any rule and in any pass,
    wrote the same path; the values written play no part, and an action
    that was only evaluated is never the cause of a conflict. *)
Theorem conflict_flag_iff_earlier_applied_write
    (fuel : nat) (program : Program) (input : value)
    (options : option ExecutionOptions) (h h' : heap) (r : ExecutionResult) :
  runProgram fuel program input options h = Some (Ok r, h') ->
  forall k a, all_actions (res_trace r) !! k = Some a ->
              flags_conflict (take k (all_actions (res_trace r))) a.
Proof.
  intros Hrun. apply runProgram_logged in Hrun as (s & (_ & _ & _ & Hconf & _) & _ & -> & _).
  exact Hconf.
Qed.

(** X12.  The id of an action is [act-] followed by the length of the
    action log at the start of its rule, plus its position in the rule
    counted twice when actions are enabled and once when they are not,
    plus one. *)
Theorem action_ids_count_log_and_position
    (fuel : nat) (program : Program) (input : value)
    (options : option ExecutionOptions) (h h' : heap) (r : ExecutionResult) :
  runProgram fuel program input options h = Some (Ok r, h') ->
  forall i t j a,
    res_trace r !! i = Some t -> rt_actionsApplied t !! j = Some a ->
    at_ruleId a = rt_ruleId t /\
    at_applied a = default false (options ≫= opt_enableActions) /\
    at_actionId a
      = act_id (default false (options ≫= opt_enableActions))
               (length (filter applied (all_actions (take i (res_trace r))))) j.
Proof.
  intros Hrun. apply runProgram_logged in Hrun as (s & (_ & _ & _ & _ & Hids & _) & _ & -> & _).
  exact Hids.
Qed.
End ActionLog.

Lemma action_log_lists_applied_actions_witness :
  exists r h',
    runProgram (H := wordHost) 0 status_program order_input (Some all_matches_options) order_heap
      = Some (Ok r, h') /\
    Forall2 logs (res_actions r) (filter applied (all_actions (res_trace r))).
Proof.
  destruct (runProgram (H := wordHost) 0 status_program order_input
              (Some all_matches_options) order_heap)
    as [[[r | e] h'] |] eqn:Hrun; try (vm_compute in Hrun; discriminate).
  exists r, h'. split; [reflexivity |].
  exact (action_log_lists_applied_actions (H := wordHost) _ _ _ _ _ _ _ Hrun).
Defined.

Lemma conflict_warnings_collect_rule_warnings_witness :
  exists r h',
    runProgram (H := wordHost) 0 status_program order_input (Some all_matches_options) order_heap
      = Some (Ok r, h') /\
    default [] (res_conflictWarnings r)
      = flat_map (fun t => default [] (rt_warnings t)) (res_trace r) /\
    (res_conflictWarnings r = None <-> Forall (fun t => rt_warnings t = None) (res_trace r)).
Proof.
  destruct (runProgram (H := wordHost) 0 status_program order_input
              (Some all_matches_options) order_heap)
    as [[[r | e] h'] |] eqn:Hrun; try (vm_compute in Hrun; discriminate).
  exists r, h'. split; [reflexivity |].
  exact (conflict_warnings_collect_rule_warnings (H := wordHost) _ _ _ _ _ _ _ Hrun).
Defined.

Lemma conflict_flag_iff_earlier_applied_write_witness :
  exists r h',
    runProgram (H := wordHost) 0 status_program order_input (Some all_matches_options) order_heap
      = Some (Ok r, h') /\
    forall k a, all_actions (res_trace r) !! k = Some a ->
                flags_conflict (take k (all_actions (res_trace r))) a.
Proof.
  destruct (runProgram (H := wordHost) 0 status_program order_input
              (Some all_matches_options) order_heap)
    as [[[r | e] h'] |] eqn:Hrun; try (vm_compute in Hrun; discriminate).
  exists r, h'. split; [reflexivity |].
  exact (conflict_flag_iff_earlier_applied_write (H := wordHost) _ _ _ _ _ _ _ Hrun).
Defined.

Lemma action_ids_count_log_and_position_witness :
  exists r h',
    runProgram (H := wordHost) 0 status_program order_input (Some all_matches_options) order_heap
      = Some (Ok r, h') /\
    forall i t j a,
      res_trace r !! i = Some t -> rt_actionsApplied t !! j = Some a ->
      at_ruleId a = rt_ruleId t /\
      at_applied a = default false (Some all_matches_options ≫= opt_enableActions) /\
      at_actionId a
        = act_id (default false (Some all_matches_options ≫= opt_enableActions))
                 (length (filter applied (all_actions (take i (res_trace r))))) j.
Proof.
  destruct (runProgram (H := wordHost) 0 status_program order_input
              (Some all_matches_options) order_heap)
    as [[[r | e] h'] |] eqn:Hrun; try (vm_compute in Hrun; discriminate).
  exists r, h'. split; [reflexivity |].
  exact (action_ids_count_log_and_position (H := wordHost) _ _ _ _ _ _ _ Hrun).
Defined.

(** The run of the status program: the second action of the first rule and
    the first action of the second rule are given the same id, and the
    second write of [order.status] is reported. *)
Example status_program_ids_and_warnings :
  exists r h',
    runProgram (H := wordHost) 0 status_program order_input (Some all_matches_options) order_heap
      = Some (Ok r, h') /\
    map log_actionId (res_actions r) = ["act-1"; "act-3"; "act-3"; "act-5"] /\
    map log_ruleId (res_actions r) = ["hold"; "hold"; "release"; "release"] /\
    res_conflictWarnings r
      = Some ["Conflict on order.status: previously written by hold (act-1), now by release (act-3)."].
Proof.
  eexists. eexists. split; [vm_compute; reflexivity |].
  repeat split; reflexivity.
Qed.

(** ** Paths into the fact store *)

Section Paths.

Lemma getKeys_undefined (h : heap) (keys : list string) : getKeys h VUndef keys = VUndef.
Proof. induction keys as [| k keys IH]; [reflexivity | exact IH]. Qed.

Lemma descend_cons (current : value) (key k2 : string) (rest : list string) :
  descend current (key :: k2 :: rest) =
  (let* child := read_prop current key in
   (if strict_eq child VUndef
    then (let* fresh := alloc (CObj ∅) in write_prop current key fresh)
    else ret tt);;;
   let* next := read_prop current key in
   descend next (k2 :: rest)).
Proof. reflexivity. Qed.

Lemma setKeys_step_missing (h : heap) (c : nat) (p : gmap string value) (k k2 : string)
    (rest : list string) (x : value) :
  h !! c = Some (CObj p) -> p !! k = None ->
  setKeys (VRef c) (k :: k2 :: rest) x h
  = setKeys (VRef (length h)) (k2 :: rest) x
      (<[c := CObj (<[k := VRef (length h)]> p)]> (h ++ [CObj ∅])).
Proof.
  intros Hc Hk. pose proof (lookup_lt_Some _ _ _ Hc) as Hlt.
  unfold setKeys. rewrite descend_cons.
  unfold bind at 1 2 3. unfold read_prop at 1. unfold get_prop. rewrite Hc, Hk.
  cbn [default from_option id].
  change (strict_eq VUndef VUndef) with true. cbv iota.
  unfold bind at 1 2. unfold alloc, write_prop.
  rewrite (lookup_app_l h) by exact Hlt. rewrite Hc.
  unfold bind at 1. unfold read_prop at 1. unfold get_prop.
  rewrite list_lookup_insert_eq by (rewrite length_app; lia).
  rewrite lookup_insert_eq. reflexivity.
Qed.

Lemma setKeys_step_defined (h : heap) (c : nat) (p : gmap string value) (k k2 : string)
    (rest : list string) (v x : value) :
  h !! c = Some (CObj p) -> p !! k = Some v -> v <> VUndef ->
  setKeys (VRef c) (k :: k2 :: rest) x h = setKeys v (k2 :: rest) x h.
Proof.
  intros Hc Hk Hv.
  unfold setKeys. rewrite descend_cons.
  unfold bind at 1 2 3. unfold read_prop at 1. unfold get_prop. rewrite Hc, Hk.
  cbn [default from_option id].
  unfold strict_eq at 1. rewrite bool_decide_eq_false_2 by exact Hv. cbv iota.
  unfold ret at 1. unfold bind at 1. unfold read_prop at 1. unfold get_prop.
  rewrite Hc, Hk. reflexivity.
Qed.

Lemma setKeys_creates (h : heap) (c : nat) (p : gmap string value) (k : string)
    (rest : list string) (x : value) :
  h !! c = Some (CObj p) -> p !! k = None ->
  exists h',
    setKeys (VRef c) (k :: rest) x h = (Ok (VUndef, x), h') /\
    getKeys h' (VRef c) (k :: rest) = x /\
    (length h <= length h')%nat /\
    (forall c', c' <> c -> (c' < length h)%nat -> h' !! c' = h !! c').
Proof.
  revert h c p k. induction rest as [| k2 rest IH]; intros h c p k Hc Hk.
  - exists (<[c := CObj (<[k := x]> p)]> h).
    unfold setKeys. cbn. rewrite Hc. cbn. rewrite Hk. cbn.
    split; [reflexivity |].
    rewrite list_lookup_insert_eq by (eapply lookup_lt_Some; exact Hc).
    rewrite lookup_insert_eq. cbn.
    split; [reflexivity |]. split; [rewrite length_insert; lia |].
    intros c' Hne _. apply list_lookup_insert_ne. congruence.
  - pose proof (lookup_lt_Some _ _ _ Hc) as Hlt.
    rewrite (setKeys_step_missing h c p k k2 rest x Hc Hk).
    set (n := length h).
    set (h1 := <[c := CObj (<[k := VRef n]> p)]> (h ++ [CObj ∅])).
    assert (Hn : h1 !! n = Some (CObj ∅)).
    { subst h1. rewrite list_lookup_insert_ne by (subst n; lia).
      subst n. rewrite lookup_app_r by lia. rewrite Nat.sub_diag. reflexivity. }
    destruct (IH h1 n ∅ k2 Hn (lookup_empty _)) as (h' & Hset & Hget & Hlen & Hframe).
    assert (Hlen1 : length h1 = S n).
    { subst h1. rewrite length_insert, length_app. cbn. subst n. lia. }
    exists h'. split; [exact Hset |]. split; [| split].
    + change (getKeys h' (VRef c) (k :: k2 :: rest))
        with (getKeys h' (get_prop h' (VRef c) k) (k2 :: rest)).
      assert (Hread : h' !! c = Some (CObj (<[k := VRef n]> p))).
      { rewrite Hframe by (subst n; lia).
        subst h1. apply list_lookup_insert_eq. rewrite length_app. lia. }
      cbn [get_prop]. rewrite Hread, lookup_insert_eq. exact Hget.
    + lia.
    + intros c' Hne Hc'. rewrite Hframe by (subst n; lia).
      subst h1. rewrite list_lookup_insert_ne by congruence.
      apply lookup_app_l. exact Hc'.
Qed.

(** X13.  Setting a path whose first key the root object does not have
    creates the intermediate objects: the call reports [undefined] as the
    previous value, and the value is read back under the path. *)
Theorem setPathValue_creates_missing_objects
    (h : heap) (a : nat) (props : gmap string value) (path key : string)
    (rest : list string) (x : value) :
  h !! a = Some (CObj props) ->
  split "." path = key :: rest ->
  props !! key = None ->
  exists h',
    setPathValue (VRef a) path x h = (Ok (VUndef, x), h') /\
    getPathValue h' (VRef a) path = x.
Proof.
  intros Ha Hsplit Hkey.
  destruct (setKeys_creates h a props key rest x Ha Hkey) as (h' & Hset & Hget & _).
  exists h'. unfold setPathValue, getPathValue. rewrite Hsplit. split; assumption.
Qed.

Lemma setKeys_primitive (v : value) (keys : list string) (x : value) (h : heap) :
  is_primitive v = true -> keys <> [] ->
  exists h', setKeys v keys x h = (Throw TypeError, h').
Proof.
  revert v h. induction keys as [| k keys IH]; intros v h Hv Hne; [congruence |].
  destruct keys as [| k2 keys].
  - unfold setKeys. destruct v; try discriminate; cbn; eauto.
  - assert (Hchild : is_primitive (get_prop h v k) = true).
    { destruct v; try discriminate; try reflexivity.
      cbn. destruct (String.eqb k "length"); [reflexivity |].
      destruct (array_index k); [| reflexivity].
      unfold char_at. destruct (String.get _ _); reflexivity. }
    unfold setKeys. rewrite descend_cons.
    unfold bind at 1 2 3. unfold read_prop at 1.
    destruct v as [| | b | n | s | a]; try discriminate; eauto.
    destruct (strict_eq (get_prop h (VStr s) k) VUndef) eqn:Hundef.
    + unfold bind at 1 2. unfold alloc, write_prop. eauto.
    + unfold ret at 1. unfold bind at 1. unfold read_prop at 1.
      apply (IH (get_prop h (VStr s) k) h Hchild). discriminate.
Qed.

(** X14.  Setting a path that leads through a fact holding [null], a
    boolean, a number or a string raises a [TypeError]. *)
Theorem setPathValue_through_primitive_raises
    (h : heap) (a : nat) (props : gmap string value) (path key key2 : string)
    (rest : list string) (v x : value) :
  h !! a = Some (CObj props) ->
  split "." path = key :: key2 :: rest ->
  props !! key = Some v ->
  is_primitive v = true -> v <> VUndef ->
  exists h', setPathValue (VRef a) path x h = (Throw TypeError, h').
Proof.
  intros Ha Hsplit Hkey Hprim Hdef.
  destruct (setKeys_primitive v (key2 :: rest) x h Hprim ltac:(discriminate)) as (h' & Hset).
  exists h'. unfold setPathValue. rewrite Hsplit.
  change (setKeys (VRef a) (key :: key2 :: rest) x h = (Throw TypeError, h')).
  rewrite (setKeys_step_defined h a props key key2 rest v x Ha Hkey Hdef). exact Hset.
Qed.
End Paths.

(** A route queue is set on the order payload, which has no [route]. *)
Lemma setPathValue_creates_missing_objects_witness :
  exists h',
    setPathValue order_input "route.queue" (VStr "review") order_heap
      = (Ok (VUndef, VStr "review"), h') /\
    getPathValue h' order_input "route.queue" = VStr "review".
Proof.
  apply (setPathValue_creates_missing_objects order_heap 1 (<["order" := VRef 0%nat]> ∅)
           "route.queue" "route" ["queue"] (VStr "review")).
  - reflexivity.
  - vm_compute. reflexivity.
  - vm_compute. reflexivity.
Defined.

(** [note.text.size] on an object whose [note] is a string. *)
Lemma setPathValue_through_primitive_raises_witness :
  exists h', setPathValue (VRef 0%nat) "note.text.size" (VNum 3) note_heap = (Throw TypeError, h').
Proof.
  apply (setPathValue_through_primitive_raises note_heap 0 (<["note" := VStr "a(b"]> ∅)
           "note.text.size" "note" "text" ["size"] (VStr "a(b") (VNum 3)).
  - reflexivity.
  - vm_compute. reflexivity.
  - vm_compute. reflexivity.
  - reflexivity.
  - discriminate.
Defined.

(** ** Laws of the condition language *)

Section ConditionLaws.
Context `{JsHost}.

Lemma forallb_negb_existsb {A} (f : A -> bool) (l : list A) :
  negb (forallb f l) = existsb (fun x => negb (f x)) l.
Proof.
  induction l as [| x l IH]; [reflexivity |]. cbn. rewrite negb_andb, IH. reflexivity.
Qed.

Lemma existsb_negb_forallb {A} (f : A -> bool) (l : list A) :
  negb (existsb f l) = forallb (fun x => negb (f x)) l.
Proof.
  induction l as [| x l IH]; [reflexivity |]. cbn. rewrite negb_orb, IH. reflexivity.
Qed.

(** X15.  The condition language obeys De Morgan's laws: [not (all cs)]
    has the result of [any] of the negated conditions and [not (any cs)]
    that of [all] of them; the empty [all] holds and the empty [any] does
    not. *)
Theorem conditions_obey_de_morgan (h : heap) (data : value) (cs : list Condition) :
  ct_result (evaluateCondition h (CondNot (CondBoolean KAll cs)) data)
    = ct_result (evaluateCondition h (CondBoolean KAny (map CondNot cs)) data) /\
  ct_result (evaluateCondition h (CondNot (CondBoolean KAny cs)) data)
    = ct_result (evaluateCondition h (CondBoolean KAll (map CondNot cs)) data) /\
  ct_result (evaluateCondition h (CondBoolean KAll []) data) = true /\
  ct_result (evaluateCondition h (CondBoolean KAny []) data) = false.
Proof.
  cbn [evaluateCondition ct_result]. rewrite !map_map. cbn [evaluateCondition].
  split; [| split; [| split; reflexivity]].
  - rewrite forallb_negb_existsb.
    induction cs as [| c cs IH]; [reflexivity |]. cbn. rewrite IH. reflexivity.
  - rewrite existsb_negb_forallb.
    induction cs as [| c cs IH]; [reflexivity |]. cbn. rewrite IH. reflexivity.
Qed.

(** X16.  For a value that is not [undefined], an [in] condition has the
    result of [any] over the comparisons of the value with each option by
    [==]. *)
Theorem in_is_any_equality
    (h : heap) (data : value) (v : Operand) (options : list Operand) :
  evaluateOperand h data v <> VUndef ->
  ct_result (evaluateCondition h (CondIn v options) data)
    = ct_result (evaluateCondition h
                   (CondBoolean KAny (map (fun o => CondCompare KCompare v SymEq o) options))
                   data).
Proof.
  intros Hv. cbn [evaluateCondition ct_result]. rewrite map_map. cbn [evaluateCondition].
  unfold includes_value.
  induction options as [| o options IH]; [reflexivity |].
  cbn [map existsb ct_result]. rewrite IH. f_equal.
  unfold evaluateComparison, strict_eq.
  rewrite (bool_decide_eq_false_2 (evaluateOperand h data v = VUndef)) by exact Hv.
  cbn [negb andb].
  destruct (decide (evaluateOperand h data o = VUndef)) as [Ho | Ho].
  - rewrite Ho. rewrite (bool_decide_eq_true_2 (VUndef = VUndef)) by reflexivity. cbn.
    apply bool_decide_eq_false_2. exact Hv.
  - rewrite (bool_decide_eq_false_2 (evaluateOperand h data o = VUndef)) by exact Ho.
    reflexivity.
Qed.
End ConditionLaws.

(** The total of the order payload is among 100, 120 and a missing fact. *)
Lemma in_is_any_equality_witness :
  ct_result (evaluateCondition (H := wordHost) order_heap
               (CondIn (fact "order.total")
                       [lit (LNum 100); lit (LNum 120); fact "order.missing"]) order_input)
  = ct_result (evaluateCondition (H := wordHost) order_heap
                 (CondBoolean KAny
                    (map (fun o => CondCompare KCompare (fact "order.total") SymEq o)
                         [lit (LNum 100); lit (LNum 120); fact "order.missing"]))
                 order_input).
Proof.
  apply (in_is_any_equality (H := wordHost) order_heap order_input (fact "order.total")
           [lit (LNum 100); lit (LNum 120); fact "order.missing"]).
  vm_compute. discriminate.
Defined.

(** A missing fact is [in] a list with a missing option, although it is
    equal to no option under [==]. *)
Example missing_fact_in_missing_option :
  ct_result (evaluateCondition (H := wordHost) order_heap
               (CondIn (fact "order.missing") [fact "order.absent"]) order_input) = true /\
  ct_result (evaluateCondition (H := wordHost) order_heap
               (CondCompare KCompare (fact "order.missing") SymEq (fact "order.absent"))
               order_input) = false.
Proof. split; vm_compute; reflexivity. Qed.

(** ** Expectations of examples *)

Section Expectations.

Lemma expectationMatches_rec_primitive (fuel : nat) (h : heap) (actual expected : value) :
  is_primitive expected = true ->
  expectationMatches_rec fuel h actual expected = Ok (strict_eq actual expected).
Proof. destruct expected, fuel; try discriminate; reflexivity. Qed.

(** X17.  Against an expected object whose members are all primitive,
    [expectationMatches] accepts an actual object exactly when it holds
    the expected value under every expected key: members that only the
    actual object has are ignored, and the heap is left as it is. *)
Theorem expectationMatches_checks_expected_keys
    (h : heap) (a e : nat) (props : gmap string value) :
  h !! e = Some (CObj props) ->
  map_Forall (fun _ v => is_primitive v = true) props ->
  exists b,
    expectationMatches (VRef a) (VRef e) h = (Ok b, h) /\
    (b = true <-> forall key v, props !! key = Some v -> get_prop h (VRef a) key = v).
Proof.
  intros He Hprim. unfold expectationMatches. cbn [expectationMatches_rec spread_props].
  rewrite He.
  set (fuel := (length h * length h)%nat). clearbody fuel.
  assert (Hkeys : forall key, key ∈ map fst (map_to_list props) ->
                    exists v, props !! key = Some v).
  { intros key Hin. apply list_elem_of_fmap in Hin as [[k v] [-> Hin]].
    apply elem_of_map_to_list in Hin. eauto. }
  assert (Hall : forall key v, props !! key = Some v -> key ∈ map fst (map_to_list props)).
  { intros key v Hv. apply list_elem_of_fmap. exists (key, v). split; [reflexivity |].
    apply elem_of_map_to_list. exact Hv. }
  revert Hkeys Hall. generalize (map fst (map_to_list props)) as keys. intros keys Hkeys Hall.
  assert (Hgoal : exists b,
            (fix every (keys : list string) : outcome bool :=
               match keys with
               | [] => Ok true
               | key :: rest =>
                   match expectationMatches_rec fuel h (get_prop h (VRef a) key)
                           (get_prop h (VRef e) key) with
                   | Ok true => every rest
                   | r => r
                   end
               end) keys = Ok b /\
            (b = true <-> forall key, key ∈ keys ->
                            get_prop h (VRef a) key = get_prop h (VRef e) key)).
  { clear Hall. induction keys as [| key keys IH].
    - exists true. split; [reflexivity |]. split; [intros _ key Hin; inversion Hin | reflexivity].
    - destruct (Hkeys key ltac:(left)) as [v Hv].
      rewrite expectationMatches_rec_primitive
        by (cbn; rewrite He, Hv; exact (Hprim key v Hv)).
      destruct (strict_eq (get_prop h (VRef a) key) (get_prop h (VRef e) key)) eqn:Heq.
      + destruct (IH (fun k Hk => Hkeys k (list_elem_of_further _ _ _ Hk))) as (b & Hb & Hiff).
        exists b. split; [exact Hb |]. rewrite Hiff.
        apply bool_decide_eq_true_1 in Heq.
        split.
        * intros Hrest k Hk. inversion Hk as [| ? ? ? Hk']; subst; [exact Heq | auto].
        * intros Hrest k Hk. apply Hrest. right. exact Hk.
      + exists false. split; [reflexivity |]. split; [discriminate |].
        intros Hrest. apply bool_decide_eq_false_1 in Heq.
        exfalso. apply Heq. apply Hrest. left. }
  destruct Hgoal as (b & Hb & Hiff). exists b. split; [rewrite Hb; reflexivity |].
  rewrite Hiff. split.
  - intros Hk key v Hv. rewrite (Hk key (Hall key v Hv)). cbn. rewrite He, Hv. reflexivity.
  - intros Hp key Hin. destruct (Hkeys key Hin) as [v Hv].
    rewrite (Hp key v Hv). cbn. rewrite He, Hv. reflexivity.
Qed.
End Expectations.

(** The order payload holds the expected total (and a [vip] member that
    is not expected). *)
Lemma expectationMatches_checks_expected_keys_witness :
  exists b,
    expectationMatches (VRef 0%nat) (VRef 2%nat)
      (order_heap ++ [CObj (<["total" := VNum 120]> ∅)])
      = (Ok b, order_heap ++ [CObj (<["total" := VNum 120]> ∅)]) /\
    (b = true <->
     forall key v, (<["total" := VNum 120]> ∅ : gmap string value) !! key = Some v ->
                   get_prop (order_heap ++ [CObj (<["total" := VNum 120]> ∅)]) (VRef 0%nat) key = v).
Proof.
  apply (expectationMatches_checks_expected_keys
           (order_heap ++ [CObj (<["total" := VNum 120]> ∅)]) 0 2 (<["total" := VNum 120]> ∅)).
  - reflexivity.
  - apply map_Forall_insert_2; [reflexivity | apply map_Forall_empty].
Defined.

(** ** Settling *)

Section Settling.
Context `{JsHost}.

Lemma passRules_quiet data cap enableActions mode rules fired0 mutated0 s pr s' :
  passRules data cap enableActions mode rules fired0 mutated0 s = (Ok pr, s') ->
  mutated pr = false ->
  mutated0 = false /\
  exists new, traces s' = traces s ++ new /\
              (enableActions = true -> Forall (fun t => rt_stateDiff t = []) new).
Proof.
  revert fired0 mutated0 s. induction rules as [| rule rest IH]; intros fired0 mutated0 s Hrun Hm.
  - injection Hrun as <- <-. split; [exact Hm |]. exists []. rewrite app_nil_r.
    split; [reflexivity | constructor].
  - apply passRules_step in Hrun
      as (matched & T & s3 & _ & _ & _ & _ & Ht3 & _ & _ & Hrun).
    assert (Hstep : ((enableActions && bool_decide (0 < length (rt_stateDiff T))%nat) || mutated0)
                    = false ->
                    mutated0 = false /\ (enableActions = true -> rt_stateDiff T = [])).
    { intros Hor. apply orb_false_elim in Hor as [Hand Hm0]. split; [exact Hm0 |].
      intros ->. cbn in Hand. apply bool_decide_eq_false_1 in Hand.
      destruct (rt_stateDiff T); [reflexivity | cbn in Hand; lia]. }
    destruct (firings s3 >=? cap).
    { destruct Hrun as [-> ->]. destruct (Hstep Hm) as [Hm0 Hq].
      split; [exact Hm0 |]. exists [T]. split; [exact Ht3 |].
      intros He. constructor; [auto | constructor]. }
    destruct (matched && stops_pass mode rule).
    { destruct Hrun as [-> ->]. destruct (Hstep Hm) as [Hm0 Hq].
      split; [exact Hm0 |]. exists [T]. split; [exact Ht3 |].
      intros He. constructor; [auto | constructor]. }
    destruct (IH _ _ _ Hrun Hm) as (Hm1 & new & Htr & Hq).
    destruct (Hstep Hm1) as [Hm0 HqT].
    split; [exact Hm0 |]. exists (T :: new).
    split; [rewrite Htr, Ht3, <- app_assoc; reflexivity |].
    intros He. constructor; auto.
Qed.

Lemma passRules_dry_mutated data cap mode rules fired0 mutated0 s pr s' :
  passRules data cap false mode rules fired0 mutated0 s = (Ok pr, s') ->
  mutated pr = mutated0.
Proof.
  revert fired0 mutated0 s. induction rules as [| rule rest IH]; intros fired0 mutated0 s Hrun.
  - injection Hrun as <- _. reflexivity.
  - apply passRules_step in Hrun
      as (matched & T & s3 & _ & _ & _ & _ & _ & _ & _ & Hrun).
    cbn [andb orb] in Hrun.
    destruct (firings s3 >=? cap); [destruct Hrun as [-> _]; reflexivity |].
    destruct (matched && stops_pass mode rule); [destruct Hrun as [-> _]; reflexivity |].
    apply (IH _ _ _ Hrun).
Qed.

(** The last pass so far was a full pass over [rules] and, if it did not
    mutate the state, recorded no diff. *)
Lemma settle_settled data cap mode fuel rules pr s pr' s' :
  (forall rule, rule ∈ rules -> stops_pass mode rule = false) ->
  settle data cap true mode fuel true rules pr s = Some (Ok pr', s') ->
  hitRuleLimit s' = false ->
  stopEarly pr = false ->
  (exists earlier last,
     traces s = earlier ++ last /\ Forall2 trace_of_rule last rules /\
     (mutated pr = false -> Forall (fun t => rt_stateDiff t = []) last)) ->
  exists earlier last,
    traces s' = earlier ++ last /\ Forall2 trace_of_rule last rules /\
    Forall (fun t => rt_stateDiff t = []) last.
Proof.
  intros Hstop. revert pr s. induction fuel as [| fuel IH];
    intros pr s Hrun Hhit Hse (earlier & last & Htr & Hall & Hq); cbn [settle] in Hrun.
  - destruct (true && mutated pr && negb (stopEarly pr) && negb (hitRuleLimit s)) eqn:Hcond;
      [discriminate |].
    injection Hrun as _ <-. rewrite Hse, Hhit in Hcond. cbn in Hcond.
    rewrite ?andb_true_r in Hcond.
      exists earlier, last. split; [exact Htr |]. split; [exact Hall | exact (Hq Hcond)].
  - destruct (true && mutated pr && negb (stopEarly pr) && negb (hitRuleLimit s)) eqn:Hcond.
    + destruct (executePass _ _ _ _ _ s) as [[pr1 | e] s1] eqn:Hpass; [| discriminate].
      assert (Hhit1 : hitRuleLimit s1 = false).
      { destruct (hitRuleLimit s1) eqn:Hh1; [| reflexivity].
        destruct fuel; cbn [settle] in Hrun; rewrite Hh1, andb_false_r in Hrun;
          injection Hrun as _ <-; congruence. }
      destruct (passRules_full _ _ _ _ _ _ _ _ _ _ Hstop Hpass Hhit1) as (Hse1 & new & Htr1 & Hall1).
      apply (IH _ _ Hrun Hhit Hse1).
      exists (traces s), new. split; [exact Htr1 |]. split; [exact Hall1 |].
      intros Hm1. destruct (passRules_quiet _ _ _ _ _ _ _ _ _ _ Hpass Hm1) as (_ & new' & Htr' & Hq').
      rewrite Htr1 in Htr'. apply app_inv_head in Htr'. subst new'. auto.
    + injection Hrun as _ <-. rewrite Hse, Hhit in Hcond. cbn in Hcond.
      rewrite ?andb_true_r in Hcond.
      exists earlier, last. split; [exact Htr |]. split; [exact Hall | exact (Hq Hcond)].
Qed.

(** X18.  A run with actions enabled that loops until settled, in which
    no rule can end a pass, and that returns without reaching the cap has
    settled: its last pass evaluated every rule and recorded no state
    diff. *)
Theorem settled_run_ends_with_a_quiet_pass
    (fuel : nat) (program : Program) (input : value)
    (options : option ExecutionOptions) (h h' : heap) (r : ExecutionResult) :
  default false (options ≫= opt_enableActions) = true ->
  default false (options ≫= opt_loopUntilSettled) = true ->
  (forall rule, rule ∈ program_rules program ->
                stops_pass (execution_mode program options) rule = false) ->
  runProgram fuel program input options h = Some (Ok r, h') ->
  res_hitRuleLimit r = false ->
  exists earlier last,
    res_trace r = earlier ++ last /\
    Forall2 trace_of_rule last (sortRules (program_rules program)) /\
    Forall (fun t => rt_stateDiff t = []) last.
Proof.
  intros Henable Hloop Hstop Hrun Hhit.
  apply runProgram_inv in Hrun as (r0 & h0 & Hp & _ & _ & Htr & _ & Hh & _).
  apply runPasses_inv in Hp
    as (state & h1 & pr & s & pr' & s' & _ & Hpass & Hsettle & _ & _ & Htr0 & _ & Hh0 & _).
  rewrite Hh, Hh0 in Hhit. rewrite Htr, Htr0.
  rewrite Henable in Hpass, Hsettle. rewrite Hloop in Hsettle.
  assert (Hstop' : forall rule, rule ∈ sortRules (program_rules program) ->
                     stops_pass (execution_mode program options) rule = false).
  { intros rule Hr. apply Hstop. rewrite <- sortRules_perm. exact Hr. }
  assert (Hhit1 : hitRuleLimit s = false).
  { destruct (hitRuleLimit s) eqn:Hh1; [| reflexivity].
    destruct fuel; cbn [settle] in Hsettle; rewrite Hh1, andb_false_r in Hsettle;
      injection Hsettle as _ <-; congruence. }
  destruct (passRules_full _ _ _ _ _ _ _ _ _ _ Hstop' Hpass Hhit1) as (Hse & new & Htr1 & Hall1).
  apply (settle_settled _ _ _ _ _ _ _ _ _ Hstop' Hsettle Hhit Hse).
  exists [], new. split; [exact Htr1 |]. split; [exact Hall1 |].
  intros Hm. destruct (passRules_quiet _ _ _ _ _ _ _ _ _ _ Hpass Hm) as (_ & new' & Htr' & Hq').
  rewrite Htr1 in Htr'. apply app_inv_head in Htr'. subst new'. auto.
Qed.

(** X19.  Without [loopUntilSettled], and also in a dry run whatever
    [loopUntilSettled] says, a run makes one pass: every rule is evaluated
    at most once, the traces following the order of [sortRules]. *)
Theorem one_pass_without_loop_or_actions
    (fuel : nat) (program : Program) (input : value)
    (options : option ExecutionOptions) (h h' : heap) (r : ExecutionResult) :
  default false (options ≫= opt_loopUntilSettled) = false \/
  default false (options ≫= opt_enableActions) = false ->
  runProgram fuel program input options h = Some (Ok r, h') ->
  exists processed,
    processed `prefix_of` sortRules (program_rules program) /\
    Forall2 trace_of_rule (res_trace r) processed.
Proof.
  intros Hcase Hrun.
  apply runProgram_inv in Hrun as (r0 & h0 & Hp & _ & _ & Htr & _).
  apply runPasses_inv in Hp
    as (state & h1 & pr & s & pr' & s' & _ & Hpass & Hsettle & _ & _ & Htr0 & _).
  rewrite Htr, Htr0.
  assert (Hs' : s' = s).
  { destruct Hcase as [Hloop | Henable].
    - rewrite Hloop in Hsettle. destruct fuel; cbn in Hsettle; injection Hsettle as _ <-;
        reflexivity.
    - rewrite Henable in Hpass, Hsettle.
      apply passRules_dry_mutated in Hpass.
      rewrite settle_not_mutated in Hsettle by exact Hpass.
      injection Hsettle as _ <-. reflexivity. }
  subst s'.
  apply passRules_traces in Hpass as (processed & new & Hprefix & Hnew & Hall).
  exists processed. split; [exact Hprefix |]. cbn in Hnew. rewrite Hnew. exact Hall.
Qed.
End Settling.

(** The two rules on the order payload: the second pass finds both facts
    set already. *)
Lemma settled_run_ends_with_a_quiet_pass_witness :
  exists r h' earlier last,
    runProgram (H := wordHost) 2 two_rules_program order_input (Some settle_options) order_heap
      = Some (Ok r, h') /\
    res_trace r = earlier ++ last /\
    Forall2 trace_of_rule last (sortRules (H := wordHost) (program_rules two_rules_program)) /\
    Forall (fun t => rt_stateDiff t = []) last.
Proof.
  destruct (runProgram (H := wordHost) 2 two_rules_program order_input
              (Some settle_options) order_heap)
    as [[[r | e] h'] |] eqn:Hrun; try (vm_compute in Hrun; discriminate).
  destruct (settled_run_ends_with_a_quiet_pass (H := wordHost) 2 two_rules_program order_input
              (Some settle_options) order_heap h' r) as (earlier & last & Hlast).
  - reflexivity.
  - reflexivity.
  - intros rule Hr. apply list_elem_of_In in Hr. destruct Hr as [<- | [<- | []]]; reflexivity.
  - exact Hrun.
  - vm_compute in Hrun. injection Hrun as <- _. reflexivity.
  - exists r, h', earlier, last. split; [reflexivity | exact Hlast].
Defined.

Lemma one_pass_without_loop_or_actions_witness :
  exists r h' processed,
    runProgram (H := wordHost) 0 two_rules_program order_input (Some no_options_set) order_heap
      = Some (Ok r, h') /\
    processed `prefix_of` sortRules (H := wordHost) (program_rules two_rules_program) /\
    Forall2 trace_of_rule (res_trace r) processed.
Proof.
  destruct (runProgram (H := wordHost) 0 two_rules_program order_input
              (Some no_options_set) order_heap)
    as [[[r | e] h'] |] eqn:Hrun; try (vm_compute in Hrun; discriminate).
  destruct (one_pass_without_loop_or_actions (H := wordHost) 0 two_rules_program order_input
              (Some no_options_set) order_heap h' r) as (processed & Hp).
  - left. reflexivity.
  - exact Hrun.
  - exists r, h', processed. split; [reflexivity | exact Hp].
Defined.

(** The run of the witness makes two passes. *)
Example two_rules_settle_in_two_passes :
  exists r h',
    runProgram (H := wordHost) 2 two_rules_program order_input (Some settle_options) order_heap
      = Some (Ok r, h') /\
    map rt_ruleId (res_trace r)
      = ["discount-high-value"; "flag-large"; "discount-high-value"; "flag-large"] /\
    map (fun t => length (rt_stateDiff t)) (res_trace r) = [1; 1; 0; 0]%nat /\
    ruleFirings r = 4.
Proof.
  eexists. eexists. split; [vm_compute; reflexivity |]. repeat split; reflexivity.
Qed.

(** ** Soundness of the static conflict check *)

Section StaticConflicts.

Lemma conflicts_from_sound (rules : list Validator.Rule) (m : string) :
  m ∈ Validator.conflicts_from rules ->
  exists i j ruleA ruleB p,
    rules !! i = Some ruleA /\ rules !! j = Some ruleB /\ (i < j)%nat /\
    Validator.effective_priority ruleA = Validator.effective_priority ruleB /\
    p ∈ conflicting_actions ruleA ruleB /\
    m = Validator.conflict_message p.1.1 (Validator.rule_id ruleA) (Validator.rule_id ruleB).
Proof.
  induction rules as [| ruleA rest IH]; cbn [Validator.conflicts_from]; intros Hm.
  - inversion Hm.
  - apply elem_of_app in Hm as [Hm | Hm].
    + apply list_elem_of_In, in_flat_map in Hm as (ruleB & HB & Hm).
      apply list_elem_of_In in HB, Hm.
      destruct (Validator.effective_priority ruleA =? Validator.effective_priority ruleB)
        eqn:Hprio; cbn [negb] in Hm; [| inversion Hm].
      apply Z.eqb_eq in Hprio.
      rewrite pairConflicts_unfold in Hm. unfold pair_messages in Hm.
      apply list_elem_of_fmap in Hm as (p & -> & Hp).
      apply list_elem_of_lookup in HB as [j Hj].
      exists 0%nat, (S j), ruleA, ruleB, p. repeat split; try assumption; try reflexivity. lia.
    + destruct (IH Hm) as (i & j & rA & rB & p & Hi & Hj & Hlt & Hprio & Hp & ->).
      exists (S i), (S j), rA, rB, p. repeat split; try assumption; try reflexivity. lia.
Qed.

(** X20.  Every conflict that [detectConflictingSetActions] reports comes
    from two different rules of the same effective priority, the first
    listed before the second, and from a [set] action of each on the same
    path with values of different documents, that is, of different
    [JSON.stringify] texts; the message names the path and the two rule
    ids in that order. *)
Theorem static_conflicts_are_sound (program : Validator.Program) (m : string) :
  m ∈ Validator.detectConflictingSetActions program ->
  exists i j ruleA ruleB p,
    Validator.program_rules program !! i = Some ruleA /\
    Validator.program_rules program !! j = Some ruleB /\ (i < j)%nat /\
    Validator.effective_priority ruleA = Validator.effective_priority ruleB /\
    p ∈ conflicting_actions ruleA ruleB /\
    m = Validator.conflict_message p.1.1 (Validator.rule_id ruleA) (Validator.rule_id ruleB).
Proof. apply conflicts_from_sound. Qed.

(** X21.  Rules with pairwise different effective priorities are never
    reported, whatever they set. *)
Theorem distinct_priorities_silence_static_conflicts (program : Validator.Program) :
  NoDup (map Validator.effective_priority (Validator.program_rules program)) ->
  Validator.detectConflictingSetActions program = [].
Proof.
  intros Hnodup.
  destruct (Validator.detectConflictingSetActions program) as [| m l] eqn:Hd; [reflexivity |].
  assert (Hm : m ∈ Validator.detectConflictingSetActions program) by (rewrite Hd; left).
  apply conflicts_from_sound in Hm as (i & j & rA & rB & p & Hi & Hj & Hlt & Hprio & _).
  exfalso.
  assert (Hij : i = j); [| lia].
  eapply NoDup_lookup; [exact Hnodup | |].
  - rewrite list_lookup_fmap, Hi. reflexivity.
  - rewrite list_lookup_fmap, Hj, Hprio. reflexivity.
Qed.
End StaticConflicts.

Lemma static_conflicts_are_sound_witness :
  exists i j ruleA ruleB p,
    Validator.program_rules approve_deny_program !! i = Some ruleA /\
    Validator.program_rules approve_deny_program !! j = Some ruleB /\ (i < j)%nat /\
    Validator.effective_priority ruleA = Validator.effective_priority ruleB /\
    p ∈ conflicting_actions ruleA ruleB /\
    Validator.conflict_message "order.status" "A" "B"
      = Validator.conflict_message p.1.1 (Validator.rule_id ruleA) (Validator.rule_id ruleB).
Proof.
  apply (static_conflicts_are_sound approve_deny_program
           (Validator.conflict_message "order.status" "A" "B")).
  vm_compute. left.
Defined.

Lemma distinct_priorities_silence_static_conflicts_witness :
  Validator.detectConflictingSetActions ranked_program = [].
Proof.
  apply (distinct_priorities_silence_static_conflicts ranked_program).
  apply (bool_decide_unpack _). vm_compute. exact I.
Defined.

(** ** State diffs *)

Section StateDiffs.
Context `{JsHost}.

Lemma applyAction_diffs action data ruleId actionId enableActions s out s' :
  applyAction action data ruleId actionId enableActions s = (Ok out, s') ->
  Forall2 diff_of (ao_diffs out) (filter records_diff [ao_trace out]).
Proof.
  intros Hrun. rewrite filter_cons, filter_nil.
  destruct action as [target vop | target delta | target vop | event payload | toQueue reason];
    cbn [applyAction] in Hrun.
  - apply bind_Ok_inv in Hrun as (s0 & s0' & Hget & Hrun). injection Hget as <- <-.
    apply bind_Ok_inv in Hrun as ([previous next] & s1 & Hset & Hrun).
    apply bind_Ok_inv in Hrun as ([conflict warning] & s2 & Htrack & Hrun).
    injection Hrun as <- _. cbn [ao_diffs ao_trace].
    destruct enableActions; cbn [andb].
    + destruct (strict_eq previous next) eqn:Heq; cbn [negb].
      * apply bool_decide_eq_true_1 in Heq. subst next.
        rewrite decide_False by (intros [_ Hne]; cbn in Hne; congruence). constructor.
      * apply bool_decide_eq_false_1 in Heq.
        rewrite decide_True by (split; [reflexivity | cbn; congruence]).
        constructor; [repeat split | constructor].
    + rewrite decide_False by (intros [Ha _]; discriminate). constructor.
  - apply bind_Ok_inv in Hrun as (s0 & s0' & Hget & Hrun). injection Hget as <- <-.
    apply bind_Ok_inv in Hrun as (diffs & s1 & Hset & Hrun).
    apply bind_Ok_inv in Hrun as ([conflict warning] & s2 & Htrack & Hrun).
    injection Hrun as <- _. cbn [ao_diffs ao_trace].
    destruct enableActions.
    + apply bind_Ok_inv in Hset as ([previous next] & s1' & Hset & Hret).
      injection Hret as <- _.
      rewrite decide_True by (split; [reflexivity | exact I]).
      constructor; [repeat split | constructor].
    + injection Hset as <- _.
      rewrite decide_False by (intros [Ha _]; discriminate). constructor.
  - apply bind_Ok_inv in Hrun as (s0 & s0' & Hget & Hrun). injection Hget as <- <-.
    apply bind_Ok_inv in Hrun as (nextArray & s1 & Halloc & Hrun).
    apply bind_Ok_inv in Hrun as (beforeValue & s2 & Hbefore & Hrun).
    apply bind_Ok_inv in Hrun as (diffs & s3 & Hset & Hrun).
    apply bind_Ok_inv in Hrun as ([conflict warning] & s4 & Htrack & Hrun).
    injection Hrun as <- _. cbn [ao_diffs ao_trace].
    destruct enableActions.
    + apply bind_Ok_inv in Hset as (u & s3' & Hset & Hret).
      injection Hret as <- _.
      rewrite decide_True by (split; [reflexivity | exact I]).
      constructor; [repeat split | constructor].
    + injection Hset as <- _.
      rewrite decide_False by (intros [Ha _]; discriminate). constructor.
  - injection Hrun as <- _. cbn [ao_diffs ao_trace].
    rewrite decide_False by (intros [_ []]). constructor.
  - apply bind_Ok_inv in Hrun as (s0 & s0' & Hget & Hrun). injection Hget as <- <-.
    apply bind_Ok_inv in Hrun as (nextRoute & s1 & Halloc & Hrun).
    apply bind_Ok_inv in Hrun as (diffs & s3 & Hset & Hrun).
    apply bind_Ok_inv in Hrun as ([conflict warning] & s4 & Htrack & Hrun).
    injection Hrun as <- _. cbn [ao_diffs ao_trace].
    destruct enableActions.
    + apply bind_Ok_inv in Hset as (u & s3' & Hset & Hret).
      injection Hret as <- _.
      rewrite decide_True by (split; [reflexivity | exact I]).
      constructor; [repeat split | constructor].
    + injection Hset as <- _.
      rewrite decide_False by (intros [Ha _]; discriminate). constructor.
Qed.

Lemma applyActions_diffs ruleActions data ruleId e ats sds ws s ats' sds' ws' s' :
  applyActions ruleActions data ruleId e ats sds ws s = (Ok (ats', sds', ws'), s') ->
  exists newT newD,
    ats' = ats ++ newT /\ sds' = sds ++ newD /\
    map at_action newT = ruleActions /\
    Forall2 diff_of newD (filter records_diff newT).
Proof.
  revert ats sds ws s. induction ruleActions as [| action rest IH]; intros ats sds ws s Hrun.
  - injection Hrun as <- <- _ _. exists [], []. rewrite !app_nil_r.
    repeat split; constructor.
  - cbn [applyActions] in Hrun.
    apply bind_Ok_inv in Hrun as (s0 & s0' & Hget & Hrun). injection Hget as <- <-.
    apply bind_Ok_inv in Hrun as (out & s1 & Hact & Hrun).
    pose proof (applyAction_diffs _ _ _ _ _ _ _ _ Hact) as Hd.
    apply applyAction_outcome in Hact as (_ & (Haction & _) & _).
    apply bind_Ok_inv in Hrun as (u & s2 & _ & Hrun).
    apply bind_Ok_inv in Hrun as (u' & s3 & _ & Hrun).
    destruct (IH _ _ _ _ Hrun) as (newT & newD & -> & -> & Hmap & Hall).
    exists (ao_trace out :: newT), (ao_diffs out ++ newD).
    split; [rewrite <- app_assoc; reflexivity |].
    split; [rewrite <- app_assoc; reflexivity |].
    split; [cbn; rewrite Haction, Hmap; reflexivity |].
    change (ao_trace out :: newT) with ([ao_trace out] ++ newT).
    rewrite filter_app. apply Forall2_app; assumption.
Qed.

(** What holds of the trace of every evaluated rule holds of every trace
    of a run. *)
Section EachTrace.
Variable P : RuleTrace -> Prop.
Variable e : bool.
Hypothesis P_trace :
  forall data rule matched s1 ats sds ws s2 why,
    applyActions (actions_of rule matched) data (rule_id rule) e [] [] [] s1
      = (Ok (ats, sds, ws), s2) ->
    P {| rt_ruleId := rule_id rule; rt_ruleName := rule_name rule;
         rt_priority := rule_priority rule; rt_evaluatedWhen := matched;
         rt_why := why; rt_actionsApplied := ats; rt_stateDiff := sds;
         rt_stopProcessing := if matched then rule_stopProcessing rule else None;
         rt_warnings := match ws with [] => None | _ => Some ws end |}.

Lemma passRules_each_trace data cap mode rules fired0 mutated0 s pr s' :
  Forall P (traces s) ->
  passRules data cap e mode rules fired0 mutated0 s = (Ok pr, s') ->
  Forall P (traces s').
Proof.
  revert fired0 mutated0 s. induction rules as [| rule rest IH]; intros fired0 mutated0 s Hs Hrun.
  - injection Hrun as _ <-. exact Hs.
  - cbn [passRules] in Hrun.
    apply bind_Ok_inv in Hrun as (s0 & s0' & Hget & Hrun). injection Hget as <- <-.
    set (matched := ct_result (evaluateCondition (st_heap s) (rule_when rule) data)) in *.
    apply bind_Ok_inv in Hrun as (u & s1 & Hcount & Hrun).
    assert (Ht1 : traces s1 = traces s).
    { destruct matched; injection Hcount as _ <-; reflexivity. }
    apply bind_Ok_inv in Hrun as ([[actionTraces stateDiffs] warnings] & s2 & Hacts & Hrun).
    pose proof (applyActions_frame _ _ _ _ _ _ _ _ _ _ Hacts) as (Ht2 & _ & _).
    apply bind_Ok_inv in Hrun as (u' & s3 & Hpush & Hrun). injection Hpush as _ <-.
    match type of Hrun with context [push_trace ?t s2] => set (T := t) in * end.
    assert (Hs3 : Forall P (traces (push_trace T s2))).
    { cbn [push_trace traces]. rewrite Ht2, Ht1. apply Forall_app. split; [exact Hs |].
      constructor; [| constructor]. subst T. eapply P_trace. exact Hacts. }
    apply bind_Ok_inv in Hrun as (s4 & s4' & Hget & Hrun). injection Hget as <- <-.
    destruct (firings (push_trace T s2) >=? cap).
    + apply bind_Ok_inv in Hrun as (u'' & s5 & Hflag & Hret).
      injection Hflag as _ <-. injection Hret as _ <-. exact Hs3.
    + destruct (matched && _).
      * injection Hrun as _ <-. exact Hs3.
      * eapply IH; [exact Hs3 | exact Hrun].
Qed.

Lemma runProgram_each_trace fuel program input options h r h' :
  default false (options ≫= opt_enableActions) = e ->
  runProgram fuel program input options h = Some (Ok r, h') ->
  Forall P (res_trace r).
Proof.
  intros He Hrun.
  apply runProgram_inv in Hrun as (r0 & h0 & Hp & _ & _ & -> & _).
  apply runPasses_inv in Hp
    as (state & h1 & pr & s & pr' & s' & _ & Hpass & Hsettle & _ & _ & -> & _).
  rewrite He in Hpass, Hsettle.
  apply passRules_each_trace in Hpass; [| constructor].
  clear - Hpass Hsettle P_trace.
  revert pr s Hpass Hsettle.
  generalize (default false (options ≫= opt_loopUntilSettled)) as loop.
  induction fuel as [| fuel IH]; intros loop pr s Hs Hrun; cbn [settle] in Hrun.
  - destruct (_ && _); [discriminate | injection Hrun as _ <-; exact Hs].
  - destruct (_ && _ && _ && negb (hitRuleLimit s));
      [| injection Hrun as _ <-; exact Hs].
    destruct (executePass _ _ _ _ _ s) as [[pr1 | e1] s1] eqn:Hpass1; [| discriminate].
    eapply IH; [| exact Hrun]. eapply passRules_each_trace; [exact Hs | exact Hpass1].
Qed.
End EachTrace.

(** X22.  The state diffs of a rule trace are those of its actions that
    were applied and are not an emit, leaving out the sets that wrote the
    value already there: one diff each, in order, with the path and the
    value written. *)
Theorem state_diffs_follow_applied_actions
    (fuel : nat) (program : Program) (input : value)
    (options : option ExecutionOptions) (h h' : heap) (r : ExecutionResult) :
  runProgram fuel program input options h = Some (Ok r, h') ->
  Forall (fun t => Forall2 diff_of (rt_stateDiff t) (filter records_diff (rt_actionsApplied t)))
         (res_trace r).
Proof.
  intros Hrun.
  eapply (runProgram_each_trace _ (default false (options ≫= opt_enableActions)));
    [| reflexivity | exact Hrun].
  intros data rule matched s1 ats sds ws s2 why Hacts. cbn.
  apply applyActions_diffs in Hacts as (newT & newD & -> & -> & _ & Hall). exact Hall.
Qed.
End StateDiffs.

Lemma state_diffs_follow_applied_actions_witness :
  exists r h',
    runProgram (H := wordHost) 0 status_program order_input (Some all_matches_options) order_heap
      = Some (Ok r, h') /\
    Forall (fun t => Forall2 diff_of (rt_stateDiff t) (filter records_diff (rt_actionsApplied t)))
           (res_trace r).
Proof.
  destruct (runProgram (H := wordHost) 0 status_program order_input
              (Some all_matches_options) order_heap)
    as [[[r | e] h'] |] eqn:Hrun; try (vm_compute in Hrun; discriminate).
  exists r, h'. split; [reflexivity |].
  exact (state_diffs_follow_applied_actions (H := wordHost) _ _ _ _ _ _ _ Hrun).
Defined.

(** ** Examples *)

Section Examples.
Context `{JsHost}.

Lemma hasErrors_failed (constraints : option (list Constraint)) (h : heap) (data : value) :
  hasErrors (evaluateConstraints constraints h data)
  = negb (bool_decide
            (length (filter (fun c => is_error_severity (cr_constraint c) = true)
                            (report_failed (evaluateConstraints constraints h data))) = 0%nat)).
Proof.
  destruct constraints as [cs |]; cbn; [| reflexivity].
  destruct (filter _ (filter _ _)); cbn; reflexivity.
Qed.

Lemma runProgram_enabled program input h :
  runProgram 0 program input (Some enabled_options) h
  = runPasses 0 program input (Some enabled_options) h.
Proof.
  unfold runProgram. destruct (runPasses _ _ _ _ _) as [[[r | e] h'] |]; reflexivity.
Qed.

Lemma runExample_run program example h r h' :
  runExample program example h = Some (Ok r, h') ->
  exists result matches h1,
    runProgram 0 program (example_input example) (Some enabled_options) h
      = Some (Ok result, h1) /\
    expectationMatches (resultState result) (example_expected example) h1 = (Ok matches, h') /\
    er_example r = example /\ reports (result, matches) r.
Proof.
  unfold runExample. rewrite runProgram_enabled. intros Hrun.
  destruct (runPasses 0 program (example_input example) (Some enabled_options) h)
    as [[[result | e] h1] |] eqn:Hp; try discriminate.
  apply runPasses_report in Hp as (Hrep & _).
  destruct (expectationMatches _ _ h1) as [[matches | e] h2] eqn:Hm; [| discriminate].
  injection Hrun as <- <-. exists result, matches, h1.
  split; [reflexivity |]. split; [exact Hm |]. split; [reflexivity |].
  unfold reports. cbn. repeat split.
  rewrite Hrep, hasErrors_failed, negb_involutive. reflexivity.
Qed.

Lemma runExampleList_runs program examples h results h' :
  runExampleList program examples h = Some (Ok results, h') ->
  map er_example results = examples /\
  exists runs, example_runs program h examples runs h' /\ Forall2 reports runs results.
Proof.
  revert h results h'. induction examples as [| example rest IH]; intros h results h' Hrun;
    cbn [runExampleList] in Hrun.
  - injection Hrun as <- <-. split; [reflexivity |]. exists []. split; constructor.
  - destruct (runExample program example h) as [[[r | e] h1] |] eqn:Hex; try discriminate.
    destruct (runExampleList program rest h1) as [[[rs | e] h2] |] eqn:Hrest; try discriminate.
    injection Hrun as <- <-.
    apply runExample_run in Hex as (result & matches & h0 & Hp & Hm & Hexample & Hreports).
    destruct (IH _ _ _ Hrest) as (Hmap & runs & Hruns & Hall).
    split; [cbn; rewrite Hexample, Hmap; reflexivity |].
    exists ((result, matches) :: runs). split; [econstructor; eassumption | constructor; assumption].
Qed.

Lemma example_runs_success program h examples runs h' :
  example_runs program h examples runs h' ->
  Forall (fun run => success (fst run)
                     = negb (hasErrors (constraintReport (fst run)))
                       && negb (res_hitRuleLimit (fst run))) runs.
Proof.
  induction 1 as [| h h1 h2 h' example rest result matches runs Hp Hm _ IH];
    [constructor | constructor; [| exact IH]].
  rewrite runProgram_enabled in Hp. apply runPasses_report in Hp as (_ & Hsucc & _).
  cbn. rewrite Hsucc, negb_orb. reflexivity.
Qed.

Lemma reports_passed (runs : list (ExecutionResult * bool)) (results : list ExampleResult) :
  Forall2 reports runs results ->
  Forall (fun r => er_passed r = true -> hasErrors (er_constraints r) = false) results.
Proof.
  induction 1 as [| run r runs results (Hpassed & _ & Hcons & _) _ IH]; constructor;
    [| exact IH].
  intros Hp. rewrite Hp in Hpassed. symmetry in Hpassed.
  apply andb_prop in Hpassed as [_ Hnone]. rewrite Hcons. apply negb_true_iff, Hnone.
Qed.

(** X23.  [runExamples] returns one result per example of the program, in
    the order of the examples.  Each result is that of one call of
    [runProgram] on the input of the example with [{ enableActions: true }],
    made on the store the example before it left: the result passes
    exactly when the expected document matches the final state of that
    run and its constraint report has no error.  Whether the run reached
    the firing cap does not enter: the cap makes the run itself
    unsuccessful, not the example. *)
Theorem runExamples_reports_each_example
    (program : Program) (h h' : heap) (results : list ExampleResult) :
  runExamples program h = Some (Ok results, h') ->
  map er_example results = default [] (program_examples program) /\
  exists runs,
    example_runs program h (default [] (program_examples program)) runs h' /\
    Forall2 reports runs results /\
    Forall (fun run => success (fst run)
                       = negb (hasErrors (constraintReport (fst run)))
                         && negb (res_hitRuleLimit (fst run))) runs /\
    Forall (fun r => er_passed r = true -> hasErrors (er_constraints r) = false) results.
Proof.
  intros Hrun.
  assert (Hlist : map er_example results = default [] (program_examples program) /\
                  exists runs,
                    example_runs program h (default [] (program_examples program)) runs h' /\
                    Forall2 reports runs results).
  { unfold runExamples in Hrun. destruct (program_examples program) as [[| example rest] |].
    - injection Hrun as <- <-. split; [reflexivity |]. exists []. split; constructor.
    - apply runExampleList_runs in Hrun. exact Hrun.
    - injection Hrun as <- <-. split; [reflexivity |]. exists []. split; constructor. }
  destruct Hlist as (Hmap & runs & Hruns & Hall). split; [exact Hmap |].
  exists runs. split; [exact Hruns |]. split; [exact Hall |].
  split; [exact (example_runs_success _ _ _ _ _ Hruns) | exact (reports_passed _ _ Hall)].
Qed.
End Examples.

Lemma runExamples_reports_each_example_witness :
  exists results h' runs,
    runExamples (H := wordHost) crowded_program order_heap = Some (Ok results, h') /\
    map er_example results = default [] (program_examples crowded_program) /\
    example_runs (H := wordHost) crowded_program order_heap
      (default [] (program_examples crowded_program)) runs h' /\
    Forall2 reports runs results /\
    Forall (fun run => success (fst run)
                       = negb (hasErrors (constraintReport (fst run)))
                         && negb (res_hitRuleLimit (fst run))) runs /\
    Forall (fun r => er_passed r = true -> hasErrors (er_constraints r) = false) results.
Proof.
  destruct (runExamples (H := wordHost) crowded_program order_heap)
    as [[[results | e] h'] |] eqn:Hrun; try (vm_compute in Hrun; discriminate).
  destruct (runExamples_reports_each_example (H := wordHost) _ _ _ _ Hrun)
    as (Hmap & runs & Hruns).
  exists results, h', runs. split; [reflexivity |]. split; [exact Hmap | exact Hruns].
Defined.

(** A thousand rules that match: the run of the example reaches the
    default cap and is unsuccessful, and the example passes. *)
Example capped_example_passes :
  exists results h',
    runExamples (H := wordHost) crowded_program order_heap = Some (Ok results, h') /\
    map er_passed results = [true] /\
    exists result h1,
      runProgram (H := wordHost) 0 crowded_program order_input (Some enabled_options) order_heap
        = Some (Ok result, h1) /\
      res_hitRuleLimit result = true /\ success result = false.
Proof.
  eexists. eexists. split; [vm_compute; reflexivity |]. split; [reflexivity |].
  eexists. eexists. split; [vm_compute; reflexivity |]. split; reflexivity.
Qed.

(** The example of the discount program passes: the expected document
    does not mention the discount. *)
Example discount_example_passes :
  exists results h',
    runExamples (H := wordHost) discount_program_with_example order_heap
      = Some (Ok results, h') /\
    map er_passed results = [true].
Proof. eexists. eexists. split; [vm_compute; reflexivity | reflexivity]. Qed.

(** ** The type checks of the validator *)

Section TypeChecks.
Context `{Typing.JsDate}.

Lemma find_name_is {A} (name : A -> string) (l : list A) (wanted : option string) (x : A) :
  List.find (fun y => Typing.name_is (name y) wanted) l = Some x ->
  x ∈ l /\ wanted = Some (name x).
Proof.
  intros Hfind. apply find_some in Hfind as [Hin Hname]. split; [apply list_elem_of_In, Hin |].
  destruct wanted as [w |]; [| discriminate]. apply String.eqb_eq in Hname. congruence.
Qed.

Lemma find_name_is_unique {A} (name : A -> string) (l : list A) (x : A) :
  NoDup (map name l) -> x ∈ l ->
  List.find (fun y => Typing.name_is (name y) (Some (name x))) l = Some x.
Proof.
  induction l as [| y l IH]; intros Hnodup Hin; [inversion Hin |].
  cbn in Hnodup |- *. apply NoDup_cons in Hnodup as [Hnotin Hnodup].
  destruct (String.eqb (name y) (name x)) eqn:Heq.
  - apply String.eqb_eq in Heq.
    inversion Hin as [| ? ? ? Hin']; subst; [reflexivity |].
    exfalso. apply Hnotin. rewrite Heq. apply list_elem_of_fmap. eauto.
  - apply String.eqb_neq in Heq.
    inversion Hin as [| ? ? ? Hin']; subst; [congruence |]. apply IH; assumption.
Qed.

Lemma find_name_is_some {A} (name : A -> string) (l : list A) (x : A) :
  x ∈ l -> is_Some (List.find (fun y => Typing.name_is (name y) (Some (name x))) l).
Proof.
  induction l as [| y l IH]; intros Hin; [inversion Hin |]. cbn.
  destruct (String.eqb (name y) (name x)) eqn:Heq; [eauto |].
  apply String.eqb_neq in Heq. inversion Hin; subst; [congruence | auto].
Qed.

(** X24.  With entities of different names, [checkEntityPath] accepts a
    path exactly when its first two segments name a declared entity and
    one of its fields; further segments are not looked at, and a path of
    one segment is rejected.  [getField] finds a field for exactly the
    paths that [checkEntityPath] accepts, and else gives the same
    message. *)
Theorem checkEntityPath_accepts_declared_fields
    (path : string) (entities : list Typing.Entity) :
  NoDup (map Typing.entity_name entities) ->
  (Typing.checkEntityPath path entities = None <->
   exists entity field rest,
     entity ∈ entities /\ field ∈ Typing.entity_fields entity /\
     split "." path = Typing.entity_name entity :: Typing.field_name field :: rest) /\
  Typing.checkEntityPath path entities
    = match Typing.getField path entities with
      | Typing.Found _ => None
      | Typing.NotFound error => Some error
      end.
Proof.
  intros Hnodup. unfold Typing.checkEntityPath, Typing.getField. split.
  - split.
    + destruct (List.find _ entities) as [entity |] eqn:He; [| discriminate].
      destruct (List.find _ (Typing.entity_fields entity)) as [field |] eqn:Hf; [| discriminate].
      intros _. apply find_name_is in He as [Hein Hename], Hf as [Hfin Hfname].
      destruct (split "." path) as [| p0 [| p1 rest]]; try discriminate.
      exists entity, field, rest. cbn in Hename, Hfname.
      injection Hename as ->. injection Hfname as ->. auto.
    + intros (entity & field & rest & Hein & Hfin & ->). cbn [lookup list_lookup].
      rewrite (find_name_is_unique Typing.entity_name entities entity Hnodup Hein).
      destruct (find_name_is_some Typing.field_name _ field Hfin) as [f ->]. reflexivity.
  - destruct (List.find _ entities) as [entity |]; [| reflexivity].
    destruct (List.find _ (Typing.entity_fields entity)); reflexivity.
Qed.

(** X25.  [validateSetAction] does not compare the type of a fact that is
    assigned with the type of the target field: for a fact as value it
    only checks the units. *)
Theorem validateSetAction_ignores_type_of_fact
    (target : string) (f : FactOperand) (entities : list Typing.Entity)
    (field : Typing.Field) (r : Typing.Report) :
  Typing.getField target entities = Typing.Found field ->
  Typing.validateSetAction target (OFact f) entities r
    = Typing.validateUnits (OFact f) field ("action on " +:+ target) r.
Proof.
  intros Hfield. unfold Typing.validateSetAction. rewrite Hfield.
  cbn [Typing.validateOperandType].
  destruct (Typing.getField (fact_path f) entities); reflexivity.
Qed.

Lemma push_error_neq (msg : string) (r : Typing.Report) :
  Typing.errors (Typing.push_error msg r) <> Typing.errors r.
Proof.
  cbn. intros Heq. apply (f_equal length) in Heq. rewrite length_app in Heq. cbn in Heq. lia.
Qed.

(** X26.  For a target field without units, [validateSetAction] accepts a
    literal, adding neither error nor warning, exactly when the literal
    has the type of the field, or the field is a date and the literal a
    string that [Date.parse] reads; else it adds one error. *)
Theorem validateSetAction_accepts_literal_of_field_type
    (target : string) (v : ValueOperand) (entities : list Typing.Entity)
    (field : Typing.Field) (r : Typing.Report) :
  Typing.getField target entities = Typing.Found field ->
  Typing.truthy (Typing.field_units field) = None ->
  (Typing.validateSetAction target (OValue v) entities r = r <->
   match Typing.field_type field, operand_value v with
   | Typing.TDate, LStr s => is_Some (Typing.Date_parse s)
   | t, l => Typing.inferValueType l = t
   end) /\
  (Typing.validateSetAction target (OValue v) entities r = r \/
   exists msg, Typing.validateSetAction target (OValue v) entities r = Typing.push_error msg r).
Proof.
  intros Hfield Hunits. unfold Typing.validateSetAction. rewrite Hfield.
  unfold Typing.validateUnits. rewrite Hunits. cbn [Typing.validateOperandType].
  assert (Hneq : forall msg, Typing.push_error msg r <> r).
  { intros msg Heq. apply (push_error_neq msg r). rewrite Heq. reflexivity. }
  destruct (Typing.field_type field), (operand_value v) as [| b | n | s]; cbn;
    try (split; [split; [reflexivity | reflexivity] | left; reflexivity]);
    try (split; [split; [intros Heq; exfalso; exact (Hneq _ Heq) | discriminate]
                | right; eexists; reflexivity]).
  destruct (Typing.Date_parse s) as [d |]; cbn.
  - split; [split; [eauto | reflexivity] | left; reflexivity].
  - split; [split; [intros Heq; exfalso; exact (Hneq _ Heq) | intros [? [=]]]
           | right; eexists; reflexivity].
Qed.
End TypeChecks.

Section TypeChecks2.
Context `{Typing.JsDate}.

Lemma report_app_no_report_r (r : Typing.Report) : report_app r no_report = r.
Proof. destruct r. unfold report_app. cbn. rewrite !app_nil_r. reflexivity. Qed.

Lemma report_app_assoc (r1 r2 r3 : Typing.Report) :
  report_app (report_app r1 r2) r3 = report_app r1 (report_app r2 r3).
Proof. unfold report_app. cbn. rewrite !app_assoc. reflexivity. Qed.

Lemma push_error_app (msg : string) (r : Typing.Report) :
  Typing.push_error msg r = report_app r (Typing.push_error msg no_report).
Proof. unfold report_app, Typing.push_error. cbn. rewrite app_nil_r. reflexivity. Qed.

Lemma push_warning_app (msg : string) (r : Typing.Report) :
  Typing.push_warning msg r = report_app r (Typing.push_warning msg no_report).
Proof. unfold report_app, Typing.push_warning. cbn. rewrite app_nil_r. reflexivity. Qed.

Lemma validateUnits_app operand field context (r : Typing.Report) :
  Typing.validateUnits operand field context r
  = report_app r (Typing.validateUnits operand field context no_report).
Proof.
  unfold Typing.validateUnits.
  destruct (Typing.truthy (Typing.field_units field)); [| symmetry; apply report_app_no_report_r].
  destruct (Typing.truthy (Typing.operand_units operand)); [| apply push_warning_app].
  destruct (negb _); [apply push_error_app | symmetry; apply report_app_no_report_r].
Qed.

Lemma validateOperandType_app operand expected context entities (r : Typing.Report) :
  Typing.validateOperandType operand expected context entities r
  = ((Typing.validateOperandType operand expected context entities no_report).1,
     report_app r (Typing.validateOperandType operand expected context entities no_report).2).
Proof.
  unfold Typing.validateOperandType.
  destruct operand as [f | v].
  - destruct (Typing.getField _ _); cbn; rewrite report_app_no_report_r; reflexivity.
  - destruct expected as [t |]; [| cbn; rewrite report_app_no_report_r; reflexivity].
    destruct t, (operand_value v); cbn;
      rewrite ?report_app_no_report_r; try reflexivity;
      try (f_equal; apply push_error_app).
    destruct (Typing.Date_parse _); cbn; rewrite ?report_app_no_report_r;
      [reflexivity | f_equal; apply push_error_app].
Qed.

Lemma validateComparisonTypes_app lhs rhs entities context (r : Typing.Report) :
  Typing.validateComparisonTypes lhs rhs entities context r
  = report_app r (Typing.validateComparisonTypes lhs rhs entities context no_report).
Proof.
  unfold Typing.validateComparisonTypes.
  set (lhsField := Typing.operand_field lhs entities).
  set (rhsField := Typing.operand_field rhs entities).
  set (step1 := fun r => match Typing.found_error lhsField with
                         | Some e => Typing.push_error e r | None => r end).
  set (step2 := fun r => match Typing.found_error rhsField with
                         | Some e => Typing.push_error e r | None => r end).
  set (step3 := fun r => match Typing.found_field lhsField with
                         | Some field => Typing.validateUnits lhs field (context +:+ ".lhs") r
                         | None => r end).
  set (step4 := fun r => match Typing.found_field rhsField with
                         | Some field => Typing.validateUnits rhs field (context +:+ ".rhs") r
                         | None => r end).
  assert (H1 : forall r, step1 r = report_app r (step1 no_report)).
  { intros r0. subst step1. cbn. destruct (Typing.found_error lhsField);
      [apply push_error_app | symmetry; apply report_app_no_report_r]. }
  assert (H2 : forall r, step2 r = report_app r (step2 no_report)).
  { intros r0. subst step2. cbn. destruct (Typing.found_error rhsField);
      [apply push_error_app | symmetry; apply report_app_no_report_r]. }
  assert (H3 : forall r, step3 r = report_app r (step3 no_report)).
  { intros r0. subst step3. cbn. destruct (Typing.found_field lhsField);
      [apply validateUnits_app | symmetry; apply report_app_no_report_r]. }
  assert (H4 : forall r, step4 r = report_app r (step4 no_report)).
  { intros r0. subst step4. cbn. destruct (Typing.found_field rhsField);
      [apply validateUnits_app | symmetry; apply report_app_no_report_r]. }
  change (match Typing.found_error lhsField with
          | Some e => Typing.push_error e r | None => r end) with (step1 r).
  change (match Typing.found_error lhsField with
          | Some e => Typing.push_error e no_report | None => no_report end)
    with (step1 no_report).
  change (match Typing.found_error rhsField with
          | Some e => Typing.push_error e (step1 r) | None => step1 r end) with (step2 (step1 r)).
  change (match Typing.found_error rhsField with
          | Some e => Typing.push_error e (step1 no_report) | None => step1 no_report end)
    with (step2 (step1 no_report)).
  change (match Typing.found_field lhsField with
          | Some field => Typing.validateUnits lhs field (context +:+ ".lhs") (step2 (step1 r))
          | None => step2 (step1 r) end) with (step3 (step2 (step1 r))).
  change (match Typing.found_field lhsField with
          | Some field =>
              Typing.validateUnits lhs field (context +:+ ".lhs") (step2 (step1 no_report))
          | None => step2 (step1 no_report) end) with (step3 (step2 (step1 no_report))).
  change (match Typing.found_field rhsField with
          | Some field =>
              Typing.validateUnits rhs field (context +:+ ".rhs") (step3 (step2 (step1 r)))
          | None => step3 (step2 (step1 r)) end) with (step4 (step3 (step2 (step1 r)))).
  change (match Typing.found_field rhsField with
          | Some field =>
              Typing.validateUnits rhs field (context +:+ ".rhs")
                (step3 (step2 (step1 no_report)))
          | None => step3 (step2 (step1 no_report)) end)
    with (step4 (step3 (step2 (step1 no_report)))).
  assert (H4' : step4 (step3 (step2 (step1 r)))
                = report_app r (step4 (step3 (step2 (step1 no_report))))).
  { rewrite (H4 (step3 _)), (H3 (step2 _)), (H2 (step1 _)), (H1 r).
    rewrite (H4 (step3 (step2 (step1 no_report)))), (H3 (step2 (step1 no_report))),
      (H2 (step1 no_report)).
    rewrite !report_app_assoc. reflexivity. }
  rewrite H4'. generalize (step4 (step3 (step2 (step1 no_report)))) as r0. intros r0.
  clearbody lhsField rhsField. clear.
  assert (Hleft : forall (r1 : Typing.Report),
            (match lhs with
             | OFact _ => (Typing.field_type <$> Typing.found_field lhsField, r1)
             | OValue _ =>
                 Typing.validateOperandType lhs (Typing.field_type <$> Typing.found_field rhsField)
                   (context +:+ ".lhs") entities r1
             end)
            = ((match lhs with
                | OFact _ => (Typing.field_type <$> Typing.found_field lhsField, no_report)
                | OValue _ =>
                    Typing.validateOperandType lhs
                      (Typing.field_type <$> Typing.found_field rhsField)
                      (context +:+ ".lhs") entities no_report
                end).1,
               report_app r1
                 (match lhs with
                  | OFact _ => (Typing.field_type <$> Typing.found_field lhsField, no_report)
                  | OValue _ =>
                      Typing.validateOperandType lhs
                        (Typing.field_type <$> Typing.found_field rhsField)
                        (context +:+ ".lhs") entities no_report
                  end).2)).
  { intros r1. destruct lhs; [cbn; rewrite report_app_no_report_r; reflexivity |].
    apply validateOperandType_app. }
  assert (Hright : forall (r1 : Typing.Report),
            (match rhs with
             | OFact _ => (Typing.field_type <$> Typing.found_field rhsField, r1)
             | OValue _ =>
                 Typing.validateOperandType rhs (Typing.field_type <$> Typing.found_field lhsField)
                   (context +:+ ".rhs") entities r1
             end)
            = ((match rhs with
                | OFact _ => (Typing.field_type <$> Typing.found_field rhsField, no_report)
                | OValue _ =>
                    Typing.validateOperandType rhs
                      (Typing.field_type <$> Typing.found_field lhsField)
                      (context +:+ ".rhs") entities no_report
                end).1,
               report_app r1
                 (match rhs with
                  | OFact _ => (Typing.field_type <$> Typing.found_field rhsField, no_report)
                  | OValue _ =>
                      Typing.validateOperandType rhs
                        (Typing.field_type <$> Typing.found_field lhsField)
                        (context +:+ ".rhs") entities no_report
                  end).2)).
  { intros r1. destruct rhs; [cbn; rewrite report_app_no_report_r; reflexivity |].
    apply validateOperandType_app. }
  rewrite (Hleft (report_app r r0)), (Hleft r0).
  destruct (match lhs with
            | OFact _ => _
            | OValue _ => _
            end) as [lhsType rl]. cbn [fst snd].
  rewrite (Hright (report_app (report_app r r0) rl)), (Hright (report_app r0 rl)).
  destruct (match rhs with
            | OFact _ => _
            | OValue _ => _
            end) as [rhsType rr]. cbn [fst snd].
  rewrite !report_app_assoc.
  destruct lhsType as [a |], rhsType as [b |]; try reflexivity.
  destruct (bool_decide (a <> b)); [| reflexivity].
  rewrite push_error_app, (push_error_app _ (report_app r0 _)), !report_app_assoc. reflexivity.
Qed.
End TypeChecks2.

Lemma Typing_condition_induction (P : Typing.Condition -> Prop) :
  (forall lhs operator rhs, P (Typing.Comparison lhs operator rhs)) ->
  (forall children, Forall P children -> P (Typing.All children)) ->
  (forall children, Forall P children -> P (Typing.Any children)) ->
  (forall child, P child -> P (Typing.Not child)) ->
  forall condition, P condition.
Proof.
  intros Hcmp Hall Hany Hnot.
  fix IH 1. intros [lhs operator rhs | children | children | child].
  - apply Hcmp.
  - apply Hall. induction children as [| x children IHc]; constructor; [apply IH | exact IHc].
  - apply Hany. induction children as [| x children IHc]; constructor; [apply IH | exact IHc].
  - apply Hnot. apply IH.
Qed.

Section TypeChecks3.
Context `{Typing.JsDate}.

(** X27.  The type check of a condition only adds to the report: it
    returns the errors and warnings it was given followed by the
    messages it finds, and these do not depend on what was reported
    before. *)
Theorem validateConditionTypesRecursive_appends
    (condition : Typing.Condition) (entities : list Typing.Entity) (context : string)
    (r : Typing.Report) :
  Typing.validateConditionTypesRecursive condition entities context r
  = report_app r (Typing.validateConditionTypesRecursive condition entities context no_report).
Proof.
  revert context r.
  induction condition as [lhs operator rhs | children IH | children IH | child IH]
    using Typing_condition_induction; intros context r.
  - apply validateComparisonTypes_app.
  - cbn [Typing.validateConditionTypesRecursive].
    generalize 0%nat as idx. revert r.
    assert (Hgen : forall (r r0 : Typing.Report) (idx : nat),
              (fix each (l : list Typing.Condition) (idx : nat) (r : Typing.Report)
                 : Typing.Report :=
                 match l with
                 | [] => r
                 | child :: rest =>
                     each rest (S idx)
                       (Typing.validateConditionTypesRecursive child entities
                          (context +:+ ".conditions[" +:+ pretty (Z.of_nat idx) +:+ "]") r)
                 end) children idx (report_app r r0)
              = report_app r
                  ((fix each (l : list Typing.Condition) (idx : nat) (r : Typing.Report)
                      : Typing.Report :=
                      match l with
                      | [] => r
                      | child :: rest =>
                          each rest (S idx)
                            (Typing.validateConditionTypesRecursive child entities
                               (context +:+ ".conditions[" +:+ pretty (Z.of_nat idx) +:+ "]") r)
                      end) children idx r0)).
    { induction IH as [| child rest Hchild _ IHrest]; intros r r0 idx; [reflexivity |].
      rewrite (Hchild _ (report_app r r0)), (Hchild _ r0), report_app_assoc.
      apply IHrest. }
    intros r idx. rewrite <- (report_app_no_report_r r) at 1. apply Hgen.
  - cbn [Typing.validateConditionTypesRecursive].
    generalize 0%nat as idx. revert r.
    assert (Hgen : forall (r r0 : Typing.Report) (idx : nat),
              (fix each (l : list Typing.Condition) (idx : nat) (r : Typing.Report)
                 : Typing.Report :=
                 match l with
                 | [] => r
                 | child :: rest =>
                     each rest (S idx)
                       (Typing.validateConditionTypesRecursive child entities
                          (context +:+ ".conditions[" +:+ pretty (Z.of_nat idx) +:+ "]") r)
                 end) children idx (report_app r r0)
              = report_app r
                  ((fix each (l : list Typing.Condition) (idx : nat) (r : Typing.Report)
                      : Typing.Report :=
                      match l with
                      | [] => r
                      | child :: rest =>
                          each rest (S idx)
                            (Typing.validateConditionTypesRecursive child entities
                               (context +:+ ".conditions[" +:+ pretty (Z.of_nat idx) +:+ "]") r)
                      end) children idx r0)).
    { induction IH as [| child rest Hchild _ IHrest]; intros r r0 idx; [reflexivity |].
      rewrite (Hchild _ (report_app r r0)), (Hchild _ r0), report_app_assoc.
      apply IHrest. }
    intros r idx. rewrite <- (report_app_no_report_r r) at 1. apply Hgen.
  - cbn [Typing.validateConditionTypesRecursive]. apply IH.
Qed.

(** X28.  A literal compared with a fact of another type is reported
    twice: once as a mismatch of the operand against the type of the
    field, and once as a mismatch of the comparison.  (The field has no
    units, and the case of a string literal for a date field is left
    aside.) *)
Theorem mismatched_literal_is_reported_twice
    (f : FactOperand) (v : ValueOperand) (entities : list Typing.Entity)
    (field : Typing.Field) (context : string) (r : Typing.Report) :
  Typing.getField (fact_path f) entities = Typing.Found field ->
  Typing.truthy (Typing.field_units field) = None ->
  Typing.inferValueType (operand_value v) <> Typing.field_type field ->
  Typing.field_type field <> Typing.TDate ->
  Typing.validateComparisonTypes (OFact f) (OValue v) entities context r
  = Typing.push_error
      ("Type mismatch in " +:+ context +:+ ": " +:+ Typing.type_name (Typing.field_type field)
         +:+ " compared to " +:+ Typing.type_name (Typing.inferValueType (operand_value v))
         +:+ ".")
      (Typing.push_error
         ("Type mismatch for " +:+ (context +:+ ".rhs") +:+ ": expected "
            +:+ Typing.type_name (Typing.field_type field) +:+ " but got "
            +:+ Typing.type_name (Typing.inferValueType (operand_value v)) +:+ ".")
         r).
Proof.
  intros Hfield Hunits Htype Hdate.
  unfold Typing.validateComparisonTypes. cbn [Typing.operand_field]. rewrite Hfield.
  cbn [Typing.found_error Typing.found_field fmap option_fmap option_map].
  unfold Typing.validateUnits at 1. rewrite Hunits.
  cbn [Typing.validateOperandType].
  destruct (Typing.field_type field) eqn:Ht; try congruence;
    destruct (operand_value v) as [| b | n | s] eqn:Hv; cbn in Htype |- *; try congruence;
    reflexivity.
Qed.
End TypeChecks3.

(** [order.total == "many"]: a number field against a string. *)
Lemma mismatched_literal_is_reported_twice_witness :
  Typing.validateComparisonTypes (H := oneDate) (fact "order.total") (lit (LStr "many"))
    [order_entity] "Rule r1.when" no_report
  = Typing.push_error
      "Type mismatch in Rule r1.when: number compared to string."
      (Typing.push_error
         "Type mismatch for Rule r1.when.rhs: expected number but got string." no_report).
Proof.
  apply (mismatched_literal_is_reported_twice (H := oneDate)
           {| fact_path := "order.total"; fact_units := None |}
           {| operand_value := LStr "many"; value_units := None |}
           [order_entity]
           {| Typing.field_name := "total"; Typing.field_type := Typing.TNumber;
              Typing.field_units := None |}
           "Rule r1.when" no_report).
  - vm_compute. reflexivity.
  - reflexivity.
  - discriminate.
  - discriminate.
Defined.

(** [order.total.cents] is accepted on the strength of [order.total]. *)
Lemma checkEntityPath_accepts_declared_fields_witness :
  (Typing.checkEntityPath "order.total.cents" [order_entity] = None <->
   exists entity field rest,
     entity ∈ [order_entity] /\ field ∈ Typing.entity_fields entity /\
     split "." "order.total.cents"
       = Typing.entity_name entity :: Typing.field_name field :: rest) /\
  Typing.checkEntityPath "order.total.cents" [order_entity]
    = match Typing.getField "order.total.cents" [order_entity] with
      | Typing.Found _ => None
      | Typing.NotFound error => Some error
      end.
Proof.
  apply (checkEntityPath_accepts_declared_fields "order.total.cents" [order_entity]).
  apply (bool_decide_unpack _). vm_compute. exact I.
Defined.

(** The string [order.status] is assigned to the number [order.total]:
    nothing is reported. *)
Lemma validateSetAction_ignores_type_of_fact_witness :
  Typing.validateSetAction (H := oneDate) "order.total"
    (OFact {| fact_path := "order.status"; fact_units := None |}) [order_entity] no_report
  = Typing.validateUnits (OFact {| fact_path := "order.status"; fact_units := None |})
      {| Typing.field_name := "total"; Typing.field_type := Typing.TNumber;
         Typing.field_units := None |}
      ("action on " +:+ "order.total") no_report.
Proof.
  apply (validateSetAction_ignores_type_of_fact (H := oneDate) "order.total"
           {| fact_path := "order.status"; fact_units := None |} [order_entity]).
  vm_compute. reflexivity.
Defined.

Example string_fact_assigned_to_number_field :
  Typing.validateSetAction (H := oneDate) "order.total" (fact "order.status") [order_entity]
    no_report = no_report.
Proof. vm_compute. reflexivity. Qed.

(** A date that the host parses, assigned to the date [order.placed]. *)
Lemma validateSetAction_accepts_literal_of_field_type_witness :
  (Typing.validateSetAction (H := oneDate) "order.placed"
     (OValue {| operand_value := LStr "2024-01-01"; value_units := None |})
     [order_entity] no_report = no_report <->
   is_Some (Typing.Date_parse (JsDate := oneDate) "2024-01-01")) /\
  (Typing.validateSetAction (H := oneDate) "order.placed"
     (OValue {| operand_value := LStr "2024-01-01"; value_units := None |})
     [order_entity] no_report = no_report \/
   exists msg,
     Typing.validateSetAction (H := oneDate) "order.placed"
       (OValue {| operand_value := LStr "2024-01-01"; value_units := None |})
       [order_entity] no_report = Typing.push_error msg no_report).
Proof.
  apply (validateSetAction_accepts_literal_of_field_type (H := oneDate) "order.placed"
           {| operand_value := LStr "2024-01-01"; value_units := None |} [order_entity]
           {| Typing.field_name := "placed"; Typing.field_type := Typing.TDate;
              Typing.field_units := None |} no_report).
  - vm_compute. reflexivity.
  - reflexivity.
Defined.

(** ** Reading before writing *)

Section PathsRead.





End PathsRead.


Example order_total_read_before_write :
  exists h',
    setPathValue order_input "order.total" (VNum 99) order_heap = (Ok (VNum 120, VNum 99), h').
Proof. eexists. vm_compute. reflexivity. Qed.

(** X30.  Once a prefix of a path reads [undefined] or [null], the whole
    path reads [undefined]: [getPathValue] does not fail on a missing
    member. *)
Theorem getPathValue_through_missing_member
    (h : heap) (obj : value) (path : string) (keys1 keys2 : list string) :
  split "." path = keys1 ++ keys2 -> keys2 <> [] ->
  getKeys h obj keys1 = VUndef \/ getKeys h obj keys1 = VNull ->
  getPathValue h obj path = VUndef.
Proof.
  intros Hsplit Hne Hprefix. unfold getPathValue. rewrite Hsplit, fold_left_app.
  change (getKeys h (getKeys h obj keys1) keys2 = VUndef).
  destruct Hprefix as [-> | ->]; [apply getKeys_undefined |].
  destruct keys2 as [| k keys2]; [congruence |]. apply getKeys_undefined.
Qed.

(** [order.missing.deep] on the order payload. *)
Lemma getPathValue_through_missing_member_witness :
  getPathValue order_heap order_input "order.missing.deep" = VUndef.
Proof.
  apply (getPathValue_through_missing_member order_heap order_input "order.missing.deep"
           ["order"; "missing"] ["deep"]).
  - vm_compute. reflexivity.
  - discriminate.
  - left. vm_compute. reflexivity.
Defined.
(** * The final state, and the order of evaluation *)

Section FinalState.
Context `{JsHost}.

(** C2 (amended).  The constraints are judged on the final state: the
    state object and the store [hs] that the passes over the rules leave
    ([runPasses]).  That store is an initial segment of the store at
    return, and is the store at return unless examples were evaluated.
    The success flag of a returned result is false exactly when a
    constraint of severity error (the default severity) fails on that
    state or the rule-firing cap was reached; a failing constraint of
    severity warn does not enter it. *)
Theorem success_false_iff_error_or_limit
    (fuel : nat) (program : Program) (input : value)
    (options : option ExecutionOptions) (h h' : heap) (r : ExecutionResult) :
  runProgram fuel program input options h = Some (Ok r, h') ->
  exists (passes : ExecutionResult) (hs : heap),
    runPasses fuel program input options h = Some (Ok passes, hs) /\
    resultState r = resultState passes /\ res_trace r = res_trace passes /\
    hs `prefix_of` h' /\
    (default false (options ≫= opt_evaluateExamples) = false -> h' = hs) /\
    constraintReport r = evaluateConstraints (program_constraints program) hs (resultState r) /\
    (success r = false <->
     (exists c, c ∈ default [] (program_constraints program) /\
                is_error_severity c = true /\
                ct_result (evaluateCondition hs (constraint_assert c) (resultState r)) = false)
     \/ res_hitRuleLimit r = true).
Proof.
  intros Hrun. unfold runProgram in Hrun.
  destruct (runPasses fuel program input options h) as [[[r0 | e] h0] |] eqn:Hp;
    try discriminate.
  exists r0, h0. split; [reflexivity |].
  pose proof (runPasses_report _ _ _ _ _ _ _ Hp) as (Hrep & Hsucc & _).
  assert (Hsame : resultState r = resultState r0 /\ res_trace r = res_trace r0 /\
                  h0 `prefix_of` h' /\
                  (default false (options ≫= opt_evaluateExamples) = false -> h' = h0) /\
                  constraintReport r = constraintReport r0 /\ success r = success r0 /\
                  res_hitRuleLimit r = res_hitRuleLimit r0).
  { destruct (default false (options ≫= opt_evaluateExamples)).
    - destruct (program_examples program) as [examples |].
      + destruct (runExampleList program examples h0) as [[[rs | e] h2] |] eqn:Hex;
          try discriminate.
        injection Hrun as <- <-. apply runExampleList_frame in Hex. cbn.
        repeat split; try reflexivity; [exact Hex | discriminate].
      + injection Hrun as <- <-. repeat split; reflexivity.
    - injection Hrun as <- <-. repeat split; reflexivity. }
  destruct Hsame as (Hstate & Htrace & Hpre & Hheap & Hreport & Hsuccess & Hlimit).
  repeat (split; [assumption |]).
  rewrite Hreport, Hstate. split; [exact Hrep |].
  rewrite Hsuccess, Hlimit, Hsucc, negb_false_iff, orb_true_iff, Hrep, hasErrors_iff.
  reflexivity.
Qed.
End FinalState.

(** The discount rule with actions enabled, under a constraint that holds
    of the payload as given and fails once the discount is set. *)
Lemma success_false_iff_error_or_limit_witness :
  exists r h' passes hs,
    runProgram (H := wordHost) 0 guarded_discount_program order_input (Some enabled_options)
      order_heap = Some (Ok r, h') /\
    runPasses (H := wordHost) 0 guarded_discount_program order_input (Some enabled_options)
      order_heap = Some (Ok passes, hs) /\
    resultState r = resultState passes /\ res_trace r = res_trace passes /\
    hs `prefix_of` h' /\
    (default false (Some enabled_options ≫= opt_evaluateExamples) = false -> h' = hs) /\
    constraintReport r
      = evaluateConstraints (H := wordHost) (program_constraints guarded_discount_program) hs
          (resultState r) /\
    (success r = false <->
     (exists c, c ∈ default [] (program_constraints guarded_discount_program) /\
                is_error_severity c = true /\
                ct_result (evaluateCondition (H := wordHost) hs (constraint_assert c)
                             (resultState r)) = false)
     \/ res_hitRuleLimit r = true).
Proof.
  destruct (runProgram (H := wordHost) 0 guarded_discount_program order_input
              (Some enabled_options) order_heap)
    as [[[r | e] h'] |] eqn:Hrun; try (vm_compute in Hrun; discriminate).
  destruct (success_false_iff_error_or_limit (H := wordHost) 0 guarded_discount_program
              order_input (Some enabled_options) order_heap h' r Hrun)
    as (passes & hs & Hconclusion).
  exists r, h', passes, hs. split; [reflexivity | exact Hconclusion].
Defined.

(** On that run the constraint holds of the input and fails of the final
    state: the run is unsuccessful without reaching the cap. *)
Example constraint_judged_on_final_state :
  ct_result (evaluateCondition (H := wordHost) order_heap (constraint_assert discount_withheld)
               order_input) = true /\
  exists r h',
    runProgram (H := wordHost) 0 guarded_discount_program order_input (Some enabled_options)
      order_heap = Some (Ok r, h') /\
    ct_result (evaluateCondition (H := wordHost) h' (constraint_assert discount_withheld)
                 (resultState r)) = false /\
    res_hitRuleLimit r = false /\ success r = false.
Proof.
  split; [vm_compute; reflexivity |].
  eexists. eexists. split; [vm_compute; reflexivity |]. vm_compute. auto.
Qed.

Section Passes.
Context `{JsHost}.





End Passes.

Section PriorityOrder.
Context `{JsHost}.
Hypothesis compare_antisym : forall a b, 0 < localeCompare a b -> localeCompare b a <= 0.
Hypothesis compare_trans :
  forall a b c, localeCompare a b <= 0 -> localeCompare b c <= 0 -> localeCompare a c <= 0.


End PriorityOrder.


(** * The validator: what [validateProgram] reports *)


Lemma as_operand_operand_document (o : Operand) :
  Validator.as_operand (Validator.operand_document o) = Some o.
Proof.
  destruct o as [[path [u |]] | [l [u |]]]; try reflexivity; destruct l; reflexivity.
Qed.

Lemma validateUnits_of_operand (o : Operand) (field : Typing.Field) (context : string)
    (r : Typing.Report) :
  Validator.validateUnits (Validator.operand_document o) field context r
  = Typing.validateUnits o field context r.
Proof.
  unfold Validator.validateUnits, Typing.validateUnits.
  destruct (Typing.truthy (Typing.field_units field)) as [expected |]; [| reflexivity].
  assert (Hunits : Validator.member "units" (Validator.operand_document o)
                   = JStr <$> Typing.operand_units o).
  { destruct o as [[path [u |]] | [l [u |]]]; reflexivity. }
  rewrite Hunits. destruct (Typing.operand_units o) as [u |]; [| reflexivity].
  cbn. destruct (String.eqb u "") eqn:Hempty; [reflexivity |]. cbn.
  destruct (String.eqb u expected) eqn:Heq.
  - apply String.eqb_eq in Heq. subst. rewrite bool_decide_eq_true_2 by reflexivity. reflexivity.
  - apply String.eqb_neq in Heq. rewrite bool_decide_eq_false_2 by congruence. reflexivity.
Qed.

(** On the document of an operand, the check of a [set] action is the
    check of that operand. *)
Lemma validateSetAction_of_operand `{Typing.JsDate} (target : string) (o : Operand)
    (entities : list Typing.Entity) (r : Typing.Report) :
  Validator.validateSetAction target (Validator.operand_document o) entities r
  = Typing.validateSetAction target o entities r.
Proof.
  unfold Validator.validateSetAction, Typing.validateSetAction.
  rewrite as_operand_operand_document.
  destruct (Typing.getField target entities); [| reflexivity].
  rewrite validateUnits_of_operand. reflexivity.
Qed.

(** A value that passes the shape check is read as an operand. *)
Lemma shaped_value_is_an_operand (value : json) (context : string) :
  Validator.validateOperandShape value context = [] ->
  is_Some (Validator.as_operand value).
Proof.
  unfold Validator.validateOperandShape, Validator.as_operand.
  destruct value as [| | | | | fields]; try discriminate.
  intros Hshape.
  destruct (Validator.member "kind" (JObj fields)) as [[| | | kind | |] |]; try discriminate.
  destruct (String.eqb kind "fact").
  - destruct (Validator.member "path" (JObj fields)) as [[| | | path | |] |];
      try discriminate; eauto.
  - destruct (String.eqb kind "value"); [| discriminate].
    destruct (Validator.member "value" (JObj fields)) as [[| | | | |] |];
      try discriminate; cbn; eauto.
Qed.

Section CrossChecks.
Context `{Typing.JsDate}.












End CrossChecks.




Lemma push_errors_errors (msgs : list string) (r : Typing.Report) :
  Typing.errors (push_errors msgs r) = Typing.errors r ++ msgs /\
  Typing.warnings (push_errors msgs r) = Typing.warnings r.
Proof.
  unfold push_errors. revert r. induction msgs as [| m msgs IH]; intros r; cbn.
  - rewrite app_nil_r. auto.
  - destruct (IH (Typing.push_error m r)) as [-> ->]. cbn. rewrite <- app_assoc. auto.
Qed.

Section Validation.
Context `{JsHost} `{Typing.JsDate} `{JsText}.


(** With errors of shape, [validateProgram] returns them and nothing
    else: conflicts are not looked for. *)
Lemma validateProgram_shape_errors (program : Validator.Program) (h : heap) :
  Validator.validateProgramShape h program <> [] ->
  validateProgram program h
  = Some (Ok {| Validator.valid := false;
                Validator.errors := Validator.validateProgramShape h program;
                Validator.warnings := [] |}, h).
Proof.
  intros Hshape. unfold validateProgram.
  destruct (push_errors_errors (Validator.validateProgramShape h program)
              {| Typing.errors := []; Typing.warnings := [] |}) as [He Hw].
  cbn in He, Hw.
  destruct (push_errors _ _) as [errors warnings] eqn:Hr. cbn in He, Hw. subst.
  destruct (Validator.validateProgramShape h program) as [| e l]; [congruence |].
  reflexivity.
Qed.

(** With examples, a program that passes the shape checks does not get
    its result: the call of [assessRuleCoverage] raises. *)
Lemma validateProgram_raises_with_examples (program : Validator.Program) (h : heap)
    (engine : Program) (example : Example) (examples : list Example) :
  Validator.validateProgramShape h program = [] ->
  Validator.program_examples program = Some (example :: examples) ->
  engine_program program = Some engine ->
  exists e h', validateProgram program h = Some (Throw e, h').
Proof.
  intros Hshape Hex Hengine. unfold validateProgram. rewrite Hshape, Hex, Hengine. cbn.
  assert (Hexamples : program_examples engine = Some (example :: examples)).
  { unfold engine_program in Hengine.
    destruct (traverse engine_rule _); [| discriminate].
    destruct (engine_mode _); [| discriminate].
    injection Hengine as <-. exact Hex. }
  unfold Coverage.assessRuleCoverage. rewrite Hexamples.
  match goal with |- context [Coverage.replay engine _ ?c h] =>
    destruct (replay_raises engine examples example c h) as (e & h' & ->) end.
  eauto.
Qed.

(** The approve and deny rules with the order payload as an example:
    the validation ends in the [TypeError] of the coverage. *)
Example validateProgram_raises_on_an_example :
  exists h',
    validateProgram (H := wordHost) (H0 := oneDate) (H1 := asciiText)
      approve_deny_program_with_example order_heap = Some (Throw TypeError, h').
Proof. eexists. vm_compute. reflexivity. Qed.

End Validation.


(** That program gets one error, which names A and B. *)
Example approve_deny_reports_one_conflict :
  validateProgram (H := wordHost) (H0 := oneDate) (H1 := asciiText) approve_deny_program
    empty_heap
  = Some (Ok {| Validator.valid := false;
                Validator.errors := [Validator.conflict_message "order.status" "A" "B"];
                Validator.warnings := ["No examples provided; cannot assess rule coverage."] |},
          empty_heap).
Proof. vm_compute. reflexivity. Qed.


(** Two rules that set the status to the same literal, by operands
    written with their members in different orders, are reported too. *)
Example same_literal_other_order_is_an_error :
  exists result,
    validateProgram (H := wordHost) (H0 := oneDate) (H1 := asciiText) deny_twice_program
      empty_heap = Some (Ok result, empty_heap) /\
    Validator.errors result = [Validator.conflict_message "order.status" "B" "C"].
Proof. eexists. split; [vm_compute; reflexivity | reflexivity]. Qed.
